(** * short-video-maker: timeline composition, caption pages, render queue

    A shallow embedding of the parts of the repository that decide how a
    short video is laid out in time and how render jobs are scheduled:

    - [Timeline]: the per-scene frame arithmetic and the transition helper
      of the [LandscapeVideo] composition;
    - [Highlight]: the active-word test of the composition and the
      sequences the word is rendered in;
    - [Captions]: the caption paginator ([createCaptionPages]);
    - [Creator]: [ShortCreator] (queue, [createShort], [status]) together
      with [ProgressTracker], as a labelled transition system;
    - [Effects]: the Ken Burns and caption animation helpers of the
      composition;
    - [Wav]: the duration the Venice speech service reads from a WAV file;
    - [Settings]: [SettingsManager], its REST routes and the settings page;
    - [Whisper]: the captions made from a transcription.

    JavaScript numbers are modelled as exact rationals ([Q]) where the
    last bit of a result does not matter. The concrete inputs evaluated
    there are small integers and fractions such as 0.375 or 1.5, on which
    binary64 arithmetic is exact, so that evaluation in [Q] and in the
    JavaScript engine agree on them. The test for the active word compares
    a frame with a bound that may fall exactly on it; there ([Binary64],
    [Highlight]) numbers are IEEE 754 binary64 values, with the arithmetic
    of the Standard Library's [SpecFloat]. *)

From Stdlib Require Import QArith Qround Qminmax ZArith Lia Lqa.
From Stdlib Require Import Strings.Byte Strings.Ascii.
From Stdlib Require Floats.SpecFloat.
From stdpp Require Import gmap strings list pretty.

Close Scope Q_scope.

(* ===================================================================== *)
(** ** Timeline: [LandscapeVideo]                                         *)
(* ===================================================================== *)

Module Timeline.

#[local] Open Scope Q_scope.

(** [Caption], [Scene] as in [types/shorts]; times are milliseconds,
    [duration] is seconds. *)
Record Caption := { text : string; startMs : Q; endMs : Q }.
Record Audio := { url : string; duration : Q }.
Record Scene := { captions : list Caption; video : string; audio : Audio }.

Inductive TransitionEnum := none | fade | slide.

(** The fields of [config] the composition reads for its frame
    arithmetic. An omitted field is [None]. *)
Record Config := {
  paddingBack : option Q;
  transition : option TransitionEnum;
  transitionDuration : option Q
}.

(** JavaScript truthiness of an optional number: defined and not zero. *)
Definition truthy (x : option Q) : bool :=
  match x with
  | Some v => negb (Qeq_bool v 0)
  | None => false
  end.

(** [x ?? d]. *)
Definition nullish {A} (x : option A) (d : A) : A :=
  match x with Some v => v | None => d end.

(** [Math.round]: the nearest integer, halves going up. *)
Definition Math_round (x : Q) : Z := Qfloor (x + (1 # 2)).

(** [scenes.slice(0, n).reduce((acc, curr) => acc + curr.audio.duration, 0)] *)
Definition sumDurations (scenes : list Scene) (n : nat) : Q :=
  fold_left (fun acc curr => acc + duration (audio curr)) (firstn n scenes) 0.

(** [startFrame] of scene [i]. *)
Definition startFrame (scenes : list Scene) (fps : Q) (i : nat) : Q :=
  sumDurations scenes i * fps.

(** [durationInFrames] of scene [i], as it is handed to [<Sequence>] and to
    the two style helpers. *)
Definition durationInFrames (scenes : list Scene) (config : Config)
    (fps : Q) (i : nat) : Q :=
  let durationInFrames := sumDurations scenes (i + 1) * fps in
  if truthy (paddingBack config)
     && (Z.of_nat i =? Z.of_nat (length scenes) - 1)%Z
  then durationInFrames + (nullish (paddingBack config) 0 / 1000) * fps
  else durationInFrames.

(** One [<Sequence from=... durationInFrames=...>] per scene. *)
Record SceneSlot := { from : Q; slotDuration : Q; slotScene : Scene }.

Definition compose (scenes : list Scene) (config : Config) (fps : Q)
    : list SceneSlot :=
  imap (fun i scene =>
          {| from := startFrame scenes fps i;
             slotDuration := durationInFrames scenes config fps i;
             slotScene := scene |}) scenes.

(** Remotion's [interpolate] on a two-point range, with the extrapolation
    modes the composition uses ([extend] is the library default). A range
    that is not strictly increasing makes the library throw: [None]. *)
Inductive ExtrapolateType := extend | clamp | identity.

#[global] Instance ExtrapolateType_eq_dec : EqDecision ExtrapolateType.
Proof. solve_decision. Defined.

(** [x < y] on numbers. *)
Definition Qltb (x y : Q) : bool := negb (Qle_bool y x).

Definition interpolate (input : Q) (inputRange outputRange : Q * Q)
    (extrapolateLeft extrapolateRight : ExtrapolateType) : option Q :=
  let '(inputMin, inputMax) := inputRange in
  let '(outputMin, outputMax) := outputRange in
  if negb (Qltb inputMin inputMax) then None
  else
    if Qltb input inputMin && bool_decide (extrapolateLeft = identity)
    then Some input
    else
      let result :=
        if Qltb input inputMin && bool_decide (extrapolateLeft = clamp)
        then inputMin else input in
      if Qltb inputMax result && bool_decide (extrapolateRight = identity)
      then Some result
      else
        let result :=
          if Qltb inputMax result && bool_decide (extrapolateRight = clamp)
          then inputMax else result in
        if Qeq_bool outputMin outputMax then Some outputMin
        else
          let result := (result - inputMin) / (inputMax - inputMin) in
          Some (result * (outputMax - outputMin) + outputMin).

(** What [getTransitionStyle] returns: the opacity and, for [slide], the
    horizontal offset in percent ([translateX]). *)
Record TransitionStyle := { opacity : Q; translateX : option Q }.

(** [getTransitionStyle(sceneFrame, sceneDuration)]; [None] when a call to
    [interpolate] throws. *)
Definition getTransitionStyle (config : Config) (fps : Q)
    (sceneFrame sceneDuration : Q) : option TransitionStyle :=
  let transition := nullish (transition config) none in
  let transitionDuration := nullish (transitionDuration config) 500 in
  let transitionDurationFrames := (transitionDuration / 1000) * fps in
  match transition with
  | none => Some {| opacity := 1; translateX := None |}
  | _ =>
    fadeInProgress ←
      interpolate sceneFrame (0, transitionDurationFrames) (0, 1) extend clamp;
    fadeOutProgress ←
      interpolate sceneFrame
        (sceneDuration - transitionDurationFrames, sceneDuration) (1, 0)
        clamp extend;
    match transition with
    | fade =>
      Some {| opacity := Qmin fadeInProgress fadeOutProgress;
              translateX := None |}
    | _ =>
      slideIn ←
        interpolate sceneFrame (0, transitionDurationFrames) (100, 0)
          extend clamp;
      Some {| opacity := Qmin fadeInProgress fadeOutProgress;
              translateX :=
                Some (if Qltb sceneFrame transitionDurationFrames
                      then slideIn else 0) |}
    end
  end.

(** Sample inputs: a scene that only carries an audio duration, and a
    configuration that only sets [paddingBack]. *)
Definition sceneOf (d : Q) : Scene :=
  {| captions := []; video := EmptyString;
     audio := {| url := EmptyString; duration := d |} |}.

Definition paddingOnly (p : option Q) : Config :=
  {| paddingBack := p; transition := None; transitionDuration := None |}.

Definition word (t : string) (s e : Q) : Caption :=
  {| text := t; startMs := s; endMs := e |}.

(** The sum of the [durationInFrames] handed to the scene sequences. *)
Definition totalSlotFrames (slots : list SceneSlot) : Q :=
  foldr (fun s acc => slotDuration s + acc) 0 slots.

(** The two ramps of the fade as the specification words them: the entry
    ramp rises from 0 to 1 over the first [T] frames, the exit ramp falls
    from 1 to 0 over the last [T] frames of a scene of [D] frames; both are
    clamped to [[0,1]]. *)
Definition clamp01 (x : Q) : Q := Qmax 0 (Qmin 1 x).
Definition entryRamp (T f : Q) : Q := clamp01 (f / T).
Definition exitRamp (T D f : Q) : Q := clamp01 ((D - f) / T).

(** [transitionDurationFrames] as the component computes it. *)
Definition transitionDurationFrames (config : Config) (fps : Q) : Q :=
  (nullish (transitionDuration config) 500 / 1000) * fps.

(** The frame length of a scene's own audio. *)
Definition audioFrames (s : Scene) (fps : Q) : Q := duration (audio s) * fps.

End Timeline.

(* ===================================================================== *)
(** ** Binary64: JavaScript numbers to the last bit                       *)
(* ===================================================================== *)

Module Binary64.
Import SpecFloat.

(** A JavaScript number: an IEEE 754 binary64 value. *)
Definition number : Type := spec_float.

Definition prec : Z := 53.
Definition emax : Z := 1024.

(** The number an integer literal denotes. *)
Definition ofZ (z : Z) : number := binary_normalize prec emax z 0 false.

(** [x + y], [x - y], [x * y], [x / y], each rounded to nearest, ties to
    even. *)
Definition add : number -> number -> number := SFadd prec emax.
Definition mul : number -> number -> number := SFmul prec emax.
Definition div : number -> number -> number := SFdiv prec emax.


(** [Math.round(x)]: the integer nearest to [x], halves going up; a result
    of zero keeps the sign of [x]. A number with a non-negative exponent is
    an integer already. *)
Definition Math_round (x : number) : number :=
  match x with
  | S754_finite s m e =>
      if (0 <=? e)%Z then x
      else binary_normalize prec emax
             ((cond_Zopp s (Z.pos m) * 2 + 2 ^ (- e)) / 2 ^ (- e + 1))%Z
             0 s
  | _ => x
  end.

End Binary64.

(* ===================================================================== *)
(** ** Highlight: the active word of [LandscapeVideo]                     *)
(* ===================================================================== *)

Module Highlight.
Import Binary64.

(** [Caption], and the pages and lines [createCaptionPages] returns. *)
Record Caption := { text : string; startMs : number; endMs : number }.
Record CaptionLine := { texts : list Caption }.
Record CaptionPage := {
  pageStartMs : number; pageEndMs : number; lines : list CaptionLine
}.










(** Words and pages with whole milliseconds. *)
Definition word (t : string) (s e : Z) : Caption :=
  {| text := t; startMs := ofZ s; endMs := ofZ e |}.


End Highlight.

(* ===================================================================== *)
(** ** Captions: [createCaptionPages]                                     *)
(* ===================================================================== *)

Module Captions.

Export Timeline (Caption, text, startMs, endMs, word).

Record CaptionLine := { texts : list Caption }.
Record CaptionPage := {
  pageStartMs : Q;
  pageEndMs : Q;
  lines : list CaptionLine
}.

(** The paginator's working state while it walks the tokens: the pages
    already emitted, the page being filled (its bounds and finished lines),
    the line being filled, and the end of the previous token. *)
Record Cursor := {
  pages : list CaptionPage;
  pageStart : Q;
  pageEnd : Q;
  pageLines : list CaptionLine;
  lineTexts : list Caption;
  previousEnd : option Q
}.

Definition start : Cursor :=
  {| pages := []; pageStart := 0%Q; pageEnd := 0%Q; pageLines := [];
     lineTexts := []; previousEnd := None |}.

(** [currentLineCharLength]. *)
Definition lineLength (l : list Caption) : nat :=
  foldr (fun t acc => String.length (text t) + acc) 0 l.

(** The finished lines of the page once the line being filled is closed. *)
Definition closeLine (c : Cursor) : list CaptionLine :=
  match lineTexts c with
  | [] => pageLines c
  | _ => pageLines c ++ [{| texts := lineTexts c |}]
  end.

(** The emitted pages once the page being filled is closed. *)
Definition closePage (c : Cursor) : list CaptionPage :=
  match closeLine c with
  | [] => pages c
  | ls => pages c ++ [{| pageStartMs := pageStart c;
                         pageEndMs := pageEnd c;
                         lines := ls |}]
  end.

(** A new page whose first token is [t]. *)
Definition openPageAt (t : Caption) (emitted : list CaptionPage) : Cursor :=
  {| pages := emitted; pageStart := startMs t; pageEnd := endMs t;
     pageLines := []; lineTexts := [t]; previousEnd := Some (endMs t) |}.

Definition gapBreak (maxGapMs : Q) (c : Cursor) (t : Caption) : bool :=
  match previousEnd c with
  | Some e => Timeline.Qltb maxGapMs (startMs t - e)
  | None => false
  end.

Definition lineFull (lineMaxLength : nat) (c : Cursor) (t : Caption) : bool :=
  match lineTexts c with
  | [] => false
  | l => lineMaxLength <? lineLength l + String.length (text t)
  end.

Definition isEmptyPage (c : Cursor) : bool :=
  match pageLines c, lineTexts c with
  | [], [] => true
  | _, _ => false
  end.

(** Modelled from the spec: the body of [createCaptionPages]
    ([components/utils], not among the sources), one token at a time. A
    token joins the current line while the line's character length plus the
    token's length stays within [lineMaxLength]; an empty line takes any
    token. A token starts a new page when the gap to the previous token's
    end exceeds [maxGapMs], or when it needs a new line and the page already
    holds [lineCount] lines. A page's bounds are its first token's start and
    its last token's end. *)
Definition step (lineMaxLength lineCount : nat) (maxGapMs : Q)
    (c : Cursor) (t : Caption) : Cursor :=
  if gapBreak maxGapMs c t then openPageAt t (closePage c)
  else if lineFull lineMaxLength c t then
    if lineCount <=? length (closeLine c) then openPageAt t (closePage c)
    else {| pages := pages c; pageStart := pageStart c; pageEnd := endMs t;
            pageLines := closeLine c; lineTexts := [t];
            previousEnd := Some (endMs t) |}
  else {| pages := pages c;
          pageStart := if isEmptyPage c then startMs t else pageStart c;
          pageEnd := endMs t;
          pageLines := pageLines c;
          lineTexts := lineTexts c ++ [t];
          previousEnd := Some (endMs t) |}.

(** Modelled from the spec: [createCaptionPages({captions, lineMaxLength,
    lineCount, maxDistanceMs})], the contract
    [paginate(tokens, lineMaxLength, lineCount, maxGapMs)]. *)
Definition createCaptionPages (captions : list Caption)
    (lineMaxLength lineCount : nat) (maxDistanceMs : Q) : list CaptionPage :=
  closePage (fold_left (step lineMaxLength lineCount maxDistanceMs)
                       captions start).

(** The tokens of a page, line after line, and of a list of pages. *)
Definition pageTokens (p : CaptionPage) : list Caption :=
  concat (texts <$> lines p).

Definition allTokens (ps : list CaptionPage) : list Caption :=
  concat (pageTokens <$> ps).

(** [s] and [e] are the start of the first and the end of the last token
    of [l] (which is therefore not empty). *)
Definition bounds (s e : Q) (l : list Caption) : Prop :=
  startMs <$> head l = Some s /\ endMs <$> last l = Some e.

Definition pageBounded (p : CaptionPage) : Prop :=
  bounds (pageStartMs p) (pageEndMs p) (pageTokens p).

(** The tokens held by the page being filled. *)
Definition pending (c : Cursor) : list Caption :=
  concat (texts <$> pageLines c) ++ lineTexts c.

(** The loop invariant of the walk after the tokens [seen]: emitted pages
    and the page being filled hold exactly [seen], every emitted page is
    bounded by its tokens, and unless nothing was seen yet the line being
    filled is not empty and the running bounds fit the pending tokens. *)
Definition walked (c : Cursor) (seen : list Caption) : Prop :=
  allTokens (pages c) ++ pending c = seen
  /\ Forall pageBounded (pages c)
  /\ ((seen = [] /\ c = start)
      \/ (lineTexts c <> [] /\ bounds (pageStart c) (pageEnd c) (pending c))).

End Captions.

(* ===================================================================== *)
(** ** Creator: [ShortCreator] and [ProgressTracker]                      *)
(* ===================================================================== *)

Module Creator.

(** *** Progress events ([server/ProgressTracker]) *)

Inductive Stage :=
| queued | generating_audio | transcribing | fetching_videos
| composing | rendering | complete | error.

#[global] Instance Stage_eq_dec : EqDecision Stage.
Proof. solve_decision. Defined.

Record ProgressEvent := {
  videoId : nat;
  stage : Stage;
  progress : Z;
  message : string;
  errorText : option string
}.

(** The position of a stage in the order in which [ProgressEvent] lists
    them. *)
Definition stageRank (s : Stage) : nat :=
  match s with
  | queued => 0 | generating_audio => 1 | transcribing => 2
  | fetching_videos => 3 | composing => 4 | rendering => 5
  | complete => 6 | error => 7
  end.

Definition terminal (s : Stage) : bool :=
  match s with complete | error => true | _ => false end.

(** What is written to an SSE response: the header, one [data:] frame per
    event, heartbeat comments. *)
Inductive Chunk :=
| Head (status : nat)
| Data (event : ProgressEvent)
| HeartbeatComment.

(** [ProgressTracker]: the [connections] map, and for every response
    object what was written to it, whether [end()] was called and whether
    its heartbeat interval is armed; the pending clean-up timers; the
    ['progress'] events emitted so far. Responses are named by numbers. *)
Record Tracker := {
  connections : gmap nat (list nat);
  written : gmap nat (list Chunk);
  ended : gset nat;
  heartbeats : gset nat;
  timers : list nat;
  emitted : list ProgressEvent
}.

Definition write (res : nat) (c : Chunk) (t : Tracker) : Tracker :=
  {| connections := connections t;
     written := <[res := default [] (written t !! res) ++ [c]]> (written t);
     ended := ended t; heartbeats := heartbeats t; timers := timers t;
     emitted := emitted t |}.

Definition sendEvent (res : nat) (event : ProgressEvent) (t : Tracker)
    : Tracker :=
  write res (Data event) t.

(** The message [addConnection] sends first. *)
Definition connectedEvent (videoId : nat) : ProgressEvent :=
  {| videoId := videoId; stage := queued; progress := 0;
     message := "Connected to progress stream"; errorText := None |}.

(** [addConnection(videoId, res)]: header, initial message, registration in
    the map, heartbeat interval. *)
Definition addConnection (videoId res : nat) (t : Tracker) : Tracker :=
  let t := write res (Head 200) t in
  let t := sendEvent res (connectedEvent videoId) t in
  let conns := default [] (connections t !! videoId) in
  {| connections := <[videoId := conns ++ [res]]> (connections t);
     written := written t; ended := ended t;
     heartbeats := {[res]} ∪ heartbeats t;
     timers := timers t; emitted := emitted t |}.

(** [connections.splice(connections.indexOf(res), 1)] *)
Fixpoint removeFirst (res : nat) (l : list nat) : list nat :=
  match l with
  | [] => []
  | r :: l => if decide (r = res) then l else r :: removeFirst res l
  end.

(** [removeConnection(videoId, res)] *)
Definition removeConnection (videoId res : nat) (t : Tracker) : Tracker :=
  match connections t !! videoId with
  | Some conns =>
    let conns := removeFirst res conns in
    {| connections :=
         match conns with
         | [] => delete videoId (connections t)
         | _ => <[videoId := conns]> (connections t)
         end;
       written := written t; ended := ended t; heartbeats := heartbeats t;
       timers := timers t; emitted := emitted t |}
  | None => t
  end.

(** The ['close'] handlers registered by [addConnection]. *)
Definition onClose (videoId res : nat) (t : Tracker) : Tracker :=
  let t := removeConnection videoId res t in
  {| connections := connections t; written := written t; ended := ended t;
     heartbeats := heartbeats t ∖ {[res]};
     timers := timers t; emitted := emitted t |}.

(** One tick of the heartbeat interval of [res]. *)
Definition heartbeat (res : nat) (t : Tracker) : Tracker :=
  if decide (res ∈ heartbeats t) then
    if decide (res ∈ ended t) then
      {| connections := connections t; written := written t;
         ended := ended t; heartbeats := heartbeats t ∖ {[res]};
         timers := timers t; emitted := emitted t |}
    else write res HeartbeatComment t
  else t.

(** [updateProgress(event)] *)
Definition updateProgress (event : ProgressEvent) (t : Tracker) : Tracker :=
  let conns := default [] (connections t !! videoId event) in
  let t :=
    foldl (fun t res =>
             if decide (res ∈ ended t) then t else sendEvent res event t)
          t conns in
  {| connections := connections t; written := written t; ended := ended t;
     heartbeats := heartbeats t;
     timers := if terminal (stage event)
               then timers t ++ [videoId event] else timers t;
     emitted := emitted t ++ [event] |}.

(** The body of the clean-up timer armed by a terminal event. *)
Definition cleanup (videoId : nat) (t : Tracker) : Tracker :=
  match connections t !! videoId with
  | Some conns =>
    {| connections := delete videoId (connections t);
       written := written t;
       ended := list_to_set conns ∪ ended t;
       heartbeats := heartbeats t; timers := timers t;
       emitted := emitted t |}
  | None => t
  end.

Definition fireTimer (k : nat) (t : Tracker) : Tracker :=
  match timers t !! k with
  | Some videoId =>
    let t := cleanup videoId t in
    {| connections := connections t; written := written t; ended := ended t;
       heartbeats := heartbeats t; timers := delete k (timers t);
       emitted := emitted t |}
  | None => t
  end.

Definition emptyTracker : Tracker :=
  {| connections := ∅; written := ∅; ended := ∅; heartbeats := ∅;
     timers := []; emitted := [] |}.

(** *** Jobs and collaborators ([short-creator/ShortCreator]) *)

Record SceneInput := { sceneText : string; searchTerms : list string }.

Inductive VideoSource := pexels | plex | venice_ai.

#[global] Instance VideoSource_eq_dec : EqDecision VideoSource.
Proof. solve_decision. Defined.

(** The fields of [RenderConfig] that steer [createShort]. *)
Record RenderConfig := {
  paddingBack : option Q;
  videoSource : option VideoSource;
  plexMovieId : option string
}.

(** A queue entry; ids stand for the values of [cuid()] and are numbered in
    the order in which they are issued. *)
Record Job := { sceneInput : list SceneInput; config : RenderConfig; id : nat }.

(** Temp files of a job: per scene one [.wav], one [.mp3] and one [.mp4],
    each under a fresh name. *)
Inductive TempKind := wav | mp3 | mp4.

Record TempFile := { owner : nat; sceneIndex : nat; kind : TempKind }.

#[global] Instance TempKind_eq_dec : EqDecision TempKind.
Proof. solve_decision. Defined.

#[global] Instance TempFile_eq_dec : EqDecision TempFile.
Proof. solve_decision. Defined.

(** The awaited or throwing calls of [createShort], by scene index. *)
Inductive ExtCall :=
| getMovieFilePath
| getVideoDuration
| ttsGenerate (index : nat)
| saveNormalizedAudio (index : nat)
| CreateCaption (index : nat)
| saveToMp3 (index : nat)
| generateTextToVideo (index : nat)
| storeVeniceVideo (index : nat)
| dynamicCrop (index : nat)
| findVideo (index : nat)
| downloadVideo (index : nat)
| musicList
| render
| removeSync (file : TempFile).

#[global] Instance ExtCall_eq_dec : EqDecision ExtCall.
Proof. solve_decision. Defined.

(** What a failing call throws. *)
Inductive Thrown := ErrorObject (msg : string) | OtherValue.

(** [error instanceof Error ? error.message : 'Unknown error'] *)
Definition errorMessage (e : Thrown) : string :=
  match e with ErrorObject m => m | OtherValue => "Unknown error" end.

(** The collaborators as [createShort] sees them: whether the creator was
    built with a Venice video client, the outcome of every call of every
    job ([None]: the call returns), and the movie length [ffmpeg] reports. *)
Record World := {
  veniceVideo : bool;
  outcome : nat -> ExtCall -> option Thrown;
  movieDuration : nat -> Q
}.

(** The steps of one [createShort] call. *)
Inductive Action :=
| Emit (event : ProgressEvent)
| Call (c : ExtCall)
| CallCaught (c : ExtCall).

Definition event (videoId : nat) (s : Stage) (p : Z) (m : string)
    : ProgressEvent :=
  {| videoId := videoId; stage := s; progress := p; message := m;
     errorText := None |}.

(** [Math.round((index / inputScenes.length) * 70)] *)
Definition sceneProgress (index n : nat) : Z :=
  Timeline.Math_round
    ((inject_Z (Z.of_nat index) / inject_Z (Z.of_nat n)) * 70)%Q.

(** [`... scene ${index + 1}/${inputScenes.length}...`] *)
Definition sceneMessage (what : string) (index n : nat) : string :=
  what +:+ " for scene " +:+ pretty (index + 1) +:+ "/" +:+ pretty n
  +:+ "...".

(** Whether the Plex movie is requested, and whether it ends up as the
    footage source: the path lookup returned and the movie has a length. *)
Definition plexRequested (config : RenderConfig) : bool :=
  bool_decide (videoSource config = Some plex)
  && match plexMovieId config with
     | Some m => negb (String.eqb m EmptyString)
     | None => false
     end.

Definition hasSourceVideo (w : World) (j : Job) : bool :=
  plexRequested (config j)
  && bool_decide (outcome w (id j) getMovieFilePath = None).

Definition usesPlexClip (w : World) (j : Job) : bool :=
  hasSourceVideo w j && Timeline.Qltb 0 (movieDuration w (id j)).

(** The footage branch of one scene. *)
Definition fetchFootage (w : World) (j : Job) (index : nat) : list Action :=
  if bool_decide (videoSource (config j) = Some venice_ai) && veniceVideo w
  then [Call (generateTextToVideo index); Call (storeVeniceVideo index)]
  else if usesPlexClip w j
  then [Call (dynamicCrop index)]
  else [Call (findVideo index); Call (downloadVideo index)].

(** One turn of the [for (const scene of inputScenes)] loop. *)
Definition sceneActions (w : World) (j : Job) (index : nat) : list Action :=
  let n := length (sceneInput j) in
  [ Emit (event (id j) generating_audio (sceneProgress index n)
            (sceneMessage "Generating audio" index n));
    Call (ttsGenerate index);
    Call (saveNormalizedAudio index);
    Emit (event (id j) transcribing (sceneProgress index n + 5)
            (sceneMessage "Transcribing audio" index n));
    Call (CreateCaption index);
    Call (saveToMp3 index);
    Emit (event (id j) fetching_videos (sceneProgress index n + 10)
            (sceneMessage "Fetching video" index n)) ]
  ++ fetchFootage w j index.

(** [tempFiles] once every scene is processed. *)
Definition tempFiles (j : Job) : list TempFile :=
  flat_map (fun index =>
              [ {| owner := id j; sceneIndex := index; kind := wav |};
                {| owner := id j; sceneIndex := index; kind := mp3 |};
                {| owner := id j; sceneIndex := index; kind := mp4 |} ])
           (seq 0 (length (sceneInput j))).

(** [createShort(videoId, inputScenes, config)] as the list of its steps. *)
Definition createShort (w : World) (j : Job) : list Action :=
  [ Emit (event (id j) queued 0 "Starting video creation...") ]
  ++ (if plexRequested (config j) then [CallCaught getMovieFilePath] else [])
  ++ (if hasSourceVideo w j then [Call getVideoDuration] else [])
  ++ flat_map (sceneActions w j) (seq 0 (length (sceneInput j)))
  ++ [ Emit (event (id j) composing 75 "Composing video with music...");
       Call musicList;
       Emit (event (id j) rendering 80 "Rendering final video...");
       Call render;
       Emit (event (id j) complete 100 "Video creation complete!") ]
  ++ (Call ∘ removeSync <$> tempFiles j).

(** The event sent from the [catch] block of [processQueue]. *)
Definition failedEvent (videoId : nat) (e : Thrown) : ProgressEvent :=
  {| videoId := videoId; stage := error; progress := 0;
     message := "Failed to create video";
     errorText := Some (errorMessage e) |}.

(** [audioLength] as recorded in the scene ([audio.duration]): the last
    scene's is extended by [paddingBack / 1000]. *)
Definition recordedDuration (index n : nat) (config : RenderConfig)
    (audioLength : Q) : Q :=
  if bool_decide (index + 1 = n) && Timeline.truthy (paddingBack config)
  then (audioLength + Timeline.nullish (paddingBack config) 0 / 1000)%Q
  else audioLength.

(** *** The creator as a transition system *)

(** A [createShort] call in flight: the job it was started for and the
    steps it still has to take. *)
Record Worker := { job : nat; rest : list Action }.

(** The creator's queue, the [createShort] calls in flight, the next id
    [cuid()] issues, the temp files written so far (see [effect]), the
    video directory, and the tracker. *)
Record State := {
  queue : list Job;
  running : list Worker;
  nextId : nat;
  tempDir : list TempFile;
  videosDir : list nat;
  tracker : Tracker
}.

Definition boot : State :=
  {| queue := []; running := []; nextId := 0; tempDir := [];
     videosDir := []; tracker := emptyTracker |}.

Inductive VideoStatus := processing | ready | failed.

(** [fs.existsSync(this.getVideoPath(id))] *)
Definition existsSync (s : State) (videoId : nat) : bool :=
  bool_decide (videoId ∈ videosDir s).

(** [status(id)] *)
Definition status (s : State) (videoId : nat) : VideoStatus :=
  match find (fun item => bool_decide (id item = videoId)) (queue s) with
  | Some _ => processing
  | None => if existsSync s videoId then ready else failed
  end.

(** [processQueue()] up to its [await]: nothing on an empty queue,
    otherwise a [createShort] call for the head. *)
Definition processQueue (w : World) (s : State) : State :=
  match queue s with
  | [] => s
  | j :: _ =>
    {| queue := queue s;
       running := running s ++ [{| job := id j; rest := createShort w j |}];
       nextId := nextId s; tempDir := tempDir s; videosDir := videosDir s;
       tracker := tracker s |}
  end.

(** [addToQueue(sceneInput, config)] *)
Definition addToQueue (w : World) (sceneInput : list SceneInput)
    (config : RenderConfig) (s : State) : State :=
  let item := {| sceneInput := sceneInput; config := config;
                 id := nextId s |} in
  let s := {| queue := queue s ++ [item]; running := running s;
              nextId := S (nextId s); tempDir := tempDir s;
              videosDir := videosDir s; tracker := tracker s |} in
  if length (queue s) =? 1 then processQueue w s else s.

(** What a call that returns leaves on disk: the output file it was asked
    to write, or the rendered video. What a call leaves behind when it
    throws (the write stream of a download is opened before the request and
    stays on an answer other than 200) and the intermediate files of
    [dynamicCrop] are not tracked: [tempDir] holds the registered outputs
    of the calls that returned, a part of the directory. *)
Definition effect (videoId : nat) (c : ExtCall) (s : State) : State :=
  let temp k i := {| owner := videoId; sceneIndex := i; kind := k |} in
  let withTemp d :=
    {| queue := queue s; running := running s; nextId := nextId s;
       tempDir := d; videosDir := videosDir s; tracker := tracker s |} in
  match c with
  | saveNormalizedAudio i => withTemp (tempDir s ++ [temp wav i])
  | saveToMp3 i => withTemp (tempDir s ++ [temp mp3 i])
  | storeVeniceVideo i | dynamicCrop i | downloadVideo i =>
    withTemp (tempDir s ++ [temp mp4 i])
  | removeSync f => withTemp (filter (fun g => g <> f) (tempDir s))
  | render =>
    {| queue := queue s; running := running s; nextId := nextId s;
       tempDir := tempDir s; videosDir := videosDir s ++ [videoId];
       tracker := tracker s |}
  | _ => s
  end.

Definition withTracker (t : Tracker) (s : State) : State :=
  {| queue := queue s; running := running s; nextId := nextId s;
     tempDir := tempDir s; videosDir := videosDir s; tracker := t |}.

Definition withRunning (r : list Worker) (s : State) : State :=
  {| queue := queue s; running := r; nextId := nextId s;
     tempDir := tempDir s; videosDir := videosDir s; tracker := tracker s |}.

(** The [finally] block of [processQueue]: [queue.shift()], then
    [processQueue()] again. The call whose [createShort] settled is the
    [k]-th in flight and is over. *)
Definition finally (w : World) (k : nat) (s : State) : State :=
  processQueue w
    {| queue := tail (queue s); running := delete k (running s);
       nextId := nextId s; tempDir := tempDir s; videosDir := videosDir s;
       tracker := tracker s |}.

(** The [k]-th call in flight takes its next step: it sends an event, or a
    collaborator call settles; when the call throws, or when no step is
    left, [processQueue] resumes in its [catch]/[finally]. *)
Definition resume (w : World) (k : nat) (s : State) : State :=
  match running s !! k with
  | None => s
  | Some wk =>
    match rest wk with
    | [] => finally w k s
    | a :: more =>
      let continue s :=
        withRunning (<[k := {| job := job wk; rest := more |}]> (running s)) s
      in
      match a with
      | Emit ev => continue (withTracker (updateProgress ev (tracker s)) s)
      | CallCaught _ => continue s
      | Call c =>
        match outcome w (job wk) c with
        | None => continue (effect (job wk) c s)
        | Some e =>
          finally w k
            (withTracker (updateProgress (failedEvent (job wk) e) (tracker s))
                         s)
        end
      end
    end
  end.

(** [deleteVideo(videoId)] *)
Definition deleteVideo (videoId : nat) (s : State) : State :=
  {| queue := queue s; running := running s; nextId := nextId s;
     tempDir := tempDir s;
     videosDir := filter (fun v => v <> videoId) (videosDir s);
     tracker := tracker s |}.

(** What can happen next: a request arrives, a call in flight resumes, a
    subscriber connects or leaves, a timer fires. *)
Inductive Label :=
| Submit (sceneInput : list SceneInput) (config : RenderConfig)
| Resume (k : nat)
| Connect (videoId res : nat)
| Close (videoId res : nat)
| Heartbeat (res : nat)
| Timer (k : nat)
| Delete (videoId : nat).

Definition step (w : World) (s : State) (l : Label) : State :=
  match l with
  | Submit sceneInput config => addToQueue w sceneInput config s
  | Resume k => resume w k s
  | Connect videoId res => withTracker (addConnection videoId res (tracker s)) s
  | Close videoId res => withTracker (onClose videoId res (tracker s)) s
  | Heartbeat res => withTracker (heartbeat res (tracker s)) s
  | Timer k => withTracker (fireTimer k (tracker s)) s
  | Delete videoId => deleteVideo videoId s
  end.

Definition run (w : World) (ls : list Label) (s : State) : State :=
  foldl (step w) s ls.

(** The events sent so far, and what was written to one response. *)
Definition events (s : State) : list ProgressEvent := emitted (tracker s).

Definition writtenTo (res : nat) (t : Tracker) : list Chunk :=
  default [] (written t !! res).

(** *** One job on its own *)

(** The events a [createShort] call sends from its steps [actions] on,
    together with the event of the [catch] block when a call throws. *)
Fixpoint perform (w : World) (videoId : nat) (actions : list Action)
    : list ProgressEvent :=
  match actions with
  | [] => []
  | Emit ev :: more => ev :: perform w videoId more
  | CallCaught _ :: more => perform w videoId more
  | Call c :: more =>
    match outcome w videoId c with
    | None => perform w videoId more
    | Some e => [failedEvent videoId e]
    end
  end.

Definition jobEvents (w : World) (j : Job) : list ProgressEvent :=
  perform w (id j) (createShort w j).

(** No call among [actions] throws. *)
Definition returns (w : World) (videoId : nat) (actions : list Action)
    : bool :=
  forallb (fun a => match a with
                    | Call c => bool_decide (outcome w videoId c = None)
                    | _ => true
                    end) actions.

(** The events among [actions], in order. *)
Definition emits (actions : list Action) : list ProgressEvent :=
  omap (fun a => match a with Emit ev => Some ev | _ => None end) actions.

(** Every event among [actions] is about the video [v]. *)
Definition emitsOnly (v : nat) (actions : list Action) : Prop :=
  forall ev, In (Emit ev) actions -> videoId ev = v.

(** The job's [createShort] call returns. *)
Definition succeeds (w : World) (j : Job) : bool :=
  returns w (id j) (createShort w j).

(** The stages of a job of [n] scenes whose [createShort] returns. *)
Definition successStages (n : nat) : list Stage :=
  [queued]
  ++ concat (replicate n [generating_audio; transcribing; fetching_videos])
  ++ [composing; rendering; complete].

(** A stage list never steps back in the order of [stageRank]. *)
Definition nondecreasing (l : list Stage) : Prop :=
  forall i a b, l !! i = Some a -> l !! S i = Some b ->
                stageRank a <= stageRank b.

(** The jobs a run of labels submits, numbered from [n] on. *)
Definition submitted (n : nat) (l : Label) : list Job :=
  match l with
  | Submit sceneInput config =>
    [{| sceneInput := sceneInput; config := config; id := n |}]
  | _ => []
  end.

Fixpoint history (n : nat) (ls : list Label) : list Job :=
  match ls with
  | [] => []
  | l :: ls => submitted n l ++ history (n + length (submitted n l)) ls
  end.

(** How the state hangs together after the jobs [H] were submitted: the
    queue is a tail of [H]; nothing is in flight on an empty queue, and
    otherwise exactly one [createShort] call, for the head of the queue;
    the events sent are those of the jobs before the head, job by job,
    followed by what the call in flight sent so far. *)
Definition coherent (w : World) (H : list Job) (s : State) : Prop :=
  nextId s = length H
  /\ (forall k j, H !! k = Some j -> id j = k)
  /\ exists f,
       queue s = drop f H /\ f <= length H
       /\ match queue s with
          | [] => running s = []
                  /\ events s = flat_map (jobEvents w) (take f H)
          | j :: _ =>
            exists sent acts,
              running s = [{| job := id j; rest := acts |}]
              /\ events s = flat_map (jobEvents w) (take f H) ++ sent
              /\ sent ++ perform w (id j) acts = jobEvents w j
          end.

(** Jobs are served first in, first out: whenever an event of a job is
    sent, every job with a smaller id has sent a terminal event before. *)
Definition fifo (tr : list ProgressEvent) : Prop :=
  forall i ev, tr !! i = Some ev ->
    forall a, a < videoId ev ->
      exists i' ev', i' < i /\ tr !! i' = Some ev'
                     /\ videoId ev' = a /\ terminal (stage ev') = true.

(** The writes to [res] in [t'] continue those in [t]. *)
Definition continues (res : nat) (t t' : Tracker) : Prop :=
  exists more, writtenTo res t' = writtenTo res t ++ more.

(** Sample worlds and jobs. *)
Definition calm : World :=
  {| veniceVideo := false; outcome := fun _ _ => None;
     movieDuration := fun _ => 0%Q |}.

(** The world in which the transcription of the first job's scene [index]
    throws [msg], and every other call returns. *)
Definition whisperFails (index : nat) (msg : string) : World :=
  {| veniceVideo := false;
     outcome := fun videoId c =>
       match videoId, c with
       | 0, CreateCaption i =>
         if decide (i = index) then Some (ErrorObject msg) else None
       | _, _ => None
       end;
     movieDuration := fun _ => 0%Q |}.

(** The world in which exactly the call [c] throws, for every job. *)
Definition failsAt (c : ExtCall) : World :=
  {| veniceVideo := false;
     outcome := fun _ c' =>
       if decide (c' = c) then Some (ErrorObject "boom") else None;
     movieDuration := fun _ => 0%Q |}.

Definition plexConfig : RenderConfig :=
  {| paddingBack := None; videoSource := Some plex;
     plexMovieId := Some "42" |}.

Definition plainConfig : RenderConfig :=
  {| paddingBack := None; videoSource := None; plexMovieId := None |}.

Definition scenesOf (n : nat) : list SceneInput :=
  replicate n {| sceneText := "hello"; searchTerms := ["sky"] |}.

Definition jobOf (n : nat) (config : RenderConfig) : Job :=
  {| sceneInput := scenesOf n; config := config; id := 0 |}.

(** A call after which a failure leaves [st] as the last stage sent before
    the [error] event, and a job to observe it on. *)
Definition failingCallAfter (st : Stage) : ExtCall :=
  match st with
  | queued => getVideoDuration
  | generating_audio => ttsGenerate 0
  | transcribing => CreateCaption 0
  | fetching_videos => findVideo 0
  | composing => musicList
  | rendering => render
  | _ => removeSync {| owner := 0; sceneIndex := 0; kind := wav |}
  end.

Definition jobFailingAfter (st : Stage) : Job :=
  match st with
  | queued => jobOf 1 plexConfig
  | _ => jobOf 1 plainConfig
  end.

(** *** The rest of the tracker *)

(** [getActiveVideos()]: the keys of the map (as a set; the insertion
    order of the keys is not modelled). *)
Definition getActiveVideos (t : Tracker) : gset nat := dom (connections t).

(** [closeConnections(videoId)] *)
Definition closeConnections (videoId : nat) (t : Tracker) : Tracker :=
  cleanup videoId t.

(** [closeAll()] *)
Definition closeAll (t : Tracker) : Tracker :=
  {| connections := ∅;
     written := written t;
     ended := list_to_set (concat (snd <$> map_to_list (connections t)))
              ∪ ended t;
     heartbeats := heartbeats t; timers := timers t; emitted := emitted t |}.

(** The responses registered under a video id. *)
Definition subscribers (videoId : nat) (t : Tracker) : list nat :=
  default [] (connections t !! videoId).

(** How often [res] occurs in a list of responses. *)
Definition occurrences (res : nat) (l : list nat) : nat :=
  length (filter (fun r => r = res) l).

(** What the tracker's methods and callbacks do to it. *)
Inductive TrackerOp :=
| OpAdd (videoId res : nat)
| OpClose (videoId res : nat)
| OpHeartbeat (res : nat)
| OpUpdate (event : ProgressEvent)
| OpTimer (k : nat)
| OpCloseConnections (videoId : nat)
| OpCloseAll.

Definition applyOp (t : Tracker) (op : TrackerOp) : Tracker :=
  match op with
  | OpAdd videoId res => addConnection videoId res t
  | OpClose videoId res => onClose videoId res t
  | OpHeartbeat res => heartbeat res t
  | OpUpdate event => updateProgress event t
  | OpTimer k => fireTimer k t
  | OpCloseConnections videoId => closeConnections videoId t
  | OpCloseAll => closeAll t
  end.

(** No key of the map holds an empty list. *)
Definition noEmptyEntry (t : Tracker) : Prop :=
  forall videoId conns, connections t !! videoId = Some conns -> conns <> [].

(** [res] is registered exactly once, under [videoId], and is open. *)
Definition subscribed (videoId res : nat) (t : Tracker) : Prop :=
  occurrences res (subscribers videoId t) = 1
  /\ (forall v, v <> videoId -> occurrences res (subscribers v t) = 0)
  /\ res ∉ ended t.

(** [res] is a response object the tracker has not seen. *)
Definition unseen (res : nat) (t : Tracker) : Prop :=
  (forall v, occurrences res (subscribers v t) = 0)
  /\ (res ∉ ended t) /\ (written t !! res = None).

(** The events among the chunks written to a response. *)
Definition dataOf (chunks : list Chunk) : list ProgressEvent :=
  omap (fun c => match c with Data ev => Some ev | _ => None end) chunks.

(** What one change of the tracker means for an open subscriber of [v]:
    it stays one, and the events of [v] sent meanwhile are written to it. *)
Definition delivered (v res : nat) (t t' : Tracker) : Prop :=
  subscribed v res t'
  /\ exists new,
       emitted t' = emitted t ++ new
       /\ dataOf (writtenTo res t')
          = dataOf (writtenTo res t) ++ filter (fun ev => videoId ev = v) new.

(** With the tracker in the state [t], the label neither closes [res] nor
    registers it again, and it is not the pending clean-up timer of the
    video [v]. A timer that is not pending, or that cleans up after
    another video, is allowed. *)
Definition spares (v res : nat) (t : Tracker) (l : Label) : Prop :=
  match l with
  | Connect _ r | Close _ r => r <> res
  | Timer k => timers t !! k <> Some v
  | _ => True
  end.

(** Every label of the run spares [res], in the state in which it is
    taken. *)
Fixpoint keptOpen (w : World) (v res : nat) (ls : list Label) (s : State)
    : Prop :=
  match ls with
  | [] => True
  | l :: ls => spares v res (tracker s) l /\ keptOpen w v res ls (step w s l)
  end.

(** *** The rest of the creator *)



(** [totalDuration] at the call of [remotion.render], from the lengths the
    speech service returned for the scenes. *)
Definition totalDuration (config : RenderConfig) (audioLengths : list Q)
    : Q :=
  let n := length audioLengths in
  let total :=
    foldl (fun total d => (total + d)%Q) 0%Q
          (imap (fun index d => recordedDuration index n config d)
                audioLengths) in
  if Timeline.truthy (paddingBack config)
  then (total + Timeline.nullish (paddingBack config) 0 / 1000)%Q
  else total.

(** The scenes [createShort] hands to the composition, reduced to their
    audio durations. *)
Definition recordedScenes (config : RenderConfig) (audioLengths : list Q)
    : list Timeline.Scene :=
  imap (fun index d =>
          Timeline.sceneOf
            (recordedDuration index (length audioLengths) config d))
       audioLengths.

(** [config.durationMs] as [createShort] hands it to [remotion.render]. *)
Definition durationMs (config : RenderConfig) (audioLengths : list Q) : Q :=
  (totalDuration config audioLengths * 1000)%Q.

End Creator.

(* ===================================================================== *)
(** ** Effects: the other helpers of [LandscapeVideo]                     *)
(* ===================================================================== *)

Module Effects.

Import Timeline.
#[local] Open Scope Q_scope.

Inductive CaptionAnimationEnum := noAnimation | fadeIn | slideUp | scale.

(** The fields of [config] read by the two helpers below. *)
Record EffectsConfig := {
  kenBurnsEffect : option bool;
  captionAnimation : option CaptionAnimationEnum
}.

(** [scale(s) translate(x%, y%)] *)
Record Transform := { scaleBy : Q; translateXBy : Q; translateYBy : Q }.

(** [getKenBurnsStyle(sceneFrame, sceneDuration)]: [Some None] is the empty
    style [{}]; the outer [None] stands for a throwing [interpolate]. The
    quotient is that of the source for [sceneDuration] other than 0, where
    JavaScript's is not a rational. *)
Definition getKenBurnsStyle (config : EffectsConfig)
    (sceneFrame sceneDuration : Q) : option (option Transform) :=
  let kenBurnsEnabled := nullish (kenBurnsEffect config) false in
  if negb kenBurnsEnabled then Some None
  else
    let progress := sceneFrame / sceneDuration in
    scale ← interpolate progress (0, 1) (1, 12 # 10) extend extend;
    translateX ← interpolate progress (0, 1) (0, -10) extend extend;
    translateY ← interpolate progress (0, 1) (0, -10) extend extend;
    Some (Some {| scaleBy := scale; translateXBy := translateX;
                  translateYBy := translateY |}).

(** What [getCaptionAnimationStyle] returns. *)
Inductive CaptionStyle :=
| Plain
| Opacity (o : Q)
| TranslateY (px : Q)
| Scale (s : Q).

(** [getCaptionAnimationStyle(pageFrame)]; [spring frame fps] is Remotion's
    [spring] with the damping, stiffness and mass of the source. *)
Definition getCaptionAnimationStyle (spring : Q -> Q -> Q)
    (config : EffectsConfig) (fps pageFrame : Q) : option CaptionStyle :=
  let animationDuration := 15 in
  match nullish (captionAnimation config) noAnimation with
  | noAnimation => Some Plain
  | fadeIn =>
    opacity ← interpolate pageFrame (0, animationDuration) (0, 1)
                extend clamp;
    Some (Opacity opacity)
  | slideUp =>
    translateY ← interpolate pageFrame (0, animationDuration) (50, 0)
                   extend clamp;
    Some (TranslateY translateY)
  | scale => Some (Scale (spring pageFrame fps))
  end.

End Effects.

(* ===================================================================== *)
(** ** Wav: [VeniceAI.parseWavDuration]                                   *)
(* ===================================================================== *)

Module Wav.

(** A JavaScript number that may come out of a division. *)
Inductive Number := Num (q : Q) | Infinity | NaN.

(** [a / b] on two unsigned integers. *)
Definition divide (a b : N) : Number :=
  if (b =? 0)%N then (if (a =? 0)%N then NaN else Infinity)
  else Num (inject_Z (Z.of_N a) / inject_Z (Z.of_N b))%Q.

(** [buffer.readUInt32LE(offset)]; [None] is the [RangeError] of a read
    that does not fit into the buffer. *)
Definition readUInt32LE (buffer : list byte) (offset : nat) : option N :=
  match buffer !! offset, buffer !! (offset + 1),
        buffer !! (offset + 2), buffer !! (offset + 3) with
  | Some b0, Some b1, Some b2, Some b3 =>
    Some (Byte.to_N b0 + 256 * Byte.to_N b1 + 65536 * Byte.to_N b2
          + 16777216 * Byte.to_N b3)%N
  | _, _, _, _ => None
  end.

(** [buffer.toString('ascii', start, end)]: the bytes in range, each with
    its highest bit cleared. *)
Definition toAscii (buffer : list byte) (start end_ : nat) : string :=
  String.string_of_list_ascii
    ((fun b => ascii_of_N (N.land (Byte.to_N b) 127))
       <$> take (end_ - start) (drop start buffer)).

(** How the search for the [data] chunk ends. *)
Inductive Scan :=
| Found (chunkSize sampleRate byteRate : N)
| NoData
| Threw
| OutOfFuel.

(** The [while (dataChunkOffset < buffer.length - 8)] loop; every turn
    uses one unit of [fuel]. *)
Fixpoint findData (fuel : nat) (buffer : list byte) (dataChunkOffset : nat)
    : Scan :=
  if (Z.of_nat dataChunkOffset <? Z.of_nat (length buffer) - 8)%Z then
    match fuel with
    | 0 => OutOfFuel
    | S fuel =>
      let chunkId := toAscii buffer dataChunkOffset (dataChunkOffset + 4) in
      match readUInt32LE buffer (dataChunkOffset + 4) with
      | None => Threw
      | Some chunkSize =>
        if String.eqb chunkId "data" then
          match readUInt32LE buffer 24, readUInt32LE buffer 28 with
          | Some sampleRate, Some byteRate =>
            Found chunkSize sampleRate byteRate
          | _, _ => Threw
          end
        else findData fuel buffer (dataChunkOffset + 8 + N.to_nat chunkSize)
      end
    end
  else NoData.

(** [wavBuffer.byteLength / 15], the estimation used as a fallback. *)
Definition estimate (buffer : list byte) : Number :=
  Num (inject_Z (Z.of_nat (length buffer)) / 15)%Q.

(** [parseWavDuration(wavBuffer)], in seconds; [None] only if the fuel
    (one unit per byte of the buffer) did not suffice for the loop. *)
Definition parseWavDuration (wavBuffer : list byte) : option Number :=
  match findData (length wavBuffer) wavBuffer 36 with
  | Found chunkSize _ byteRate => Some (divide chunkSize byteRate)
  | NoData => Some (estimate wavBuffer)
  | Threw => Some (estimate wavBuffer)
  | OutOfFuel => None
  end.

(** Writing WAV files, to read them back: a 32-bit little-endian field, a
    chunk, and a file whose bytes 24-31 hold the sample rate and the byte
    rate and whose chunks start at byte 36. *)
Definition byteOf (n : N) : byte :=
  default x00 (Byte.of_N (n mod 256)).

Definition le32 (n : N) : list byte :=
  [byteOf n; byteOf (n / 256); byteOf (n / 65536); byteOf (n / 16777216)].

Record Chunk := { chunkId : list byte; declaredSize : N; body : list byte }.

Definition encodeChunk (c : Chunk) : list byte :=
  chunkId c ++ le32 (declaredSize c) ++ body c.

(** A chunk as a writer lays it out: a four-byte id that does not read as
    [data], and a size field that counts the bytes of the body. *)
Definition skippable (c : Chunk) : Prop :=
  length (chunkId c) = 4
  /\ String.eqb (toAscii (chunkId c) 0 4) "data" = false
  /\ declaredSize c = N.of_nat (length (body c))
  /\ (declaredSize c < 4294967296)%N.

Definition dataId : list byte := [x64; x61; x74; x61].

Definition wavFile (front : list byte) (sampleRate byteRate : N)
    (tail4 : list byte) (chunks : list Chunk) (dataSize : N)
    (samples : list byte) : list byte :=
  front ++ le32 sampleRate ++ le32 byteRate ++ tail4
  ++ concat (encodeChunk <$> chunks)
  ++ dataId ++ le32 dataSize ++ samples.

End Wav.

(* ===================================================================== *)
(** ** Settings: [SettingsManager] and its REST routes                    *)
(* ===================================================================== *)

Module Settings.

(** A property of a JavaScript object: missing, present with the value
    [undefined], or present with a value. *)
Inductive Field (A : Type) : Type :=
| Absent
| Undefined
| Defined (a : A).
Arguments Absent {A}.
Arguments Undefined {A}.
Arguments Defined {A} a.

Inductive TtsProvider := kokoro | veniceTts.
Inductive TranscriptionProvider := whisper | veniceTranscription.

#[global] Instance TtsProvider_eq_dec : EqDecision TtsProvider.
Proof. solve_decision. Defined.
#[global] Instance TranscriptionProvider_eq_dec :
  EqDecision TranscriptionProvider.
Proof. solve_decision. Defined.

(** [AppSettings]. *)
Record AppSettings := {
  veniceApiKey : Field string;
  veniceChatModel : Field string;
  ttsProvider : Field TtsProvider;
  transcriptionProvider : Field TranscriptionProvider;
  ttsSpeed : Field Q;
  pexelsApiKey : Field string
}.

(** [{}]. *)
Definition noSettings : AppSettings :=
  {| veniceApiKey := Absent; veniceChatModel := Absent;
     ttsProvider := Absent; transcriptionProvider := Absent;
     ttsSpeed := Absent; pexelsApiKey := Absent |}.

(** One property of [{...a, ...b}]: [b]'s if [b] has it, even when its
    value there is [undefined]. *)
Definition over {A} (a b : Field A) : Field A :=
  match b with
  | Absent => a
  | _ => b
  end.

(** [{...a, ...b}]. *)
Definition spread (a b : AppSettings) : AppSettings :=
  {| veniceApiKey := over (veniceApiKey a) (veniceApiKey b);
     veniceChatModel := over (veniceChatModel a) (veniceChatModel b);
     ttsProvider := over (ttsProvider a) (ttsProvider b);
     transcriptionProvider :=
       over (transcriptionProvider a) (transcriptionProvider b);
     ttsSpeed := over (ttsSpeed a) (ttsSpeed b);
     pexelsApiKey := over (pexelsApiKey a) (pexelsApiKey b) |}.

(** The fields of [Config] the manager reads and writes; [None] is
    [undefined]. *)
Record Config := {
  configVeniceApiKey : option string;
  configVeniceChatModel : option string;
  configTtsProvider : option TtsProvider;
  configTranscriptionProvider : option TranscriptionProvider;
  configPexelsApiKey : option string
}.

(** A property written from a value that may be [undefined]. *)
Definition ofOption {A} (x : option A) : Field A :=
  match x with
  | Some v => Defined v
  | None => Undefined
  end.

(** [if (x !== undefined) { config.f = x; }] *)
Definition assign {A} (x : Field A) (old : option A) : option A :=
  match x with
  | Defined v => Some v
  | _ => old
  end.

(** The five assignments of [applySettingsToConfig] and of
    [updateSettings], from the settings [from]. *)
Definition applyToConfig (from : AppSettings) (config : Config) : Config :=
  {| configVeniceApiKey :=
       assign (veniceApiKey from) (configVeniceApiKey config);
     configVeniceChatModel :=
       assign (veniceChatModel from) (configVeniceChatModel config);
     configTtsProvider := assign (ttsProvider from) (configTtsProvider config);
     configTranscriptionProvider :=
       assign (transcriptionProvider from)
              (configTranscriptionProvider config);
     configPexelsApiKey :=
       assign (pexelsApiKey from) (configPexelsApiKey config) |}.

(** [settings.json]: not there, not readable as JSON, or an object. *)
Inductive File :=
| Missing
| Unreadable
| Json (content : AppSettings).

(** The manager: its settings, the shared [Config] and the file. *)
Record Manager := {
  settings : AppSettings;
  config : Config;
  file : File
}.

(** [JSON.stringify] leaves out the properties whose value is
    [undefined]. *)
Definition dropUndefined {A} (f : Field A) : Field A :=
  match f with
  | Undefined => Absent
  | _ => f
  end.

Definition stringify (s : AppSettings) : AppSettings :=
  {| veniceApiKey := dropUndefined (veniceApiKey s);
     veniceChatModel := dropUndefined (veniceChatModel s);
     ttsProvider := dropUndefined (ttsProvider s);
     transcriptionProvider := dropUndefined (transcriptionProvider s);
     ttsSpeed := dropUndefined (ttsSpeed s);
     pexelsApiKey := dropUndefined (pexelsApiKey s) |}.

(** [saveSettings]; [writable = false] is a [writeFileSync] that throws,
    which is logged and swallowed. *)
Definition saveSettings (writable : bool) (m : Manager) : Manager :=
  if writable
  then {| settings := settings m; config := config m;
          file := Json (stringify (settings m)) |}
  else m.

Definition applySettingsToConfig (m : Manager) : Manager :=
  {| settings := settings m;
     config := applyToConfig (settings m) (config m);
     file := file m |}.

(** [loadSettings], as the constructor calls it on a manager whose
    settings are [{}]. *)
Definition loadSettings (writable : bool) (m : Manager) : Manager :=
  match file m with
  | Json content =>
      applySettingsToConfig
        {| settings := content; config := config m; file := file m |}
  | Missing =>
      saveSettings writable
        {| settings :=
             {| veniceApiKey := ofOption (configVeniceApiKey (config m));
                veniceChatModel :=
                  ofOption (configVeniceChatModel (config m));
                ttsProvider := ofOption (configTtsProvider (config m));
                transcriptionProvider :=
                  ofOption (configTranscriptionProvider (config m));
                ttsSpeed := Absent;
                pexelsApiKey := ofOption (configPexelsApiKey (config m)) |};
           config := config m; file := file m |}
  | Unreadable =>
      {| settings := noSettings; config := config m; file := file m |}
  end.

(** [new SettingsManager(config)]. *)
Definition construct (writable : bool) (config : Config) (file : File)
    : Manager :=
  loadSettings writable
    {| settings := noSettings; config := config; file := file |}.

(** Truthiness of a string property. *)
Definition truthy (f : Field string) : bool :=
  match f with
  | Defined v => negb (String.eqb v EmptyString)
  | _ => false
  end.

(** [key ? '***' : undefined] *)
Definition mask (f : Field string) : Field string :=
  if truthy f then Defined "***" else Undefined.

(** [getSettings(includeSensitive)]. *)
Definition getSettings (includeSensitive : bool) (m : Manager)
    : AppSettings :=
  if includeSensitive then settings m
  else {| veniceApiKey := mask (veniceApiKey (settings m));
          veniceChatModel := veniceChatModel (settings m);
          ttsProvider := ttsProvider (settings m);
          transcriptionProvider := transcriptionProvider (settings m);
          ttsSpeed := ttsSpeed (settings m);
          pexelsApiKey := mask (pexelsApiKey (settings m)) |}.

(** [updateSettings(newSettings)]: the manager afterwards and the value
    returned. *)
Definition updateSettings (writable : bool) (newSettings : AppSettings)
    (m : Manager) : Manager * AppSettings :=
  let m1 :=
    saveSettings writable
      {| settings := spread (settings m) newSettings;
         config := config m; file := file m |} in
  let m2 :=
    {| settings := settings m1;
       config := applyToConfig newSettings (config m1);
       file := file m1 |} in
  (m2, getSettings false m2).

(** [getSetting(key)], one function per key. *)
Definition getSetting {A} (key : AppSettings -> Field A) (m : Manager)
    : Field A := key (settings m).

(** A call [setSetting(key, value)]; [None] is the value [undefined]. *)
Inductive Assignment :=
| SetVeniceApiKey (value : option string)
| SetVeniceChatModel (value : option string)
| SetTtsProvider (value : option TtsProvider)
| SetTranscriptionProvider (value : option TranscriptionProvider)
| SetTtsSpeed (value : option Q)
| SetPexelsApiKey (value : option string).

(** [this.settings[key] = value] *)
Definition store (a : Assignment) (s : AppSettings) : AppSettings :=
  match a with
  | SetVeniceApiKey value =>
      {| veniceApiKey := ofOption value;
         veniceChatModel := veniceChatModel s;
         ttsProvider := ttsProvider s;
         transcriptionProvider := transcriptionProvider s;
         ttsSpeed := ttsSpeed s; pexelsApiKey := pexelsApiKey s |}
  | SetVeniceChatModel value =>
      {| veniceApiKey := veniceApiKey s;
         veniceChatModel := ofOption value;
         ttsProvider := ttsProvider s;
         transcriptionProvider := transcriptionProvider s;
         ttsSpeed := ttsSpeed s; pexelsApiKey := pexelsApiKey s |}
  | SetTtsProvider value =>
      {| veniceApiKey := veniceApiKey s;
         veniceChatModel := veniceChatModel s;
         ttsProvider := ofOption value;
         transcriptionProvider := transcriptionProvider s;
         ttsSpeed := ttsSpeed s; pexelsApiKey := pexelsApiKey s |}
  | SetTranscriptionProvider value =>
      {| veniceApiKey := veniceApiKey s;
         veniceChatModel := veniceChatModel s;
         ttsProvider := ttsProvider s;
         transcriptionProvider := ofOption value;
         ttsSpeed := ttsSpeed s; pexelsApiKey := pexelsApiKey s |}
  | SetTtsSpeed value =>
      {| veniceApiKey := veniceApiKey s;
         veniceChatModel := veniceChatModel s;
         ttsProvider := ttsProvider s;
         transcriptionProvider := transcriptionProvider s;
         ttsSpeed := ofOption value; pexelsApiKey := pexelsApiKey s |}
  | SetPexelsApiKey value =>
      {| veniceApiKey := veniceApiKey s;
         veniceChatModel := veniceChatModel s;
         ttsProvider := ttsProvider s;
         transcriptionProvider := transcriptionProvider s;
         ttsSpeed := ttsSpeed s; pexelsApiKey := ofOption value |}
  end.

(** The [if ... else if ...] chain of [setSetting]: the three string
    settings reach the config only when the value is a string, the two
    providers whatever the value is, [ttsSpeed] never. *)
Definition configure (a : Assignment) (c : Config) : Config :=
  match a with
  | SetVeniceApiKey (Some value) =>
      {| configVeniceApiKey := Some value;
         configVeniceChatModel := configVeniceChatModel c;
         configTtsProvider := configTtsProvider c;
         configTranscriptionProvider := configTranscriptionProvider c;
         configPexelsApiKey := configPexelsApiKey c |}
  | SetVeniceChatModel (Some value) =>
      {| configVeniceApiKey := configVeniceApiKey c;
         configVeniceChatModel := Some value;
         configTtsProvider := configTtsProvider c;
         configTranscriptionProvider := configTranscriptionProvider c;
         configPexelsApiKey := configPexelsApiKey c |}
  | SetTtsProvider value =>
      {| configVeniceApiKey := configVeniceApiKey c;
         configVeniceChatModel := configVeniceChatModel c;
         configTtsProvider := value;
         configTranscriptionProvider := configTranscriptionProvider c;
         configPexelsApiKey := configPexelsApiKey c |}
  | SetTranscriptionProvider value =>
      {| configVeniceApiKey := configVeniceApiKey c;
         configVeniceChatModel := configVeniceChatModel c;
         configTtsProvider := configTtsProvider c;
         configTranscriptionProvider := value;
         configPexelsApiKey := configPexelsApiKey c |}
  | SetPexelsApiKey (Some value) =>
      {| configVeniceApiKey := configVeniceApiKey c;
         configVeniceChatModel := configVeniceChatModel c;
         configTtsProvider := configTtsProvider c;
         configTranscriptionProvider := configTranscriptionProvider c;
         configPexelsApiKey := Some value |}
  | _ => c
  end.

(** [setSetting(key, value)]. *)
Definition setSetting (writable : bool) (a : Assignment) (m : Manager)
    : Manager :=
  let m1 :=
    saveSettings writable
      {| settings := store a (settings m); config := config m;
         file := file m |} in
  {| settings := settings m1; config := configure a (config m1);
     file := file m1 |}.

(** [resetSettings()]: the manager afterwards and the value returned. *)
Definition resetSettings (writable : bool) (m : Manager)
    : Manager * AppSettings :=
  let m1 :=
    saveSettings writable
      {| settings :=
           {| veniceApiKey := Absent;
              veniceChatModel := Defined "llama-3.3-70b";
              ttsProvider := Defined kokoro;
              transcriptionProvider := Defined whisper;
              ttsSpeed := Absent;
              pexelsApiKey := Absent |};
         config := config m; file := file m |} in
  (m1, getSettings false m1).

(** *** The REST routes and the settings page *)

(** The two fields of the [VeniceAI] service the routes write. *)
Record VeniceAI := { apiKey : string; defaultChatModel : string }.

(** [setApiKey(apiKey)]; [None] is the [Error] thrown for a key that is
    empty. *)
Definition setApiKey (key : string) (v : VeniceAI) : option VeniceAI :=
  if String.eqb key EmptyString then None
  else Some {| apiKey := key; defaultChatModel := defaultChatModel v |}.

Definition setDefaultChatModel (model : string) (v : VeniceAI) : VeniceAI :=
  {| apiKey := apiKey v; defaultChatModel := model |}.

(** What the router holds: the manager and the speech service, which is
    [Some] when it is an instance of [VeniceAI]. *)
Record Server := {
  settingsManager : Manager;
  ttsService : option VeniceAI
}.

(** A response: status 200 with a body, or status 500. *)
Inductive Response :=
| Ok (body : AppSettings)
| Failed.

(** [res.json(settings)] sends what [JSON.stringify] keeps. *)
Definition json (s : AppSettings) : AppSettings := stringify s.

(** [GET /settings]. *)
Definition getSettingsRoute (srv : Server) : Response :=
  Ok (json (getSettings false (settingsManager srv))).

(** The value of a string property, for the truthy case. *)
Definition valueOf (f : Field string) : string :=
  match f with
  | Defined v => v
  | _ => EmptyString
  end.

(** [PUT /settings] with the parsed body [body]. *)
Definition putSettingsRoute (writable : bool) (body : AppSettings)
    (srv : Server) : Server * Response :=
  let '(m, returned) := updateSettings writable body (settingsManager srv) in
  match ttsService srv with
  | Some v =>
      let keyed :=
        if truthy (veniceApiKey body)
        then setApiKey (valueOf (veniceApiKey body)) v
        else Some v in
      match keyed with
      | Some v1 =>
          let v2 :=
            if truthy (veniceChatModel body)
            then setDefaultChatModel (valueOf (veniceChatModel body)) v1
            else v1 in
          ({| settingsManager := m; ttsService := Some v2 |},
           Ok (json returned))
      | None => ({| settingsManager := m; ttsService := Some v |}, Failed)
      end
  | None => ({| settingsManager := m; ttsService := None |},
             Ok (json returned))
  end.

(** [POST /settings/reset]. *)
Definition resetSettingsRoute (writable : bool) (srv : Server)
    : Server * Response :=
  let '(m, returned) := resetSettings writable (settingsManager srv) in
  ({| settingsManager := m; ttsService := ttsService srv |},
   Ok (json returned)).

(** The settings page: [fetchSettings] keeps the body of [GET /settings]
    as its state ([{}] when the request fails); [handleSave] sends the
    state with [PUT /settings]. *)
Definition fetchSettings (srv : Server) : AppSettings :=
  match getSettingsRoute srv with
  | Ok body => body
  | Failed => noSettings
  end.

Definition handleSave (writable : bool) (page : AppSettings) (srv : Server)
    : Server * Response :=
  putSettingsRoute writable page srv.

(** *** Runs of the manager *)

Inductive Op :=
| Update (writable : bool) (newSettings : AppSettings)
| Assign (writable : bool) (a : Assignment)
| Reset (writable : bool).

Definition applyOp (m : Manager) (op : Op) : Manager :=
  match op with
  | Update writable newSettings => (updateSettings writable newSettings m).1
  | Assign writable a => setSetting writable a m
  | Reset writable => (resetSettings writable m).1
  end.

Definition isReset (op : Op) : bool :=
  match op with
  | Reset _ => true
  | _ => false
  end.

(** The operation's [saveSettings] reaches the file. *)
Definition writes (op : Op) : bool :=
  match op with
  | Update writable _ | Assign writable _ | Reset writable => writable
  end.

(** The config has the value of a setting that has one. *)
Definition follows {A} `{EqDecision A} (f : Field A) (c : option A) : bool :=
  match f with
  | Defined v => bool_decide (c = Some v)
  | _ => true
  end.

Definition configFollows (m : Manager) : bool :=
  follows (veniceApiKey (settings m)) (configVeniceApiKey (config m))
  && follows (veniceChatModel (settings m))
             (configVeniceChatModel (config m))
  && follows (ttsProvider (settings m)) (configTtsProvider (config m))
  && follows (transcriptionProvider (settings m))
             (configTranscriptionProvider (config m))
  && follows (pexelsApiKey (settings m)) (configPexelsApiKey (config m)).

End Settings.

(* ===================================================================== *)
(** ** Whisper: from a transcription to captions                          *)
(* ===================================================================== *)

Module Whisper.
Import Timeline.

(** *** Strings

    A string is modelled by its UTF-8 bytes. The separator and the
    prefixes the code looks for are ASCII, so that splitting and prefix
    tests on the bytes are those on the characters. *)

Definition startsWith (s searchString : string) : bool :=
  String.prefix searchString s.

Definition endsWith (s searchString : string) : bool :=
  String.prefix (String.rev searchString) (String.rev s).

Definition bytes (l : list nat) : string :=
  String.string_of_list_ascii (ascii_of_nat <$> l).

(** The characters [trim] removes: white space and line terminators
    (U+0009 to U+000D, U+0020, U+00A0, U+1680, U+2000 to U+200A, U+2028,
    U+2029, U+202F, U+205F, U+3000, U+FEFF). *)
Definition whiteSpace : list string :=
  bytes <$> [ [9]; [10]; [11]; [12]; [13]; [32]; [194; 160];
              [225; 154; 128];
              [226; 128; 128]; [226; 128; 129]; [226; 128; 130];
              [226; 128; 131]; [226; 128; 132]; [226; 128; 133];
              [226; 128; 134]; [226; 128; 135]; [226; 128; 136];
              [226; 128; 137]; [226; 128; 138];
              [226; 128; 168]; [226; 128; 169]; [226; 128; 175];
              [226; 129; 159]; [227; 128; 128]; [239; 187; 191] ]%nat.

(** [s] without a leading member of [seqs], if it has one. *)
Definition dropOne (seqs : list string) (s : string) : option string :=
  (fun p => String.substring (String.length p)
                             (String.length s - String.length p) s)
    <$> find (fun p => String.prefix p s) seqs.

Fixpoint dropAll (fuel : nat) (seqs : list string) (s : string) : string :=
  match fuel with
  | O => s
  | S fuel =>
      match dropOne seqs s with
      | Some s' => dropAll fuel seqs s'
      | None => s
      end
  end.

Definition trimStart (s : string) : string :=
  dropAll (String.length s) whiteSpace s.

Definition trimEnd (s : string) : string :=
  String.rev (dropAll (String.length s) (String.rev <$> whiteSpace)
                      (String.rev s)).

(** [s.trim()]. *)
Definition trim (s : string) : string := trimEnd (trimStart s).

(** [s.split(' ')]. *)
Fixpoint split (s : string) : list string :=
  match s with
  | EmptyString => [EmptyString]
  | String c rest =>
      if Ascii.eqb c " "
      then EmptyString :: split rest
      else match split rest with
           | w :: ws => String c w :: ws
           | [] => [String c EmptyString]
           end
  end.

(** *** Venice *)

Record VeniceWord := { word : string; wordStart : Q; wordEnd : Q }.
Record VeniceSegment := {
  segmentText : string; segmentStart : Q; segmentEnd : Q
}.

(** [timestamps]; [None] is a property that is missing. *)
Record Timestamps := {
  wordTimestamps : option (list VeniceWord);
  segmentTimestamps : option (list VeniceSegment)
}.

Record VeniceTranscriptionResponse := {
  responseText : string;
  responseDuration : option Q;
  timestamps : option Timestamps
}.

(** [Math.round(x)] as a number. *)
Definition rounded (x : Q) : Q := inject_Z (Math_round x).

(** The index of [forEach] as a number. *)
Definition number (index : nat) : Q := inject_Z (Z.of_nat index).

(** The captions of one segment, when words are not available. *)
Definition segmentCaptions (segment : VeniceSegment) : list Caption :=
  let words := split (trim (segmentText segment)) in
  let duration := (segmentEnd segment - segmentStart segment)%Q in
  let wordDuration := (duration / number (length words))%Q in
  imap (fun index word =>
          {| text := word;
             startMs :=
               rounded ((segmentStart segment + number index * wordDuration)
                        * 1000)%Q;
             endMs :=
               rounded ((segmentStart segment
                         + (number index + 1) * wordDuration) * 1000)%Q |})
       words.

(** The conversion of the response to captions. An array is truthy also
    when it is empty. *)
Definition responseCaptions (data : VeniceTranscriptionResponse)
    : list Caption :=
  match timestamps data ≫= wordTimestamps with
  | Some words =>
      (fun w => {| text := word w;
                   startMs := rounded (wordStart w * 1000)%Q;
                   endMs := rounded (wordEnd w * 1000)%Q |}) <$> words
  | None =>
      match timestamps data ≫= segmentTimestamps with
      | Some segments => flat_map segmentCaptions segments
      | None =>
          [ {| text := responseText data;
               startMs := 0%Q;
               endMs := rounded (nullish (responseDuration data) 0 * 1000)%Q
            |} ]
      end
  end.

Inductive Outcome :=
| Returns (captions : list Caption)
| Throws (message : string).

(** [transcribeWithVenice]: [reply] is the response of the service, [None]
    when reading the file or the request throws. *)
Definition transcribeWithVenice (veniceApiKey : option string)
    (reply : option VeniceTranscriptionResponse) : Outcome :=
  match veniceApiKey with
  | None => Throws "Venice API key is required for Venice transcription"
  | Some key =>
      if String.eqb key EmptyString
      then Throws "Venice API key is required for Venice transcription"
      else match reply with
           | Some data => Returns (responseCaptions data)
           | None => Throws "Failed to transcribe audio with Venice AI"
           end
  end.

(** *** whisper.cpp *)

(** A record of the transcription: [text], [tokens] (of which the text is
    read) and [offsets]. *)
Record Token := { tokenText : string }.
Record TranscriptionRecord := {
  recordText : string;
  tokens : list Token;
  offsetsFrom : Q;
  offsetsTo : Q
}.

(** The body of [record.tokens.forEach]. A merge appends the text of the
    record to the last caption and moves its end. *)
Definition addToken (record : TranscriptionRecord) (captions : list Caption)
    (token : Token) : list Caption :=
  if startsWith (tokenText token) "[_TT" then captions
  else
    match last captions with
    | Some previous =>
        if negb (startsWith (tokenText token) " ")
           && negb (endsWith (text previous) " ")
        then alter (fun c => {| text := text c +:+ recordText record;
                                startMs := startMs c;
                                endMs := offsetsTo record |})
                   (length captions - 1) captions
        else captions ++ [ {| text := tokenText token;
                              startMs := offsetsFrom record;
                              endMs := offsetsTo record |} ]
    | None => captions ++ [ {| text := tokenText token;
                               startMs := offsetsFrom record;
                               endMs := offsetsTo record |} ]
    end.

(** The body of [transcription.forEach]. *)
Definition addRecord (captions : list Caption) (record : TranscriptionRecord)
    : list Caption :=
  if String.eqb (recordText record) EmptyString then captions
  else foldl (addToken record) captions (tokens record).

(** The captions [CreateCaption] builds from the transcription of
    whisper.cpp. *)
Definition localCaptions (transcription : list TranscriptionRecord)
    : list Caption :=
  foldl addRecord [] transcription.

Inductive Provider := whisperCpp | venice.

(** [CreateCaption]: [transcription] is what [transcribe] resolves to,
    [inl] with the error when it rejects. *)
Definition CreateCaption (transcriptionProvider : Provider)
    (veniceApiKey : option string)
    (reply : option VeniceTranscriptionResponse)
    (transcription : string + list TranscriptionRecord) : Outcome :=
  match transcriptionProvider with
  | venice => transcribeWithVenice veniceApiKey reply
  | whisperCpp =>
      match transcription with
      | inr records => Returns (localCaptions records)
      | inl message => Throws message
      end
  end.

(** [R] holds of every two elements that follow each other. *)
Definition adjacent {A} (R : A -> A -> Prop) (l : list A) : Prop :=
  forall i a b, l !! i = Some a -> l !! S i = Some b -> R a b.

(** The records are in time: none ends before it starts, and none starts
    or ends before an earlier one does. *)
Fixpoint ordered (records : list TranscriptionRecord) : Prop :=
  match records with
  | [] => True
  | r :: rest =>
      (offsetsFrom r <= offsetsTo r)%Q
      /\ Forall (fun r' => (offsetsFrom r <= offsetsFrom r')%Q
                           /\ (offsetsTo r <= offsetsTo r')%Q) rest
      /\ ordered rest
  end.

(** Two captions that follow each other are separated by a space. *)
Definition spaced (a b : Caption) : bool :=
  endsWith (text a) " " || startsWith (text b) " ".

(** The captions are in time, and the last one neither starts after
    [from] nor ends after [to]. *)
Definition timed (from to : Q) (captions : list Caption) : Prop :=
  Forall (fun c => (startMs c <= endMs c)%Q) captions
  /\ adjacent (fun a b => (startMs a <= startMs b)%Q
                          /\ (endMs a <= endMs b)%Q) captions
  /\ (forall z, last captions = Some z ->
                (startMs z <= from)%Q /\ (endMs z <= to)%Q).

End Whisper.

(* ===================================================================== *)
(** ** Properties of the timeline                                         *)
(* ===================================================================== *)

Module TimelineProps.
Import Timeline.
#[local] Open Scope Q_scope.

Lemma fold_durations_acc (l : list Scene) (a : Q) :
  fold_left (fun acc curr => acc + duration (audio curr)) l a
  == a + fold_left (fun acc curr => acc + duration (audio curr)) l 0.
Proof.
  revert a. induction l as [|s l IH]; intros a; simpl.
  - ring.
  - rewrite (IH (a + _)), (IH (0 + _)). ring.
Qed.

Lemma sumDurations_step (scenes : list Scene) (i : nat) (s : Scene) :
  scenes !! i = Some s ->
  sumDurations scenes (i + 1) == sumDurations scenes i + duration (audio s).
Proof.
  intros Hs. unfold sumDurations.
  rewrite Nat.add_1_r, (take_S_r _ _ _ Hs), fold_left_app. simpl. reflexivity.
Qed.

(** What the composition computes for scene [i]: the running total up to
    and including the scene, plus the padding on the last scene. *)
Lemma durationInFrames_running_total scenes config fps i s :
  scenes !! i = Some s ->
  durationInFrames scenes config fps i
  == startFrame scenes fps i + audioFrames s fps
     + (if truthy (paddingBack config)
           && (Z.of_nat i =? Z.of_nat (length scenes) - 1)%Z
        then (nullish (paddingBack config) 0 / 1000) * fps else 0).
Proof.
  intros Hs. unfold durationInFrames, startFrame, audioFrames. cbv zeta.
  destruct (_ && _); rewrite (sumDurations_step _ _ _ Hs); ring.
Qed.

(** C1 (evaluation at the failing input): for two scenes of 4 s and 6 s at
    30 fps without padding, scene 1 starts at frame 120 as the claim says,
    but its [durationInFrames] is the running total 300, not its own 180
    frames; the durations of the two sequences add up to 420 frames where
    the audio is 300 frames long. *)
Theorem C1_duration_is_running_total :
  let scenes := [sceneOf 4; sceneOf 6] in
  startFrame scenes 30 1 == 120
  /\ durationInFrames scenes (paddingOnly None) 30 1 == 300
  /\ 30 * sumDurations scenes 2 - startFrame scenes 30 1 == 180
  /\ ~ durationInFrames scenes (paddingOnly None) 30 1
        == 30 * sumDurations scenes 2 - startFrame scenes 30 1
  /\ totalSlotFrames (compose scenes (paddingOnly None) 30) == 420
  /\ Math_round (30 * sumDurations scenes 2) = 300%Z.
Proof.
  cbv zeta. repeat split; try (vm_compute; reflexivity).
  intros H. vm_compute in H. discriminate H.
Qed.

(** C2 (evaluation at the failing input): for scenes of 4 s, 6 s and 2 s at
    30 fps with [paddingBack = 1500], the middle scene is handed 300 frames
    although its audio is 180 frames long, and the last scene is handed 405
    frames, which is 345 and not 45 frames more than its 60 frames of
    audio. *)
Theorem C2_padding_on_running_total :
  let scenes := [sceneOf 4; sceneOf 6; sceneOf 2] in
  let config := paddingOnly (Some 1500) in
  durationInFrames scenes config 30 1 == 300
  /\ audioFrames (sceneOf 6) 30 == 180
  /\ durationInFrames scenes config 30 2 == 405
  /\ audioFrames (sceneOf 2) 30 + 30 * (1500 / 1000) == 105
  /\ ~ durationInFrames scenes config 30 2
        == audioFrames (sceneOf 2) 30 + 30 * (1500 / 1000).
Proof.
  cbv zeta. repeat split; try (vm_compute; reflexivity).
  intros H. vm_compute in H. discriminate H.
Qed.

(** The padding is added twice on the way from [createShort] to the
    composition: a job of one scene whose speech lasts 4 s, with
    [paddingBack = 1500], records an audio duration of 5.5 s, and the
    composition hands the scene 210 frames, 90 more than the 120 frames of
    speech. *)
Example padding_added_twice :
  let config := {| Creator.paddingBack := Some 1500;
                   Creator.videoSource := None;
                   Creator.plexMovieId := None |} in
  let recorded := Creator.recordedDuration 0 1 config 4 in
  recorded == 11 # 2
  /\ durationInFrames [sceneOf recorded] (paddingOnly (Some 1500)) 30 0
     == 4 * 30 + 2 * (30 * (1500 / 1000)).
Proof. split; vm_compute; reflexivity. Qed.

(** *** Comparisons *)

Lemma Qle_bool_false (x y : Q) : Qle_bool x y = false <-> y < x.
Proof.
  rewrite <- not_true_iff_false, Qle_bool_iff. split.
  - apply Qnot_le_lt.
  - apply Qlt_not_le.
Qed.

(** *** The fade *)

Lemma Qltb_true (x y : Q) : Qltb x y = true <-> x < y.
Proof. unfold Qltb. rewrite negb_true_iff. apply Qle_bool_false. Qed.

Lemma Qltb_false (x y : Q) : Qltb x y = false <-> y <= x.
Proof. unfold Qltb. rewrite negb_false_iff. apply Qle_bool_iff. Qed.

Lemma clamp01_below (x : Q) : x <= 0 -> clamp01 x == 0.
Proof.
  intros H. unfold clamp01.
  rewrite (Q.min_r 1 x) by lra. apply Q.max_l. exact H.
Qed.

Lemma clamp01_inside (x : Q) : 0 <= x -> x <= 1 -> clamp01 x == x.
Proof.
  intros H0 H1. unfold clamp01.
  rewrite (Q.min_r 1 x) by exact H1. apply Q.max_r. exact H0.
Qed.

Lemma clamp01_above (x : Q) : 1 <= x -> clamp01 x == 1.
Proof.
  intros H. unfold clamp01.
  rewrite (Q.min_l 1 x) by exact H. apply Q.max_r. lra.
Qed.

Lemma clamp01_range (x : Q) : 0 <= clamp01 x /\ clamp01 x <= 1.
Proof.
  unfold clamp01. split.
  - apply Q.le_max_l.
  - apply Q.max_lub; [lra | apply Q.le_min_l].
Qed.

Lemma div_le_1 (a T : Q) : 0 < T -> (a / T <= 1 <-> a <= T).
Proof.
  intros HT. split; intros H.
  - assert (E : a == (a / T) * T) by (field; lra).
    assert (H' : (a / T) * T <= 1 * T) by (apply Qmult_le_compat_r; lra).
    rewrite <- E, Qmult_1_l in H'. exact H'.
  - apply Qle_shift_div_r; lra.
Qed.

Lemma div_nonneg (a T : Q) : 0 < T -> 0 <= a -> 0 <= a / T.
Proof. intros HT Ha. apply Qle_shift_div_l; lra. Qed.

(** The entry interpolation is the entry ramp on every frame from 0 on. *)
Lemma fadeIn_is_entryRamp (T f : Q) :
  0 < T -> 0 <= f ->
  exists v, interpolate f (0, T) (0, 1) extend clamp = Some v
            /\ v == entryRamp T f.
Proof.
  intros HT Hf. unfold interpolate, entryRamp.
  assert (H1 : Qltb 0 T = true) by (apply Qltb_true; exact HT).
  assert (H2 : Qltb f 0 = false) by (apply Qltb_false; exact Hf).
  rewrite H1, H2. simpl.
  destruct (Qltb T f) eqn:E; simpl.
  - apply Qltb_true in E. eexists; split; [reflexivity|].
    rewrite clamp01_above.
    + field. lra.
    + apply Qle_shift_div_l; lra.
  - apply Qltb_false in E. eexists; split; [reflexivity|].
    rewrite clamp01_inside.
    + field. lra.
    + apply div_nonneg; assumption.
    + apply div_le_1; assumption.
Qed.

(** The exit interpolation is the exit ramp on every frame up to [D]. *)
Lemma fadeOut_is_exitRamp (T D f : Q) :
  0 < T -> f <= D ->
  exists v, interpolate f (D - T, D) (1, 0) clamp extend = Some v
            /\ v == exitRamp T D f.
Proof.
  intros HT Hf. unfold interpolate, exitRamp.
  assert (H1 : Qltb (D - T) D = true) by (apply Qltb_true; lra).
  rewrite H1. simpl. rewrite andb_false_r.
  destruct (Qltb f (D - T)) eqn:E; simpl.
  - apply Qltb_true in E. rewrite andb_false_r.
    eexists; split; [reflexivity|].
    rewrite clamp01_above.
    + field. lra.
    + apply Qle_shift_div_l; lra.
  - apply Qltb_false in E. rewrite andb_false_r.
    eexists; split; [reflexivity|].
    rewrite clamp01_inside.
    + field. lra.
    + apply div_nonneg; lra.
    + apply div_le_1; lra.
Qed.

(** C8: with a positive transition length, at every scene-local frame
    [0 <= f <= D] the fade opacity is the smaller of the entry ramp and the
    exit ramp and lies in [[0,1]]; with transition [none] (or none
    configured) the opacity is 1 at every frame. *)
Theorem C8_fade_opacity (config : Config) (fps f D : Q) :
  (transition config = Some fade ->
   0 < transitionDurationFrames config fps ->
   0 <= f -> f <= D ->
   exists st,
     getTransitionStyle config fps f D = Some st
     /\ opacity st == Qmin (entryRamp (transitionDurationFrames config fps) f)
                            (exitRamp (transitionDurationFrames config fps) D f)
     /\ 0 <= opacity st /\ opacity st <= 1)
  /\ (nullish (transition config) none = none ->
      getTransitionStyle config fps f D
      = Some {| opacity := 1; translateX := None |}).
Proof.
  split.
  - intros Hfade HT Hf0 HfD. unfold getTransitionStyle.
    rewrite Hfade. cbv zeta. cbn [nullish].
    fold (transitionDurationFrames config fps).
    destruct (fadeIn_is_entryRamp _ f HT Hf0) as (a & Ea & Ha).
    destruct (fadeOut_is_exitRamp _ D f HT HfD) as (b & Eb & Hb).
    rewrite Ea, Eb. cbn [mbind option_bind].
    eexists; split; [reflexivity|]. simpl.
    assert (E : Qmin a b
                == Qmin (entryRamp (transitionDurationFrames config fps) f)
                        (exitRamp (transitionDurationFrames config fps) D f)).
    { rewrite Ha, Hb. reflexivity. }
    split; [exact E|]. rewrite E.
    unfold entryRamp, exitRamp.
    pose proof (clamp01_range (f / transitionDurationFrames config fps)).
    pose proof (clamp01_range ((D - f) / transitionDurationFrames config fps)).
    split.
    + apply Q.min_glb; tauto.
    + apply Qle_trans with (clamp01 (f / transitionDurationFrames config fps));
        [apply Q.le_min_l | tauto].
  - intros Hnone. unfold getTransitionStyle. rewrite Hnone. reflexivity.
Qed.

(** C8 at a concrete frame: frame 5 of a 100-frame scene, default
    transition length (500 ms, i.e. 15 frames at 30 fps). *)
Lemma C8_fade_opacity_witness :
  exists st,
    getTransitionStyle
      {| paddingBack := None; transition := Some fade;
         transitionDuration := None |} 30 5 100 = Some st
    /\ opacity st == 1 # 3.
Proof.
  destruct (proj1 (C8_fade_opacity
              {| paddingBack := None; transition := Some fade;
                 transitionDuration := None |} 30 5 100))
    as (st & Est & Hop & _).
  - reflexivity.
  - vm_compute. reflexivity.
  - vm_compute. discriminate.
  - vm_compute. discriminate.
  - exists st. split; [exact Est|]. rewrite Hop. vm_compute. reflexivity.
Defined.

End TimelineProps.

(* ===================================================================== *)
(** ** Properties of the active word                                      *)
(* ===================================================================== *)

Module HighlightProps.
Import SpecFloat Binary64 Highlight.

(** *** The order of numbers *)








End HighlightProps.

(* ===================================================================== *)
(** ** Properties of the caption pages                                    *)
(* ===================================================================== *)

Module CaptionsProps.
Import Captions.

Lemma closeLine_tokens (c : Cursor) :
  concat (texts <$> closeLine c) = pending c.
Proof.
  unfold closeLine, pending. destruct (lineTexts c) as [|t l].
  - by rewrite app_nil_r.
  - rewrite fmap_app, concat_app. simpl. by rewrite app_nil_r.
Qed.

Lemma closeLine_nonempty (c : Cursor) :
  lineTexts c <> [] -> closeLine c <> [].
Proof.
  unfold closeLine. destruct (lineTexts c); [done|].
  intros _. by destruct (pageLines c).
Qed.

Lemma allTokens_snoc (ps : list CaptionPage) (p : CaptionPage) :
  allTokens (ps ++ [p]) = allTokens ps ++ pageTokens p.
Proof.
  unfold allTokens. rewrite fmap_app, concat_app. simpl.
  by rewrite app_nil_r.
Qed.

Lemma bounds_singleton (t : Caption) : bounds (startMs t) (endMs t) [t].
Proof. by split. Qed.

Lemma bounds_snoc (s e : Q) (l : list Caption) (t : Caption) :
  bounds s e l -> bounds s (endMs t) (l ++ [t]).
Proof.
  intros [Hs _]. split.
  - destruct l; [done|]. exact Hs.
  - by rewrite last_snoc.
Qed.

(** Closing the page being filled emits exactly the pending tokens. *)
Lemma closePage_walked (c : Cursor) (seen : list Caption) :
  walked c seen ->
  allTokens (closePage c) = seen /\ Forall pageBounded (closePage c).
Proof.
  intros (Htok & Hok & [[-> ->] | [Hne Hb]]).
  - by split.
  - unfold closePage.
    pose proof (closeLine_nonempty c Hne) as Hcl.
    pose proof (closeLine_tokens c) as Hct.
    destruct (closeLine c) as [|l ls] eqn:E; [done|].
    split.
    + rewrite allTokens_snoc. unfold pageTokens. cbn [lines].
      by rewrite Hct.
    + apply Forall_app. split; [done|].
      constructor; [|done]. unfold pageBounded, pageTokens.
      cbn [lines pageStartMs pageEndMs]. by rewrite Hct.
Qed.

Lemma openPageAt_walked (c : Cursor) (seen : list Caption) (t : Caption) :
  walked c seen -> walked (openPageAt t (closePage c)) (seen ++ [t]).
Proof.
  intros H. destruct (closePage_walked c seen H) as [Htok Hok].
  unfold walked, openPageAt, pending. simpl.
  split; [by rewrite Htok|]. split; [done|].
  right. split; [done|]. apply bounds_singleton.
Qed.

Lemma lineFull_nonempty n c t : lineFull n c t = true -> lineTexts c <> [].
Proof. unfold lineFull. by destruct (lineTexts c). Qed.

Lemma step_walked n k gap (c : Cursor) (seen : list Caption) (t : Caption) :
  walked c seen -> walked (step n k gap c t) (seen ++ [t]).
Proof.
  intros H. unfold step.
  destruct (gapBreak gap c t); [by apply openPageAt_walked|].
  destruct (lineFull n c t) eqn:Efull.
  - destruct (k <=? length (closeLine c)); [by apply openPageAt_walked|].
    destruct H as (Htok & Hok & [[-> ->] | [Hne Hb]]); [done|].
    unfold walked, pending. simpl. rewrite closeLine_tokens.
    split; [by rewrite <- Htok, app_assoc|]. split; [done|].
    right. split; [done|]. exact (bounds_snoc _ _ _ t Hb).
  - destruct H as (Htok & Hok & [[-> ->] | [Hne Hb]]).
    + unfold walked, pending. simpl. split; [done|]. split; [done|].
      right. split; [done|]. apply bounds_singleton.
    + unfold walked, pending. simpl.
      split; [rewrite <- Htok; unfold pending; by rewrite !app_assoc|].
      split; [done|].
      right. split; [by destruct (lineTexts c)|].
      assert (isEmptyPage c = false) as ->.
      { unfold isEmptyPage. destruct (pageLines c); by destruct (lineTexts c). }
      rewrite app_assoc. exact (bounds_snoc _ _ _ t Hb).
      (* the pending tokens gain [t] at their end *)
Qed.

Lemma fold_walked n k gap (tokens : list Caption) :
  forall c seen,
    walked c seen ->
    walked (fold_left (step n k gap) tokens c) (seen ++ tokens).
Proof.
  induction tokens as [|t tokens IH]; intros c seen H; simpl.
  - by rewrite app_nil_r.
  - rewrite (cons_middle t seen tokens), app_assoc.
    apply IH. by apply step_walked.
Qed.

(** C4: the pages returned for any token list hold, line after line and
    page after page, exactly the input tokens in their order; every page is
    bounded by the start of its first and the end of its last token; the
    empty list gives no page. *)
Theorem C4_pages_cover_tokens (captions : list Caption)
    (lineMaxLength lineCount : nat) (maxDistanceMs : Q) :
  allTokens (createCaptionPages captions lineMaxLength lineCount maxDistanceMs)
  = captions
  /\ Forall pageBounded
       (createCaptionPages captions lineMaxLength lineCount maxDistanceMs)
  /\ createCaptionPages [] lineMaxLength lineCount maxDistanceMs = [].
Proof.
  assert (H0 : walked start []).
  { split; [done|]. split; [done|]. by left. }
  pose proof (fold_walked lineMaxLength lineCount maxDistanceMs captions
                start [] H0) as H.
  destruct (closePage_walked _ _ H) as [Htok Hok].
  split; [exact Htok|]. split; [exact Hok|]. reflexivity.
Qed.

(** The two scenarios of the specification: a 200 ms gap under a 1000 ms
    threshold keeps both words on one page of one line; under a 100 ms
    threshold they fall on two pages. *)
Example pages_gap_within_threshold :
  createCaptionPages [word "hi" 0 300; word "there" 500 900] 30 1 1000
  = [{| pageStartMs := 0; pageEndMs := 900;
        lines := [{| texts := [word "hi" 0 300; word "there" 500 900] |}] |}].
Proof. reflexivity. Qed.

Example pages_gap_over_threshold :
  createCaptionPages [word "hi" 0 300; word "there" 500 900] 30 1 100
  = [{| pageStartMs := 0; pageEndMs := 300;
        lines := [{| texts := [word "hi" 0 300] |}] |};
     {| pageStartMs := 500; pageEndMs := 900;
        lines := [{| texts := [word "there" 500 900] |}] |}].
Proof. reflexivity. Qed.

End CaptionsProps.

(* ===================================================================== *)
(** ** Properties of the creator and the tracker                          *)
(* ===================================================================== *)

Module CreatorProps.
Import Creator.

(** *** The tracker only ever appends *)

Lemma emitted_foldl_send (ev : ProgressEvent) (conns : list nat) :
  forall t,
    emitted (foldl (fun t res =>
                      if decide (res ∈ ended t) then t
                      else sendEvent res ev t) t conns)
    = emitted t.
Proof.
  induction conns as [|r conns IH]; intros t; simpl; [done|].
  rewrite IH. by destruct (decide _).
Qed.

Lemma emitted_updateProgress (ev : ProgressEvent) (t : Tracker) :
  emitted (updateProgress ev t) = emitted t ++ [ev].
Proof. unfold updateProgress. simpl. by rewrite emitted_foldl_send. Qed.

Lemma emitted_addConnection videoId res t :
  emitted (addConnection videoId res t) = emitted t.
Proof. done. Qed.

Lemma emitted_onClose videoId res t :
  emitted (onClose videoId res t) = emitted t.
Proof.
  unfold onClose, removeConnection. simpl.
  by destruct (connections t !! videoId).
Qed.

Lemma emitted_heartbeat res t : emitted (heartbeat res t) = emitted t.
Proof. unfold heartbeat. by repeat destruct (decide _). Qed.

Lemma emitted_fireTimer k t : emitted (fireTimer k t) = emitted t.
Proof.
  unfold fireTimer, cleanup. destruct (timers t !! k); [|done]. simpl.
  by destruct (connections t !! _).
Qed.

(** *** The queue invariant *)

#[local] Opaque updateProgress createShort failedEvent.

Lemma coherent_same w H s s' :
  queue s' = queue s -> running s' = running s -> nextId s' = nextId s ->
  events s' = events s ->
  coherent w H s -> coherent w H s'.
Proof.
  unfold coherent. intros -> -> -> ->. done.
Qed.

Lemma coherent_boot w : coherent w [] boot.
Proof.
  split; [done|]. split; [done|]. exists 0. by repeat split.
Qed.

(** The [finally] block after the head's [createShort] call has settled
    and all its events are sent. *)
Lemma finally_coherent w H s f j q wk :
  nextId s = length H ->
  (forall k j, H !! k = Some j -> id j = k) ->
  queue s = j :: q -> drop f H = j :: q ->
  running s = [wk] ->
  events s = flat_map (jobEvents w) (take f H) ++ jobEvents w j ->
  coherent w H (finally w 0 s).
Proof.
  intros Hn Hid Hq Hdrop Hrun Hev.
  assert (Hf : H !! f = Some j).
  { rewrite <- (Nat.add_0_r f), <- lookup_drop, Hdrop. done. }
  assert (Hq' : drop (S f) H = q).
  { rewrite <- Nat.add_1_r, <- drop_drop, Hdrop. done. }
  assert (Hlen : S f <= length H).
  { apply lookup_lt_Some in Hf. lia. }
  assert (Hev' : events s = flat_map (jobEvents w) (take (S f) H)).
  { rewrite (take_S_r _ _ _ Hf), flat_map_app, Hev. simpl.
    by rewrite app_nil_r. }
  unfold finally, processQueue. rewrite Hq, Hrun. simpl.
  destruct q as [|j' q'].
  - split; [done|]. split; [done|]. exists (S f). simpl.
    by repeat split.
  - split; [done|]. split; [done|]. exists (S f). simpl.
    split; [done|]. split; [done|].
    exists [], (createShort w j'). split; [done|].
    split; [by rewrite app_nil_r|done].
Qed.

Lemma step_coherent w H s l :
  coherent w H s -> coherent w (H ++ submitted (length H) l) (step w s l).
Proof.
  intros Hc.
  destruct l as [si cfg|k|v r|v r|r|k|v]; simpl submitted;
    rewrite ?app_nil_r; simpl step.
  - (* Submit *)
    destruct Hc as (Hn & Hid & f & Hq & Hf & Hshape).
    set (item := {| sceneInput := si; config := cfg; id := length H |}).
    assert (Hid' : forall k j, (H ++ [item]) !! k = Some j -> id j = k).
    { intros k j Hk. apply lookup_app_Some in Hk as [Hk | [Hge Hk]].
      - by apply Hid.
      - apply list_lookup_singleton_Some in Hk as [Hk <-]. simpl. lia. }
    unfold addToQueue. rewrite Hn. fold item. simpl.
    rewrite length_app. simpl.
    destruct (queue s) as [|j q] eqn:Eq.
    + destruct Hshape as [Hrun Hev]. simpl.
      unfold processQueue. simpl. rewrite Hrun.
      split; [simpl; rewrite length_app; simpl; lia|]. split; [exact Hid'|].
      exists f. simpl. rewrite drop_app_le by exact Hf. rewrite <- Hq. simpl.
      split; [done|]. split; [rewrite length_app; lia|].
      exists [], (createShort w item). split; [done|].
      rewrite take_app_le by exact Hf. rewrite app_nil_r.
      split; [exact Hev|done].
    + destruct Hshape as (sent & acts & Hrun & Hev & Hsent). simpl.
      replace (length q + 1 =? 0) with false
        by (symmetry; apply Nat.eqb_neq; lia).
      split; [simpl; rewrite length_app; simpl; lia|]. split; [exact Hid'|].
      exists f. simpl. rewrite drop_app_le by exact Hf. rewrite <- Hq. simpl.
      split; [done|]. split; [rewrite length_app; lia|].
      exists sent, acts. rewrite take_app_le by exact Hf. done.
  - (* Resume *)
    destruct Hc as (Hn & Hid & f & Hq & Hf & Hshape).
    unfold resume.
    destruct (queue s) as [|j q] eqn:Eq.
    + destruct Hshape as [Hrun Hev]. rewrite Hrun. simpl.
      split; [done|]. split; [done|]. exists f. rewrite Eq. done.
    + destruct Hshape as (sent & acts & Hrun & Hev & Hsent).
      rewrite Hrun. destruct k as [|k]; simpl.
      2:{ split; [done|]. split; [done|]. exists f. rewrite Eq.
          split; [done|]. split; [done|]. by exists sent, acts. }
      destruct acts as [|a more].
      * simpl in Hsent. rewrite app_nil_r in Hsent. subst sent.
        by eapply finally_coherent.
      * destruct a as [ev|c|c]; simpl in Hsent.
        -- split; [done|]. split; [done|]. exists f. simpl. rewrite Eq, Hrun.
           split; [done|]. split; [done|].
           exists (sent ++ [ev]), more. split; [done|].
           unfold events. simpl. rewrite emitted_updateProgress.
           fold (events s). rewrite Hev, <- !app_assoc. done.
        -- destruct (outcome w (id j) c) as [e|] eqn:Eo.
           ++ eapply finally_coherent; eauto.
              unfold events. simpl. rewrite emitted_updateProgress.
              fold (events s). rewrite Hev, <- Hsent, <- !app_assoc. done.
           ++ assert (Hkeep : forall s',
                  queue s' = queue s -> running s' = running s ->
                  nextId s' = nextId s -> events s' = events s ->
                  coherent w H
                    (withRunning
                       (<[0 := {| job := id j; rest := more |}]> (running s'))
                       s')).
              { intros s' E1 E2 E3 E4. rewrite Hrun in E2. rewrite Eq in E1.
                split; [simpl; congruence|]. split; [done|].
                exists f. simpl. rewrite E1, E2. simpl.
                split; [done|]. split; [done|].
                exists sent, more. split; [done|].
                unfold events in *. simpl. rewrite E4. done. }
              apply Hkeep; by destruct c.
        -- split; [done|]. split; [done|]. exists f. simpl. rewrite Eq, ?Hrun.
           split; [done|]. split; [done|]. by exists sent, more.
  - eapply coherent_same; [..|exact Hc]; done.
  - eapply coherent_same; [..|exact Hc]; try done.
    unfold events. simpl. apply emitted_onClose.
  - eapply coherent_same; [..|exact Hc]; try done.
    unfold events. simpl. apply emitted_heartbeat.
  - eapply coherent_same; [..|exact Hc]; try done.
    unfold events. simpl. apply emitted_fireTimer.
  - eapply coherent_same; [..|exact Hc]; done.
Qed.

Lemma run_coherent w ls :
  forall H s,
    coherent w H s -> coherent w (H ++ history (length H) ls) (run w ls s).
Proof.
  induction ls as [|l ls IH]; intros H s Hc; simpl.
  - by rewrite app_nil_r.
  - rewrite app_assoc.
    replace (length H + length (submitted (length H) l))
      with (length (H ++ submitted (length H) l))
      by (rewrite length_app; done).
    apply IH. by apply step_coherent.
Qed.

Lemma reachable_coherent w ls : coherent w (history 0 ls) (run w ls boot).
Proof. exact (run_coherent w ls [] boot (coherent_boot w)). Qed.

(** *** What one job sends *)

Lemma perform_videoId w v actions :
  emitsOnly v actions ->
  forall ev, In ev (perform w v actions) -> videoId ev = v.
Proof.
  induction actions as [|a more IH]; intros Hem ev Hin; simpl in Hin;
    [done|].
  assert (Hmore : emitsOnly v more).
  { intros e He. apply Hem. by right. }
  destruct a as [e|c|c].
  - destruct Hin as [<- | Hin]; [apply Hem; by left | by apply IH].
  - destruct (outcome w v c).
    + destruct Hin as [<- | []]. done.
    + by apply IH.
  - by apply IH.
Qed.

Lemma perform_terminal w v actions :
  (exists ev, In (Emit ev) actions /\ terminal (stage ev) = true) ->
  exists ev, In ev (perform w v actions) /\ terminal (stage ev) = true.
Proof.
  induction actions as [|a more IH]; intros (ev & Hin & Hterm); [done|].
  destruct Hin as [-> | Hin].
  - exists ev. split; [by left | done].
  - destruct (IH (ex_intro _ ev (conj Hin Hterm))) as (ev' & Hin' & Hterm').
    destruct a as [e|c|c]; simpl.
    + exists ev'. split; [by right | done].
    + destruct (outcome w v c).
      * eexists. split; [by left | done].
      * by exists ev'.
    + by exists ev'.
Qed.

#[local] Transparent createShort failedEvent.

(** Case analysis on membership in an explicit list of steps. *)
Ltac in_cases H :=
  simpl in H;
  repeat match type of H with
         | _ \/ _ => destruct H as [H | H]
         | False => destruct H
         | Emit _ = Emit _ => injection H as <-
         | _ = _ => discriminate H
         end.

Lemma sceneActions_emitsOnly w j index :
  emitsOnly (id j) (sceneActions w j index).
Proof.
  intros ev Hin. unfold sceneActions, fetchFootage in Hin.
  apply in_app_or in Hin as [Hin | Hin].
  - in_cases Hin; done.
  - destruct (_ && _) in Hin; [|destruct (usesPlexClip w j) in Hin];
      in_cases Hin.
Qed.

Lemma createShort_emitsOnly w j : emitsOnly (id j) (createShort w j).
Proof.
  intros ev Hin. unfold createShort in Hin.
  repeat (apply in_app_or in Hin as [Hin | Hin]).
  - in_cases Hin; done.
  - destruct (plexRequested _); in_cases Hin.
  - destruct (hasSourceVideo _ _); in_cases Hin.
  - apply in_flat_map in Hin as (index & _ & Hin).
    by apply (sceneActions_emitsOnly w j index).
  - in_cases Hin; done.
  - apply list_elem_of_In, list_elem_of_fmap in Hin as (f & [=] & _).
Qed.

Lemma createShort_has_complete w j :
  exists ev, In (Emit ev) (createShort w j) /\ terminal (stage ev) = true.
Proof.
  exists (event (id j) complete 100 "Video creation complete!").
  split; [|done]. unfold createShort.
  do 4 (apply in_or_app; right). apply in_or_app. left.
  simpl. tauto.
Qed.

Lemma jobEvents_videoId w j ev : In ev (jobEvents w j) -> videoId ev = id j.
Proof. apply perform_videoId, createShort_emitsOnly. Qed.

(** Every job sends a terminal event, whether its call returns or throws. *)
Lemma jobEvents_terminal w j :
  exists ev, In ev (jobEvents w j) /\ terminal (stage ev) = true.
Proof. apply perform_terminal, createShort_has_complete. Qed.

#[local] Opaque createShort failedEvent.

(** *** First in, first out *)

Lemma fifo_app (X Y : list ProgressEvent) :
  fifo X ->
  (forall ev, In ev Y -> forall a, a < videoId ev ->
     exists ev', In ev' X /\ videoId ev' = a /\ terminal (stage ev') = true) ->
  fifo (X ++ Y).
Proof.
  intros HX HY i ev Hi a Ha.
  apply lookup_app_Some in Hi as [Hi | [Hge Hi]].
  - destruct (HX i ev Hi a Ha) as (i' & ev' & Hlt & Hi' & Hrest).
    exists i', ev'. split; [done|]. split; [|done].
    by apply lookup_app_l_Some.
  - assert (Hin : In ev Y).
    { apply list_elem_of_In, list_elem_of_lookup. eauto. }
    destruct (HY ev Hin a Ha) as (ev' & Hin' & Hrest).
    apply list_elem_of_In, list_elem_of_lookup in Hin' as [i' Hi'].
    exists i', ev'. split.
    + apply lookup_lt_Some in Hi'. lia.
    + split; [|done]. by apply lookup_app_l_Some.
Qed.

Section Served.
Variable w : World.
Variable H : list Job.
Hypothesis Hid : forall k j, H !! k = Some j -> id j = k.

(** Among the events of the first [k] jobs there is a terminal event of
    each of them. *)
Lemma served_terminal k a :
  k <= length H -> a < k ->
  exists ev, In ev (flat_map (jobEvents w) (take k H))
             /\ videoId ev = a /\ terminal (stage ev) = true.
Proof.
  intros Hk Ha.
  destruct (lookup_lt_is_Some_2 H a) as [j Hj]; [lia|].
  destruct (jobEvents_terminal w j) as (ev & Hin & Hterm).
  exists ev. split; [|split; [|done]].
  - apply in_flat_map. exists j. split; [|done].
    apply list_elem_of_In, list_elem_of_lookup. exists a.
    rewrite lookup_take_lt by done. done.
  - rewrite (jobEvents_videoId w j ev Hin). by apply Hid.
Qed.

Lemma served_fifo k sent :
  k <= length H ->
  (forall ev, In ev sent -> videoId ev = k) ->
  fifo (flat_map (jobEvents w) (take k H) ++ sent).
Proof.
  intros Hk Hsent. apply fifo_app.
  - clear sent Hsent. induction k as [|k IH].
    + intros i ev Hi. by rewrite take_0 in Hi.
    + destruct (lookup_lt_is_Some_2 H k) as [j Hj]; [lia|].
      rewrite (take_S_r _ _ _ Hj), flat_map_app. simpl.
      rewrite app_nil_r. apply fifo_app; [apply IH; lia|].
      intros ev Hin a Ha.
      rewrite (jobEvents_videoId w j ev Hin), (Hid k j Hj) in Ha.
      apply served_terminal; lia.
  - intros ev Hin a Ha. rewrite (Hsent ev Hin) in Ha.
    by apply served_terminal.
Qed.
End Served.

(** C5: after any sequence of submissions, resumptions and subscriber
    activity, at most one [createShort] call is in flight and it serves the
    head of the queue; every earlier job has sent its terminal event before
    that call was started, and before any event of a later job is sent
    ([fifo]); a submission appends the job to the tail of the queue and
    starts a call exactly when the queue was empty. *)
Theorem C5_fifo_one_at_a_time (w : World) (ls : list Label) :
  let s := run w ls boot in
  length (running s) <= 1
  /\ (forall wk, In wk (running s) ->
        (exists j, head (queue s) = Some j /\ job wk = id j)
        /\ forall a, a < job wk ->
             exists ev, In ev (events s) /\ videoId ev = a
                        /\ terminal (stage ev) = true)
  /\ fifo (events s)
  /\ forall sceneInput config,
       let item := {| sceneInput := sceneInput; config := config;
                      id := nextId s |} in
       let s' := step w s (Submit sceneInput config) in
       queue s' = queue s ++ [item]
       /\ running s'
          = running s
            ++ (if bool_decide (queue s = [])
                then [{| job := id item; rest := createShort w item |}]
                else []).
Proof.
  intros s.
  destruct (reachable_coherent w ls) as (Hn & Hid & f & Hq & Hf & Hshape).
  fold s in Hn, Hq, Hshape.
  destruct (queue s) as [|j q] eqn:Eq.
  - destruct Hshape as [Hrun Hev]. rewrite Hrun, Hev.
    split; [simpl; lia|]. split; [by intros wk []|].
    split.
    + rewrite <- (app_nil_r (flat_map _ _)).
      by apply served_fifo.
    + intros si cfg. simpl. unfold addToQueue. rewrite Eq, Hrun. done.
  - destruct Hshape as (sent & acts & Hrun & Hev & Hsent).
    assert (Hj : history 0 ls !! f = Some j).
    { rewrite <- (Nat.add_0_r f), <- lookup_drop, <- Hq. done. }
    rewrite Hrun, Hev.
    split; [simpl; lia|]. split; [|split].
    + intros wk [<- | []]. simpl. split; [by exists j|].
      intros a Ha. rewrite (Hid f j Hj) in Ha.
      destruct (served_terminal w _ Hid f a Hf Ha) as (ev & Hin & Hrest).
      exists ev. split; [|done]. apply in_or_app. by left.
    + apply served_fifo; [done..|].
      intros ev Hin. rewrite <- (Hid f j Hj).
      apply (jobEvents_videoId w). rewrite <- Hsent.
      apply in_or_app. by left.
    + intros si cfg. simpl. unfold addToQueue. rewrite Eq, Hrun. simpl.
      replace (length (q ++ _) =? 0) with false; [done|].
      symmetry. apply Nat.eqb_neq. rewrite length_app. simpl. lia.
Qed.

(** C5 on the run of the failure scenario, at the moment the second job
    is being processed. *)
Lemma C5_fifo_one_at_a_time_witness :
  let s := run (whisperFails 1 "whisper crashed")
               ([Submit (scenesOf 2) plainConfig;
                 Submit (scenesOf 1) plainConfig]
                ++ replicate 16 (Resume 0)) boot in
  length (running s) <= 1
  /\ exists ev, In ev (events s) /\ videoId ev = 0
                /\ terminal (stage ev) = true.
Proof.
  intros s.
  destruct (C5_fifo_one_at_a_time (whisperFails 1 "whisper crashed")
              ([Submit (scenesOf 2) plainConfig;
                Submit (scenesOf 1) plainConfig]
               ++ replicate 16 (Resume 0))) as (Hone & Hhead & _).
  split; [exact Hone|].
  refine (proj2 (Hhead {| job := 1; rest := _ |} _) 0 _).
  - vm_compute. left. reflexivity.
  - simpl. lia.
Defined.

(** The events of a run are those of its jobs, one job after the other in
    the order of submission, the last of them possibly unfinished. *)
Lemma events_job_by_job w ls :
  exists f sent,
    events (run w ls boot)
    = flat_map (jobEvents w) (take f (history 0 ls)) ++ sent
    /\ (sent = []
        \/ exists j more, history 0 ls !! f = Some j
                          /\ sent ++ more = jobEvents w j).
Proof.
  destruct (reachable_coherent w ls) as (_ & _ & f & Hq & _ & Hshape).
  exists f. destruct (queue (run w ls boot)) as [|j q] eqn:Eq.
  - exists []. destruct Hshape as [_ ->]. rewrite app_nil_r. by split; [|left].
  - destruct Hshape as (sent & acts & _ & Hev & Hsent).
    exists sent. split; [done|]. right. exists j, (perform w (id j) acts).
    split; [|done].
    rewrite <- (Nat.add_0_r f), <- lookup_drop, <- Hq. done.
Qed.

(** *** [status] *)

Lemma status_processing (s : State) (videoId : nat) :
  status s videoId = processing <-> videoId ∈ id <$> queue s.
Proof.
  unfold status.
  destruct (find _ (queue s)) as [item|] eqn:E.
  - split; [intros _|done].
    apply find_some in E as [Hin Heq].
    apply bool_decide_eq_true in Heq as <-.
    apply list_elem_of_fmap. exists item. split; [done|].
    by apply list_elem_of_In.
  - split; [by destruct (existsSync s videoId)|].
    intros Hin. apply list_elem_of_fmap in Hin as (item & -> & Hin).
    apply list_elem_of_In in Hin.
    pose proof (find_none _ _ E item Hin) as Hne. simpl in Hne.
    by apply bool_decide_eq_false in Hne.
Qed.

Lemma queue_ids_issued w H s :
  coherent w H s -> forall j, j ∈ queue s -> id j < nextId s.
Proof.
  intros (Hn & Hid & f & Hq & _) j Hin.
  rewrite Hq in Hin. apply list_elem_of_lookup in Hin as [i Hi].
  rewrite lookup_drop in Hi.
  rewrite (Hid _ _ Hi), Hn. by apply lookup_lt_Some in Hi.
Qed.

(** C9: [status] answers [processing] for an id in the queue, otherwise
    [ready] when the rendered file exists, otherwise [failed]; so in every
    reachable state an id that was never issued and has no file is reported
    [failed], as is a job that failed. *)
Theorem C9_status_three_way (s : State) (videoId : nat) :
  (videoId ∈ id <$> queue s -> status s videoId = processing)
  /\ (videoId ∉ id <$> queue s -> videoId ∈ videosDir s ->
      status s videoId = ready)
  /\ (videoId ∉ id <$> queue s -> videoId ∉ videosDir s ->
      status s videoId = failed)
  /\ (forall w ls, s = run w ls boot ->
      nextId s <= videoId -> videoId ∉ videosDir s ->
      status s videoId = failed).
Proof.
  assert (Hnot : videoId ∉ id <$> queue s ->
                 status s videoId
                 = if existsSync s videoId then ready else failed).
  { intros Hq. pose proof (status_processing s videoId) as Hp.
    unfold status in *. destruct (find _ (queue s)); [|done].
    exfalso. apply Hq, Hp. done. }
  split; [apply status_processing|]. split; [|split].
  - intros Hq Hv. rewrite (Hnot Hq). unfold existsSync.
    by rewrite bool_decide_eq_true_2.
  - intros Hq Hv. rewrite (Hnot Hq). unfold existsSync.
    by rewrite bool_decide_eq_false_2.
  - intros w ls -> Hge Hv. rewrite Hnot.
    + unfold existsSync. by rewrite bool_decide_eq_false_2.
    + intros Hin. apply list_elem_of_fmap in Hin as (j & -> & Hin).
      pose proof (queue_ids_issued w _ _ (reachable_coherent w ls) j Hin).
      lia.
Qed.

(** The run of the specification's failure scenario: two jobs, the
    transcription of the first job's second scene throws. *)
Lemma C9_status_three_way_witness :
  let s := run (whisperFails 1 "whisper crashed")
               ([Submit (scenesOf 2) plainConfig;
                 Submit (scenesOf 1) plainConfig]
                ++ replicate 16 (Resume 0)) boot in
  status s 1 = processing /\ status s 0 = failed /\ status s 7 = failed.
Proof.
  intros s.
  destruct (C9_status_three_way s 1) as (H1 & _).
  destruct (C9_status_three_way s 0) as (_ & _ & H0 & _).
  destruct (C9_status_three_way s 7) as (_ & _ & _ & H7).
  split; [|split].
  - apply H1. vm_compute. apply list_elem_of_here.
  - apply H0; vm_compute; intros Hin; apply list_elem_of_In in Hin;
      simpl in Hin; lia.
  - apply (H7 (whisperFails 1 "whisper crashed")
              ([Submit (scenesOf 2) plainConfig;
                Submit (scenesOf 1) plainConfig]
               ++ replicate 16 (Resume 0))).
    + reflexivity.
    + vm_compute. lia.
    + vm_compute. intros Hin. apply list_elem_of_In in Hin. exact Hin.
Defined.

(** *** What a subscriber is sent *)

#[local] Transparent updateProgress.

Lemma writtenTo_write res r c t :
  writtenTo res (write r c t)
  = writtenTo res t ++ (if decide (r = res) then [c] else []).
Proof.
  unfold writtenTo, write. simpl. destruct (decide (r = res)) as [->|Hne].
  - by rewrite lookup_insert_eq.
  - rewrite lookup_insert_ne by done. by rewrite app_nil_r.
Qed.

Lemma continues_refl res t : continues res t t.
Proof. exists []. by rewrite app_nil_r. Qed.

Lemma continues_trans res t1 t2 t3 :
  continues res t1 t2 -> continues res t2 t3 -> continues res t1 t3.
Proof.
  intros [m1 H1] [m2 H2]. exists (m1 ++ m2). by rewrite H2, H1, app_assoc.
Qed.

Lemma continues_same res t t' :
  written t' = written t -> continues res t t'.
Proof. intros E. exists []. unfold writtenTo. by rewrite E, app_nil_r. Qed.

Lemma continues_write res r c t : continues res t (write r c t).
Proof. eexists. apply writtenTo_write. Qed.

Lemma continues_foldl_send res ev conns :
  forall t,
    continues res t
      (foldl (fun t r => if decide (r ∈ ended t) then t
                         else sendEvent r ev t) t conns).
Proof.
  induction conns as [|r conns IH]; intros t; simpl.
  - apply continues_refl.
  - eapply continues_trans; [|apply IH].
    destruct (decide _); [apply continues_refl | apply continues_write].
Qed.

Lemma continues_updateProgress res ev t :
  continues res t (updateProgress ev t).
Proof.
  eapply continues_trans; [apply (continues_foldl_send res ev)|].
  by apply continues_same.
Qed.

Lemma continues_onClose res v r t : continues res t (onClose v r t).
Proof.
  apply continues_same. unfold onClose, removeConnection. simpl.
  by destruct (connections t !! v).
Qed.

Lemma continues_heartbeat res r t : continues res t (heartbeat r t).
Proof.
  unfold heartbeat. destruct (decide _); [|apply continues_refl].
  destruct (decide _); [by apply continues_same | apply continues_write].
Qed.

Lemma continues_fireTimer res k t : continues res t (fireTimer k t).
Proof.
  apply continues_same. unfold fireTimer, cleanup.
  destruct (timers t !! k); [|done]. simpl.
  by destruct (connections t !! _).
Qed.

Lemma writtenTo_addConnection res v t :
  writtenTo res (addConnection v res t)
  = writtenTo res t ++ [Head 200; Data (connectedEvent v)].
Proof.
  unfold addConnection, sendEvent.
  change (writtenTo res (write res (Data (connectedEvent v))
                           (write res (Head 200) t))
          = writtenTo res t ++ [Head 200; Data (connectedEvent v)]).
  rewrite !writtenTo_write, !decide_True by done.
  by rewrite <- app_assoc.
Qed.

Lemma continues_addConnection res v r t :
  continues res t (addConnection v r t).
Proof.
  eapply continues_trans; [apply (continues_write res r (Head 200))|].
  eapply continues_trans;
    [apply (continues_write res r (Data (connectedEvent v)))|].
  by apply continues_same.
Qed.

Lemma tracker_processQueue w s : tracker (processQueue w s) = tracker s.
Proof. unfold processQueue. by destruct (queue s). Qed.

Lemma tracker_finally w k s : tracker (finally w k s) = tracker s.
Proof. unfold finally. by rewrite tracker_processQueue. Qed.

Lemma tracker_effect v c s : tracker (effect v c s) = tracker s.
Proof. by destruct c. Qed.

Lemma continues_step res w s l :
  continues res (tracker s) (tracker (step w s l)).
Proof.
  destruct l as [si cfg|k|v r|v r|r|k|v]; simpl.
  - unfold addToQueue. simpl. destruct (_ =? _).
    + rewrite tracker_processQueue. apply continues_refl.
    + apply continues_refl.
  - unfold resume. destruct (running s !! k) as [wk|]; [|apply continues_refl].
    destruct (rest wk) as [|a more].
    + rewrite tracker_finally. apply continues_refl.
    + destruct a as [ev|c|c]; simpl.
      * apply continues_updateProgress.
      * destruct (outcome w (job wk) c).
        -- rewrite tracker_finally. simpl. apply continues_updateProgress.
        -- simpl. rewrite tracker_effect. apply continues_refl.
      * apply continues_refl.
  - apply continues_addConnection.
  - apply continues_onClose.
  - apply continues_heartbeat.
  - apply continues_fireTimer.
  - apply continues_refl.
Qed.

Lemma continues_run res w ls :
  forall s, continues res (tracker s) (tracker (run w ls s)).
Proof.
  induction ls as [|l ls IH]; intros s; simpl.
  - apply continues_refl.
  - eapply continues_trans; [apply continues_step | apply IH].
Qed.

(** C10: [addConnection] writes the header and then the synthetic event
    (stage [queued], progress 0, message "Connected to progress stream")
    to the new response, whatever the tracker or the creator hold; in any
    state of the creator and whatever happens afterwards, these are the
    first two writes the subscriber gets after connecting, and everything
    else follows them. *)
Theorem C10_connected_event_first (videoId res : nat) :
  (forall t,
     writtenTo res (addConnection videoId res t)
     = writtenTo res t ++ [Head 200; Data (connectedEvent videoId)])
  /\ connectedEvent videoId
     = {| Creator.videoId := videoId; stage := queued; progress := 0;
          message := "Connected to progress stream"; errorText := None |}
  /\ (forall w s ls,
        exists more,
          writtenTo res (tracker (run w (Connect videoId res :: ls) s))
          = writtenTo res (tracker s)
            ++ [Head 200; Data (connectedEvent videoId)] ++ more).
Proof.
  split; [intros t; apply writtenTo_addConnection|]. split; [done|].
  intros w s ls. simpl.
  destruct (continues_run res w ls
              (withTracker (addConnection videoId res (tracker s)) s))
    as [more Hmore].
  exists more. rewrite Hmore. simpl.
  by rewrite writtenTo_addConnection, <- app_assoc.
Qed.

(** A subscriber that connects after the job has failed is still sent the
    [queued] event, and nothing else. *)
Example connect_after_failure :
  let s := run (whisperFails 0 "whisper crashed")
               ([Submit (scenesOf 1) plainConfig] ++ replicate 6 (Resume 0)
                ++ [Connect 0 5]) boot in
  status s 0 = failed
  /\ writtenTo 5 (tracker s) = [Head 200; Data (connectedEvent 0)].
Proof. vm_compute. done. Qed.

(** *** The stages of one job *)

#[local] Transparent createShort failedEvent.

Lemma perform_returns w v actions :
  returns w v actions = true -> perform w v actions = emits actions.
Proof.
  induction actions as [|a more IH]; [done|].
  unfold returns, emits. simpl. intros Hret.
  apply andb_true_iff in Hret as [Ha Hmore].
  destruct a as [ev|c|c]; simpl.
  - f_equal. by apply IH.
  - apply bool_decide_eq_true in Ha. rewrite Ha. by apply IH.
  - by apply IH.
Qed.

Lemma emits_app l1 l2 : emits (l1 ++ l2) = emits l1 ++ emits l2.
Proof. apply omap_app. Qed.

Lemma emits_calls (cs : list ExtCall) : emits (Call <$> cs) = [].
Proof. induction cs; [done|]. done. Qed.

Lemma stages_sceneActions w j index :
  stage <$> emits (sceneActions w j index)
  = [generating_audio; transcribing; fetching_videos].
Proof.
  unfold sceneActions. rewrite emits_app.
  assert (emits (fetchFootage w j index) = []) as ->.
  { unfold fetchFootage. destruct (_ && _); [done|].
    by destruct (usesPlexClip w j). }
  done.
Qed.

Lemma stages_scenes w j (indices : list nat) :
  stage <$> emits (flat_map (sceneActions w j) indices)
  = concat (replicate (length indices)
              [generating_audio; transcribing; fetching_videos]).
Proof.
  induction indices as [|i indices IH]; [done|].
  change (flat_map (sceneActions w j) (i :: indices))
    with (sceneActions w j i ++ flat_map (sceneActions w j) indices).
  rewrite emits_app, fmap_app, stages_sceneActions, IH. done.
Qed.

Lemma stages_createShort w j :
  stage <$> emits (createShort w j)
  = successStages (length (sceneInput j)).
Proof.
  unfold createShort, successStages.
  rewrite !emits_app, !fmap_app, stages_scenes, length_seq.
  assert (emits (if plexRequested (config j)
                 then [CallCaught getMovieFilePath] else []) = []) as ->
    by (by destruct (plexRequested _)).
  assert (emits (if hasSourceVideo w j
                 then [Call getVideoDuration] else []) = []) as ->
    by (by destruct (hasSourceVideo _ _)).
  rewrite list_fmap_compose, emits_calls. done.
Qed.

(** Two scenes or more: the stage after the first [fetching_videos] is
    [generating_audio] again. *)
Lemma successStages_steps_back n : ~ nondecreasing (successStages (S (S n))).
Proof.
  intros Hnd. specialize (Hnd 3 fetching_videos generating_audio).
  simpl in Hnd. specialize (Hnd eq_refl eq_refl). lia.
Qed.

Lemma successStages_nondecreasing n :
  nondecreasing (successStages n) <-> n <= 1.
Proof.
  split.
  - intros Hnd. destruct n as [|[|n]]; [lia..|].
    by apply successStages_steps_back in Hnd.
  - intros Hn i a b Ha Hb.
    destruct n as [|[|n]]; [| |lia];
      do 8 (destruct i as [|i]; [simpl in Ha, Hb; simplify_eq; simpl; lia|]);
      done.
Qed.

(** An [error] event is the last thing a job sends. *)
Lemma perform_error_last w v actions :
  (forall ev, In (Emit ev) actions -> stage ev <> error) ->
  forall i ev, perform w v actions !! i = Some ev -> stage ev = error ->
               S i = length (perform w v actions).
Proof.
  induction actions as [|a more IH]; intros Hno i ev Hi Herr; [done|].
  assert (Hmore : forall e, In (Emit e) more -> stage e <> error).
  { intros e He. apply Hno. by right. }
  destruct a as [e|c|c]; simpl in *.
  - destruct i as [|i].
    + injection Hi as ->. exfalso. apply (Hno ev); [by left | done].
    + f_equal. by apply (IH Hmore i ev).
  - destruct (outcome w v c).
    + by destruct i.
    + by apply (IH Hmore i ev).
  - by apply (IH Hmore i ev).
Qed.

Lemma createShort_no_error w j ev :
  In (Emit ev) (createShort w j) -> stage ev <> error.
Proof.
  intros Hin. unfold createShort in Hin.
  repeat (apply in_app_or in Hin as [Hin | Hin]).
  - in_cases Hin; done.
  - destruct (plexRequested _); in_cases Hin.
  - destruct (hasSourceVideo _ _); in_cases Hin.
  - apply in_flat_map in Hin as (index & _ & Hin).
    unfold sceneActions, fetchFootage in Hin.
    apply in_app_or in Hin as [Hin | Hin]; [in_cases Hin; done|].
    destruct (_ && _) in Hin; [|destruct (usesPlexClip w j) in Hin];
      in_cases Hin.
  - in_cases Hin; done.
  - apply list_elem_of_In, list_elem_of_fmap in Hin as (f & [=] & _).
Qed.

(** A job one of whose calls throws ends with the [error] event that
    carries what was thrown. *)
Lemma perform_throws w v actions :
  returns w v actions = false ->
  exists sent e, perform w v actions = sent ++ [failedEvent v e].
Proof.
  induction actions as [|a more IH]; [done|].
  unfold returns. simpl. intros Hret.
  apply andb_false_iff in Hret as [Ha | Hmore].
  - destruct a as [ev|c|c]; try done.
    apply bool_decide_eq_false in Ha. simpl.
    destruct (outcome w v c) as [e|]; [|done].
    by exists [], e.
  - destruct (IH Hmore) as (sent & e & Hp).
    destruct a as [ev|c|c]; simpl.
    + exists (ev :: sent), e. by rewrite Hp.
    + destruct (outcome w v c) as [e'|]; [by exists [], e' | by exists sent, e].
    + by exists sent, e.
Qed.

(** C7 (counterexample): a job of two scenes whose calls all return sends
    [fetching_videos] for its first scene and then [generating_audio] for
    its second: its stage sequence steps back. *)
Lemma C7_two_scenes_step_back :
  succeeds calm (jobOf 2 plainConfig) = true
  /\ stage <$> jobEvents calm (jobOf 2 plainConfig)
     = [queued; generating_audio; transcribing; fetching_videos;
        generating_audio; transcribing; fetching_videos;
        composing; rendering; complete]
  /\ ~ nondecreasing (stage <$> jobEvents calm (jobOf 2 plainConfig)).
Proof.
  split; [reflexivity|]. split; [reflexivity|].
  intros Hnd. specialize (Hnd 3 fetching_videos generating_audio).
  specialize (Hnd eq_refl eq_refl). simpl in Hnd. lia.
Qed.

(** C7 (as amended): a job whose [createShort] returns sends [queued], then
    [generating_audio], [transcribing], [fetching_videos] once per scene,
    then [composing], [rendering], [complete]; that sequence is
    non-decreasing exactly for jobs of at most one scene. In any job an
    [error] event is the last one sent, and it can directly follow each of
    the other stages. *)
Theorem C7_stage_sequence (w : World) (j : Job) :
  (succeeds w j = true ->
   stage <$> jobEvents w j = successStages (length (sceneInput j))
   /\ (nondecreasing (stage <$> jobEvents w j)
       <-> length (sceneInput j) <= 1))
  /\ (forall i ev, jobEvents w j !! i = Some ev -> stage ev = error ->
                   S i = length (jobEvents w j))
  /\ (forall st, st <> error ->
        exists sent ev e,
          jobEvents (failsAt (failingCallAfter st)) (jobFailingAfter st)
          = sent ++ [ev; failedEvent 0 e]
          /\ stage ev = st).
Proof.
  split; [|split].
  - intros Hok. unfold succeeds in Hok. unfold jobEvents.
    rewrite (perform_returns _ _ _ Hok), stages_createShort.
    split; [done|]. apply successStages_nondecreasing.
  - intros i ev. apply perform_error_last. apply createShort_no_error.
  - intros st Hst.
    set (l := jobEvents (failsAt (failingCallAfter st)) (jobFailingAfter st)).
    exists (take (length l - 2) l),
           (nth (length l - 2) l (connectedEvent 0)),
           (ErrorObject "boom").
    subst l. destruct st; try done; split; vm_compute; reflexivity.
Qed.

(** C7 at a job of one scene in the world where every call returns. *)
Lemma C7_stage_sequence_witness :
  stage <$> jobEvents calm (jobOf 1 plainConfig)
  = [queued; generating_audio; transcribing; fetching_videos;
     composing; rendering; complete]
  /\ nondecreasing (stage <$> jobEvents calm (jobOf 1 plainConfig)).
Proof.
  destruct (proj1 (C7_stage_sequence calm (jobOf 1 plainConfig)))
    as [Hst Hnd].
  - reflexivity.
  - split; [exact Hst|]. apply Hnd. simpl. lia.
Defined.

(** *** A failing job *)

(** C6 (evaluation at the failing input): two jobs are submitted, the
    first of two scenes, and the transcription of its second scene throws.
    The first job sends exactly one [error] event, with the message thrown,
    is reported [failed], and the second job is rendered. But the four temp
    files the first job had written by then are still in the temp
    directory when the queue has drained: only the second job's files were
    removed. *)
Theorem C6_failed_job_keeps_temp_files :
  let s := run (whisperFails 1 "whisper crashed")
               ([Submit (scenesOf 2) plainConfig;
                 Submit (scenesOf 1) plainConfig]
                ++ replicate 40 (Resume 0)) boot in
  queue s = [] /\ running s = []
  /\ filter (fun ev => videoId ev = 0 /\ terminal (stage ev) = true)
            (events s)
     = [failedEvent 0 (ErrorObject "whisper crashed")]
  /\ errorText (failedEvent 0 (ErrorObject "whisper crashed"))
     = Some "whisper crashed"
  /\ status s 0 = failed
  /\ stage <$> filter (fun ev => videoId ev = 1) (events s)
     = successStages 1
  /\ status s 1 = ready
  /\ tempDir s
     = [ {| owner := 0; sceneIndex := 0; kind := wav |};
         {| owner := 0; sceneIndex := 0; kind := mp3 |};
         {| owner := 0; sceneIndex := 0; kind := mp4 |};
         {| owner := 0; sceneIndex := 1; kind := wav |} ].
Proof. vm_compute. repeat split. Qed.

(** Without the failure the same run leaves the temp directory empty. *)
Example successful_jobs_purge_temp_files :
  let s := run calm
               ([Submit (scenesOf 2) plainConfig;
                 Submit (scenesOf 1) plainConfig]
                ++ replicate 60 (Resume 0)) boot in
  queue s = [] /\ tempDir s = [] /\ videosDir s = [0; 1].
Proof. vm_compute. repeat split. Qed.

End CreatorProps.

(* ===================================================================== *)
(** ** Properties of the WAV parser                                       *)
(* ===================================================================== *)

Module WavProps.
Import Wav.

Lemma to_N_byteOf (n : N) : Byte.to_N (byteOf n) = (n mod 256)%N.
Proof.
  unfold byteOf.
  pose proof (Byte.to_of_N_option_map (n mod 256)) as H.
  assert (Hlt : (n mod 256 <? 256)%N = true).
  { apply N.ltb_lt. apply N.mod_lt. discriminate. }
  apply N.ltb_lt in Hlt.
  replace (n mod 256 <=? 255)%N with true in H
    by (symmetry; apply N.leb_le; lia).
  destruct (Byte.of_N (n mod 256)); simpl in *; congruence.
Qed.

Lemma le32_value (n : N) :
  (n < 4294967296)%N ->
  (Byte.to_N (byteOf n) + 256 * Byte.to_N (byteOf (n / 256))
   + 65536 * Byte.to_N (byteOf (n / 65536))
   + 16777216 * Byte.to_N (byteOf (n / 16777216)))%N = n.
Proof.
  intros Hn. rewrite !to_N_byteOf.
  replace (n / 65536)%N with (n / 256 / 256)%N
    by (rewrite N.Div0.div_div; reflexivity).
  replace (n / 16777216)%N with (n / 256 / 256 / 256)%N
    by (rewrite !N.Div0.div_div; reflexivity).
  pose proof (N.div_mod n 256 ltac:(discriminate)).
  pose proof (N.div_mod (n / 256) 256 ltac:(discriminate)).
  pose proof (N.div_mod (n / 256 / 256) 256 ltac:(discriminate)).
  assert (n / 256 / 256 / 256 < 256)%N.
  { rewrite !N.Div0.div_div. apply N.Div0.div_lt_upper_bound.
    exact Hn. }
  rewrite (N.mod_small (n / 256 / 256 / 256) 256) by assumption.
  lia.
Qed.

Lemma lookup_after {A} (pre l : list A) (k : nat) :
  (pre ++ l) !! (length pre + k) = l !! k.
Proof.
  rewrite lookup_app_r by lia. f_equal. lia.
Qed.

Lemma readUInt32LE_le32 (pre post : list byte) (n : N) :
  (n < 4294967296)%N ->
  readUInt32LE (pre ++ le32 n ++ post) (length pre) = Some n.
Proof.
  intros Hn. unfold readUInt32LE.
  rewrite <- (Nat.add_0_r (length pre)) at 1.
  rewrite !lookup_after.
  unfold le32. cbn -[N.mul N.add N.div byteOf Byte.to_N].
  by rewrite le32_value.
Qed.

Lemma toAscii_at (pre id post : list byte) :
  length id = 4 ->
  toAscii (pre ++ id ++ post) (length pre) (length pre + 4) = toAscii id 0 4.
Proof.
  intros Hid. unfold toAscii.
  replace (length pre + 4 - length pre) with 4 by lia.
  rewrite drop_app_length, take_app_length' by done.
  rewrite drop_0, Nat.sub_0_r. by rewrite <- Hid, firstn_all.
Qed.

Lemma length_le32 n : length (le32 n) = 4.
Proof. done. Qed.

Lemma length_encodeChunk c :
  skippable c -> length (encodeChunk c) = 8 + N.to_nat (declaredSize c).
Proof.
  intros (Hid & _ & Hsz & _). unfold encodeChunk.
  rewrite !length_app, Hid, length_le32, Hsz. lia.
Qed.

(** The loop steps over well-formed chunks until it meets the [data]
    chunk. *)
Lemma findData_skips (buffer : list byte) (sampleRate byteRate n : N)
    (samples : list byte) :
  readUInt32LE buffer 24 = Some sampleRate ->
  readUInt32LE buffer 28 = Some byteRate ->
  (n < 4294967296)%N -> samples <> [] ->
  forall chunks pre fuel,
    Forall skippable chunks ->
    buffer = pre ++ concat (encodeChunk <$> chunks)
             ++ dataId ++ le32 n ++ samples ->
    length chunks < fuel ->
    findData fuel buffer (length pre) = Found n sampleRate byteRate.
Proof.
  intros Hsr Hbr Hn Hs.
  induction chunks as [|c chunks IH]; intros pre fuel Hok Hbuf Hfuel.
  - destruct fuel as [|fuel]; [simpl in Hfuel; lia|].
    change (concat (encodeChunk <$> [])) with (@nil byte) in Hbuf.
    rewrite app_nil_l in Hbuf.
    unfold findData; fold findData.
    assert (Hlen : (Z.of_nat (length pre) <? Z.of_nat (length buffer) - 8)%Z
                   = true).
    { apply Z.ltb_lt. rewrite Hbuf, !length_app, length_le32. simpl.
      destruct samples; [done|]. simpl. lia. }
    rewrite Hlen. cbv zeta.
    assert (Hread : readUInt32LE buffer (length pre + 4) = Some n).
    { rewrite Hbuf.
      replace (length pre + 4) with (length (pre ++ dataId))
        by (rewrite length_app; done).
      rewrite (app_assoc pre dataId). by apply readUInt32LE_le32. }
    rewrite Hread.
    assert (Hid : toAscii buffer (length pre) (length pre + 4) = "data").
    { rewrite Hbuf, toAscii_at by done. reflexivity. }
    rewrite Hid. simpl String.eqb. cbv iota. by rewrite Hsr, Hbr.
  - destruct fuel as [|fuel]; [simpl in Hfuel; lia|].
    apply Forall_cons in Hok as [Hc Hok].
    pose proof Hc as (Hid & Hnot & Hsz & Hlt).
    change (concat (encodeChunk <$> c :: chunks))
      with (encodeChunk c ++ concat (encodeChunk <$> chunks)) in Hbuf.
    unfold encodeChunk at 1 in Hbuf.
    rewrite <- !app_assoc in Hbuf.
    unfold findData; fold findData.
    assert (Hlen : (Z.of_nat (length pre) <? Z.of_nat (length buffer) - 8)%Z
                   = true).
    { apply Z.ltb_lt. rewrite Hbuf, !length_app, Hid, length_le32.
      simpl. lia. }
    rewrite Hlen. cbv zeta.
    assert (Hread : readUInt32LE buffer (length pre + 4)
                    = Some (declaredSize c)).
    { rewrite Hbuf.
      replace (length pre + 4) with (length (pre ++ chunkId c))
        by (rewrite length_app, Hid; done).
      rewrite (app_assoc pre (chunkId c)). by apply readUInt32LE_le32. }
    rewrite Hread.
    assert (Hasc : toAscii buffer (length pre) (length pre + 4)
                   = toAscii (chunkId c) 0 4).
    { rewrite Hbuf. by apply toAscii_at. }
    rewrite Hasc, Hnot.
    replace (length pre + 8 + N.to_nat (declaredSize c))
      with (length (pre ++ encodeChunk c))
      by (rewrite length_app, length_encodeChunk by done; lia).
    apply IH; [done| |simpl in Hfuel; lia].
    rewrite Hbuf. unfold encodeChunk. by rewrite <- !app_assoc.
Qed.

Lemma length_chunks_le (chunks : list Chunk) :
  Forall skippable chunks ->
  length chunks <= length (concat (encodeChunk <$> chunks)).
Proof.
  induction 1 as [|c chunks Hc _ IH]; [done|].
  change (concat (encodeChunk <$> c :: chunks))
    with (encodeChunk c ++ concat (encodeChunk <$> chunks)).
  rewrite length_app, length_encodeChunk by done. simpl. lia.
Qed.

(** X1: a WAV file whose sample rate and byte rate sit at bytes 24 and 28,
    whose chunk list starts at byte 36 with any number of well-formed
    chunks other than [data], and whose [data] chunk is followed by at
    least one byte, is measured as the declared size of the [data] chunk
    divided by the byte rate. *)
Theorem wav_duration_read_back (front tail4 : list byte)
    (sampleRate byteRate dataSize : N) (chunks : list Chunk)
    (samples : list byte) :
  length front = 24 -> length tail4 = 4 ->
  (sampleRate < 4294967296)%N -> (byteRate < 4294967296)%N ->
  (dataSize < 4294967296)%N ->
  Forall skippable chunks -> samples <> [] ->
  parseWavDuration
    (wavFile front sampleRate byteRate tail4 chunks dataSize samples)
  = Some (divide dataSize byteRate).
Proof.
  intros Hfront Htail Hsr Hbr Hn Hok Hs.
  set (buffer := wavFile front sampleRate byteRate tail4 chunks dataSize
                         samples).
  assert (H24 : readUInt32LE buffer 24 = Some sampleRate).
  { subst buffer. unfold wavFile. rewrite <- Hfront.
    by apply readUInt32LE_le32. }
  assert (H28 : readUInt32LE buffer 28 = Some byteRate).
  { subst buffer. unfold wavFile.
    replace 28 with (length (front ++ le32 sampleRate))
      by (rewrite length_app, Hfront; done).
    rewrite (app_assoc front). by apply readUInt32LE_le32. }
  unfold parseWavDuration.
  replace 36 with (length (front ++ le32 sampleRate ++ le32 byteRate
                           ++ tail4))
    by (rewrite !length_app, Hfront, Htail; done).
  rewrite (findData_skips buffer sampleRate byteRate dataSize samples
             H24 H28 Hn Hs chunks _ _ Hok); [done| |].
  - subst buffer. unfold wavFile. by rewrite <- !app_assoc.
  - pose proof (length_chunks_le chunks Hok).
    subst buffer. unfold wavFile. rewrite !length_app.
    destruct samples; [done|]. simpl. lia.
Qed.

(** A 24 kHz mono 16-bit file with a [LIST] chunk before its data. *)
Lemma wav_duration_read_back_witness :
  parseWavDuration
    (wavFile (replicate 24 x00) 24000 48000 [x02; x00; x10; x00]
       [{| chunkId := [x4c; x49; x53; x54]; declaredSize := 3;
           body := [x01; x02; x03] |}]
       96000 [x01])
  = Some (Num (96000 # 48000)).
Proof.
  rewrite wav_duration_read_back.
  - reflexivity.
  - reflexivity.
  - reflexivity.
  - reflexivity.
  - reflexivity.
  - reflexivity.
  - repeat constructor.
  - discriminate.
Defined.

(** The loop never reads out of range and never runs out of fuel. *)
Lemma findData_settles (buffer : list byte) :
  forall fuel offset,
    length buffer <= offset + fuel + 8 -> 36 <= offset ->
    (exists cs sr br, findData fuel buffer offset = Found cs sr br)
    \/ findData fuel buffer offset = NoData.
Proof.
  induction fuel as [|fuel IH]; intros offset Hfuel Hoff;
    unfold findData; fold findData.
  - replace (_ <? _)%Z with false; [by right|].
    symmetry. apply Z.ltb_ge. lia.
  - destruct (_ <? _)%Z eqn:Hcond; [|by right].
    apply Z.ltb_lt in Hcond. cbv zeta.
    assert (Hin : forall i, i < length buffer -> is_Some (buffer !! i))
      by (intros i; apply lookup_lt_is_Some_2).
    assert (Hread : forall o, o + 4 <= length buffer ->
                              is_Some (readUInt32LE buffer o)).
    { intros o Ho. unfold readUInt32LE.
      destruct (Hin o) as [b0 ->]; [lia|].
      destruct (Hin (o + 1)) as [b1 ->]; [lia|].
      destruct (Hin (o + 2)) as [b2 ->]; [lia|].
      destruct (Hin (o + 3)) as [b3 ->]; [lia|]. done. }
    destruct (Hread (offset + 4)) as [cs ->]; [lia|].
    destruct (String.eqb _ _).
    + destruct (Hread 24) as [sr ->]; [lia|].
      destruct (Hread 28) as [br ->]; [lia|]. left. by exists cs, sr, br.
    + apply IH; lia.
Qed.

(** X2: [parseWavDuration] returns a number for every buffer: the loop
    ends, and no read leaves the buffer, so the [catch] branch is never
    taken. A buffer of at most 44 bytes - such as a WAV file that has its
    44-byte header and no sample - is given the estimate
    [byteLength / 15]. *)
Theorem wav_duration_total (wavBuffer : list byte) :
  findData (length wavBuffer) wavBuffer 36 <> Threw
  /\ is_Some (parseWavDuration wavBuffer)
  /\ (length wavBuffer <= 44 ->
      parseWavDuration wavBuffer = Some (estimate wavBuffer)).
Proof.
  pose proof (findData_settles wavBuffer (length wavBuffer) 36
                ltac:(lia) ltac:(lia)) as Hs.
  split; [|split].
  - by destruct Hs as [(cs & sr & br & ->) | ->].
  - unfold parseWavDuration.
    by destruct Hs as [(cs & sr & br & ->) | ->].
  - intros Hlen. unfold parseWavDuration.
    assert (Hcond : (Z.of_nat 36 <? Z.of_nat (length wavBuffer) - 8)%Z
                    = false) by (apply Z.ltb_ge; lia).
    destruct (length wavBuffer) as [|fuel] eqn:E;
      unfold findData; fold findData; rewrite E, Hcond; done.
Qed.

(** A canonical header and no sample: 44 bytes, estimated at 44/15 s. *)
Lemma wav_duration_total_witness :
  parseWavDuration
    (wavFile (replicate 24 x00) 24000 48000 [x02; x00; x10; x00] [] 0 [])
  = Some (Num (44 # 15)).
Proof.
  rewrite (proj2 (proj2 (wav_duration_total _))).
  - reflexivity.
  - simpl. lia.
Defined.

End WavProps.

(* ===================================================================== *)
(** ** More on the tracker                                                *)
(* ===================================================================== *)

Module TrackerProps.
Import Creator.

Lemma occurrences_app res l1 l2 :
  occurrences res (l1 ++ l2) = occurrences res l1 + occurrences res l2.
Proof. unfold occurrences. by rewrite filter_app, length_app. Qed.

Lemma occurrences_cons res r l :
  occurrences res (r :: l)
  = (if decide (r = res) then 1 else 0) + occurrences res l.
Proof.
  unfold occurrences. rewrite filter_cons. by destruct (decide (r = res)).
Qed.

Lemma occurrences_0 res l : occurrences res l = 0 <-> res ∉ l.
Proof.
  induction l as [|r l IH].
  - split; [intros _; apply not_elem_of_nil | done].
  - rewrite occurrences_cons, not_elem_of_cons.
    destruct (decide (r = res)) as [->|Hne]; simpl.
    + split; [done | intros [? _]; done].
    + rewrite IH. split; [intros ?; split; [congruence | done] | tauto].
Qed.

(** What the fan-out loop of [updateProgress] leaves in one response. *)
Lemma foldl_send_written res ev conns :
  forall t,
    let t' := foldl (fun t r => if decide (r ∈ ended t) then t
                                else sendEvent r ev t) t conns in
    ended t' = ended t /\ connections t' = connections t
    /\ writtenTo res t'
       = writtenTo res t
         ++ (if decide (res ∈ ended t) then []
             else replicate (occurrences res conns) (Data ev)).
Proof.
  induction conns as [|r conns IH]; intros t; simpl.
  - split; [done|]. split; [done|].
    rewrite occurrences_cons || unfold occurrences; simpl.
    destruct (decide _); by rewrite app_nil_r.
  - destruct (decide (r ∈ ended t)) as [Hr | Hr].
    + destruct (IH t) as (He & Hc & Hw). split; [done|]. split; [done|].
      rewrite Hw, occurrences_cons.
      destruct (decide (res ∈ ended t)) as [|Hres]; [done|].
      destruct (decide (r = res)) as [->|]; [done | done].
    + destruct (IH (sendEvent r ev t)) as (He & Hc & Hw).
      split; [done|]. split; [done|].
      rewrite Hw. unfold sendEvent.
      change (writtenTo res (write r (Data ev) t))
        with (writtenTo res (write r (Data ev) t)).
      rewrite CreatorProps.writtenTo_write, occurrences_cons.
      simpl ended.
      destruct (decide (res ∈ ended t)) as [|Hres];
        destruct (decide (r = res)) as [->|]; simpl;
        rewrite <- ?app_assoc, ?app_nil_r; done.
Qed.

(** X3: [updateProgress] writes the event to the responses registered
    under the event's video id that have not been ended, once for each
    registration, and writes nothing to any other response. *)
Theorem updateProgress_fan_out (ev : ProgressEvent) (t : Tracker)
    (res : nat) :
  writtenTo res (updateProgress ev t)
  = writtenTo res t
    ++ (if decide (res ∈ ended t) then []
        else replicate (occurrences res (subscribers (videoId ev) t))
                       (Data ev)).
Proof.
  unfold updateProgress, subscribers.
  destruct (foldl_send_written res ev
              (default [] (connections t !! videoId ev)) t)
    as (_ & _ & Hw).
  exact Hw.
Qed.

(** *** Ended responses *)

Lemma ended_write r c t : ended (write r c t) = ended t.
Proof. done. Qed.

Lemma ended_updateProgress ev t : ended (updateProgress ev t) = ended t.
Proof.
  unfold updateProgress. simpl.
  by destruct (foldl_send_written 0 ev
                 (default [] (connections t !! videoId ev)) t) as (-> & _).
Qed.

Lemma connections_updateProgress ev t :
  connections (updateProgress ev t) = connections t.
Proof.
  unfold updateProgress. simpl.
  by destruct (foldl_send_written 0 ev
                 (default [] (connections t !! videoId ev)) t)
    as (_ & -> & _).
Qed.

Lemma ended_removeConnection v r t :
  ended (removeConnection v r t) = ended t.
Proof. unfold removeConnection. by destruct (connections t !! v). Qed.

(** No method takes a response out of the ended ones. *)
Lemma ended_applyOp res t op : res ∈ ended t -> res ∈ ended (applyOp t op).
Proof.
  intros Hin. destruct op as [v r|v r|r|ev|k|v|]; cbn [applyOp].
  - done.
  - unfold onClose. simpl. by rewrite ended_removeConnection.
  - unfold heartbeat. by repeat destruct (decide _).
  - by rewrite ended_updateProgress.
  - unfold fireTimer, cleanup. destruct (timers t !! k); [|done]. simpl.
    destruct (connections t !! _); [|done]. simpl. set_solver.
  - unfold closeConnections, cleanup.
    destruct (connections t !! v); [|done]. simpl. set_solver.
  - unfold closeAll. simpl. set_solver.
Qed.

(** X4: once a response has been ended, no method of the tracker other
    than a new [addConnection] for that very response writes to it again,
    and it stays ended. *)
Theorem ended_response_is_left_alone (res : nat) (ops : list TrackerOp)
    (t : Tracker) :
  res ∈ ended t ->
  Forall (fun op => forall v, op <> OpAdd v res) ops ->
  writtenTo res (foldl applyOp t ops) = writtenTo res t
  /\ res ∈ ended (foldl applyOp t ops).
Proof.
  revert t. induction ops as [|op ops IH]; intros t Hin Hops; [done|].
  apply Forall_cons in Hops as [Hop Hops]. simpl.
  destruct (IH (applyOp t op) (ended_applyOp res t op Hin) Hops)
    as [Hw He].
  split; [|done]. rewrite Hw. clear IH Hw He Hops.
  destruct op as [v r|v r|r|ev|k|v|]; cbn [applyOp].
  - assert (r <> res) by (intros ->; by apply (Hop v)).
    unfold addConnection, sendEvent.
    change (writtenTo res (write r (Data (connectedEvent v))
                             (write r (Head 200) t)) = writtenTo res t).
    rewrite !CreatorProps.writtenTo_write, !decide_False by done.
    by rewrite !app_nil_r.
  - unfold writtenTo, onClose, removeConnection. simpl.
    by destruct (connections t !! v).
  - unfold heartbeat. destruct (decide _); [|done].
    destruct (decide (r ∈ ended t)) as [|Hr]; [done|].
    rewrite CreatorProps.writtenTo_write.
    destruct (decide (r = res)) as [->|]; [done | by rewrite app_nil_r].
  - rewrite updateProgress_fan_out, decide_True by done.
    by rewrite app_nil_r.
  - unfold writtenTo, fireTimer, cleanup.
    destruct (timers t !! k); [|done]. simpl.
    by destruct (connections t !! _).
  - unfold writtenTo, closeConnections, cleanup.
    by destruct (connections t !! v).
  - done.
Qed.

(** A subscriber whose job has finished and whose stream was ended by the
    clean-up timer gets neither a later event nor a heartbeat. *)
Lemma ended_response_is_left_alone_witness :
  let t := fireTimer 0
             (updateProgress (failedEvent 3 OtherValue)
                (addConnection 3 7 emptyTracker)) in
  writtenTo 7 (foldl applyOp t
                 [OpUpdate (connectedEvent 3); OpHeartbeat 7])
  = writtenTo 7 t.
Proof.
  intros t.
  refine (proj1 (ended_response_is_left_alone 7 _ t _ _)).
  - vm_compute. set_solver.
  - repeat constructor; intros v; discriminate.
Defined.

(** *** The connections map *)

Lemma connections_addConnection v res t :
  connections (addConnection v res t)
  = <[v := subscribers v t ++ [res]]> (connections t).
Proof. done. Qed.

Lemma removeFirst_snoc res l :
  res ∉ l -> removeFirst res (l ++ [res]) = l.
Proof.
  induction l as [|r l IH]; intros Hnot; simpl.
  - by rewrite decide_True.
  - apply not_elem_of_cons in Hnot as [Hne Hnot].
    rewrite decide_False by done. by rewrite IH.
Qed.

(** X5: closing a response that was just registered gives back the
    connections map as it was before the registration (so the video is
    listed by [getActiveVideos] afterwards exactly if it was before),
    provided the map held no empty list and the response was not
    registered under that video already. *)
Theorem register_then_close (v res : nat) (t : Tracker) :
  noEmptyEntry t -> res ∉ subscribers v t ->
  connections (onClose v res (addConnection v res t)) = connections t
  /\ getActiveVideos (onClose v res (addConnection v res t))
     = getActiveVideos t.
Proof.
  intros Hne Hnot.
  assert (Hc : connections (onClose v res (addConnection v res t))
               = connections t).
  { unfold onClose. cbn [connections]. unfold removeConnection.
    rewrite !connections_addConnection, lookup_insert_eq.
    rewrite (removeFirst_snoc _ _ Hnot).
    unfold subscribers in *.
    destruct (connections t !! v) as [conns|] eqn:E; simpl.
    - destruct conns as [|r conns]; [by apply Hne in E|].
      simpl. rewrite insert_insert_eq. by apply insert_id.
    - rewrite delete_insert_eq. by apply delete_id. }
  split; [exact Hc|]. unfold getActiveVideos. by rewrite Hc.
Qed.

Lemma register_then_close_witness :
  connections (onClose 3 8 (addConnection 3 8 (addConnection 3 7 emptyTracker)))
  = connections (addConnection 3 7 emptyTracker).
Proof.
  refine (proj1 (register_then_close 3 8 (addConnection 3 7 emptyTracker)
                   _ _)).
  - intros v conns. rewrite connections_addConnection.
    intros H. apply lookup_insert_Some in H as [[_ <-] | [_ H]]; [|done].
    unfold subscribers. simpl. discriminate.
  - vm_compute. intros H. apply list_elem_of_In in H. simpl in H. lia.
Defined.

Lemma noEmptyEntry_same t t' :
  connections t' = connections t -> noEmptyEntry t -> noEmptyEntry t'.
Proof. unfold noEmptyEntry. by intros ->. Qed.

Lemma noEmptyEntry_delete v t t' :
  connections t' = delete v (connections t) ->
  noEmptyEntry t -> noEmptyEntry t'.
Proof.
  unfold noEmptyEntry. intros -> H u conns Hu.
  apply lookup_delete_Some in Hu as [_ Hu]. by apply (H u).
Qed.

Lemma noEmptyEntry_removeConnection v r t :
  noEmptyEntry t -> noEmptyEntry (removeConnection v r t).
Proof.
  intros H. unfold removeConnection.
  destruct (connections t !! v) as [conns|] eqn:E; [|done].
  destruct (removeFirst r conns) as [|r' l] eqn:Er.
  - by eapply noEmptyEntry_delete.
  - intros u cs. simpl. intros Hu.
    apply lookup_insert_Some in Hu as [[_ <-] | [_ Hu]]; [done|].
    by apply (H u).
Qed.

Lemma noEmptyEntry_applyOp t op :
  noEmptyEntry t -> noEmptyEntry (applyOp t op).
Proof.
  intros H. destruct op as [v r|v r|r|ev|k|v|]; cbn [applyOp].
  - intros u cs. rewrite connections_addConnection. intros Hu.
    apply lookup_insert_Some in Hu as [[_ <-] | [_ Hu]].
    + by destruct (subscribers v t).
    + by apply (H u).
  - unfold onClose.
    apply (noEmptyEntry_same (removeConnection v r t)); [done|].
    by apply noEmptyEntry_removeConnection.
  - unfold heartbeat. repeat destruct (decide _); try done.
  - eapply noEmptyEntry_same; [apply connections_updateProgress | done].
  - unfold fireTimer, cleanup. destruct (timers t !! k) as [v|]; [|done].
    destruct (connections t !! v) eqn:E; [|done].
    by eapply noEmptyEntry_delete.
  - unfold closeConnections, cleanup.
    destruct (connections t !! v) eqn:E; [|done].
    by eapply noEmptyEntry_delete.
  - intros u cs. simpl. by rewrite lookup_empty.
Qed.

(** X6: whatever sequence of its methods and callbacks runs on a new
    tracker, no key of the connections map ever holds an empty list, so
    [getActiveVideos] lists exactly the videos that have at least one
    registered response. *)
Theorem active_videos_have_subscribers (ops : list TrackerOp) (v : nat) :
  let t := foldl applyOp emptyTracker ops in
  noEmptyEntry t
  /\ (v ∈ getActiveVideos t <-> exists res, res ∈ subscribers v t).
Proof.
  intros t.
  assert (Hne : noEmptyEntry t).
  { subst t.
    assert (H0 : noEmptyEntry emptyTracker).
    { intros u cs. simpl. by rewrite lookup_empty. }
    revert H0. generalize emptyTracker.
    induction ops as [|op ops IH]; intros t0 H0; [done|].
    cbn [foldl]. apply IH. by apply noEmptyEntry_applyOp. }
  split; [exact Hne|].
  unfold getActiveVideos, subscribers. rewrite elem_of_dom. split.
  - intros [conns Hc]. rewrite Hc. simpl.
    destruct conns as [|r conns]; [by apply Hne in Hc|].
    exists r. apply list_elem_of_here.
  - intros [res Hres]. destruct (connections t !! v); [done|].
    simpl in Hres. by apply not_elem_of_nil in Hres.
Qed.

(** *** What a subscriber receives *)

Lemma dataOf_app l1 l2 : dataOf (l1 ++ l2) = dataOf l1 ++ dataOf l2.
Proof. apply omap_app. Qed.

Lemma occurrences_removeFirst res r l :
  r <> res -> occurrences res (removeFirst r l) = occurrences res l.
Proof.
  intros Hne. induction l as [|x l IH]; [done|]. simpl.
  destruct (decide (x = r)) as [->|Hx].
  - rewrite occurrences_cons, decide_False by done. done.
  - by rewrite !occurrences_cons, IH.
Qed.

Lemma subscribers_addConnection u v r t :
  subscribers u (addConnection v r t)
  = if decide (u = v) then subscribers v t ++ [r] else subscribers u t.
Proof.
  unfold subscribers at 1. rewrite connections_addConnection.
  destruct (decide (u = v)) as [->|Hne].
  - by rewrite lookup_insert_eq.
  - by rewrite lookup_insert_ne.
Qed.

Lemma subscribers_removeConnection u v r t :
  subscribers u (removeConnection v r t)
  = if decide (u = v) then removeFirst r (subscribers v t)
    else subscribers u t.
Proof.
  unfold subscribers, removeConnection.
  destruct (connections t !! v) as [conns|] eqn:E; simpl.
  - destruct (removeFirst r conns) as [|x l] eqn:Er; simpl.
    + destruct (decide (u = v)) as [->|Hne].
      * by rewrite lookup_delete_eq.
      * by rewrite lookup_delete_ne.
    + destruct (decide (u = v)) as [->|Hne].
      * by rewrite lookup_insert_eq.
      * by rewrite lookup_insert_ne.
  - destruct (decide (u = v)) as [->|Hne]; [by rewrite E | done].
Qed.

Lemma delivered_refl v res t : subscribed v res t -> delivered v res t t.
Proof.
  intros H. split; [done|]. exists []. by rewrite !app_nil_r.
Qed.

Lemma delivered_updateProgress v res ev t :
  subscribed v res t -> delivered v res t (updateProgress ev t).
Proof.
  intros (H1 & H0 & He). split.
  - unfold subscribed, subscribers.
    by rewrite connections_updateProgress, ended_updateProgress.
  - exists [ev]. split; [apply CreatorProps.emitted_updateProgress|].
    rewrite updateProgress_fan_out, decide_False, dataOf_app by done.
    f_equal. rewrite filter_cons, filter_nil.
    destruct (decide (videoId ev = v)) as [->|Hne].
    + by rewrite H1.
    + by rewrite (H0 _ Hne).
Qed.

Lemma delivered_addConnection v res v' r t :
  r <> res -> subscribed v res t ->
  delivered v res t (addConnection v' r t).
Proof.
  intros Hne (H1 & H0 & He). split.
  - split; [|split; [|done]].
    + rewrite subscribers_addConnection. destruct (decide (v = v')) as [<-|].
      * rewrite occurrences_app, occurrences_cons, decide_False by done.
        rewrite H1. done.
      * done.
    + intros u Hu. rewrite subscribers_addConnection.
      destruct (decide (u = v')) as [->|]; [|by apply H0].
      rewrite occurrences_app, occurrences_cons, decide_False by done.
      rewrite (H0 _ Hu). done.
  - exists []. split; [by rewrite app_nil_r|].
    unfold addConnection, sendEvent.
    change (dataOf (writtenTo res (write r (Data (connectedEvent v'))
                                     (write r (Head 200) t)))
            = dataOf (writtenTo res t) ++ filter (fun ev => videoId ev = v) []).
    rewrite !CreatorProps.writtenTo_write, !decide_False by done.
    by rewrite filter_nil, !app_nil_r.
Qed.

Lemma delivered_onClose v res v' r t :
  r <> res -> subscribed v res t -> delivered v res t (onClose v' r t).
Proof.
  intros Hne (H1 & H0 & He). split.
  - assert (Hs : forall u, subscribers u (onClose v' r t)
                           = subscribers u (removeConnection v' r t))
      by done.
    split; [|split].
    + rewrite Hs, subscribers_removeConnection.
      destruct (decide (v = v')) as [<-|]; [|done].
      by rewrite occurrences_removeFirst.
    + intros u Hu. rewrite Hs, subscribers_removeConnection.
      destruct (decide (u = v')) as [->|]; [|by apply H0].
      rewrite occurrences_removeFirst by done. by apply H0.
    + unfold onClose. cbn [ended]. by rewrite ended_removeConnection.
  - exists []. split.
    + by rewrite CreatorProps.emitted_onClose, app_nil_r.
    + rewrite filter_nil, app_nil_r. f_equal.
      unfold writtenTo, onClose, removeConnection. simpl.
      by destruct (connections t !! v').
Qed.

Lemma delivered_heartbeat v res r t :
  subscribed v res t -> delivered v res t (heartbeat r t).
Proof.
  intros Hsub. unfold heartbeat.
  destruct (decide (r ∈ heartbeats t)); [|by apply delivered_refl].
  destruct (decide (r ∈ ended t)).
  - split; [done|]. exists []. by rewrite !app_nil_r.
  - split; [done|]. exists []. split; [by rewrite app_nil_r|].
    rewrite CreatorProps.writtenTo_write, dataOf_app, filter_nil.
    f_equal. by destruct (decide (r = res)).
Qed.

Lemma delivered_trans v res t1 t2 t3 :
  delivered v res t1 t2 -> delivered v res t2 t3 -> delivered v res t1 t3.
Proof.
  intros (_ & n1 & E1 & D1) (Hs & n2 & E2 & D2). split; [done|].
  exists (n1 ++ n2). split.
  - by rewrite E2, E1, app_assoc.
  - by rewrite D2, D1, filter_app, app_assoc.
Qed.

Lemma delivered_fireTimer v res k t :
  timers t !! k <> Some v -> subscribed v res t ->
  delivered v res t (fireTimer k t).
Proof.
  intros Hk Hsub. unfold fireTimer.
  destruct (timers t !! k) as [u|] eqn:Ek; [|by apply delivered_refl].
  assert (Hu : u <> v) by congruence.
  destruct Hsub as (H1 & H0 & He).
  assert (Hsub' : subscribed v res (cleanup u t)).
  { unfold cleanup. destruct (connections t !! u) as [conns|] eqn:Eu;
      [|done].
    split; [|split].
    - unfold subscribers. cbn [connections].
      by rewrite lookup_delete_ne.
    - intros x Hx. unfold subscribers. cbn [connections].
      destruct (decide (x = u)) as [->|Hxu].
      + by rewrite lookup_delete_eq.
      + rewrite lookup_delete_ne by done. by apply H0.
    - cbn [ended]. apply not_elem_of_union. split; [|done].
      rewrite elem_of_list_to_set. apply occurrences_0.
      specialize (H0 u Hu). unfold subscribers in H0. by rewrite Eu in H0. }
  split.
  - destruct Hsub' as (H1' & H0' & He'). by split.
  - exists []. rewrite !app_nil_r. split.
    + unfold cleanup. by destruct (connections t !! u).
    + unfold writtenTo, cleanup. by destruct (connections t !! u).
Qed.

Lemma delivered_step w v res s l :
  spares v res (tracker s) l -> subscribed v res (tracker s) ->
  delivered v res (tracker s) (tracker (step w s l)).
Proof.
  intros Hl Hsub.
  destruct l as [si cfg|k|v' r|v' r|r|k|v']; cbn [step].
  - unfold addToQueue. cbv zeta. destruct (_ =? _).
    + rewrite CreatorProps.tracker_processQueue. by apply delivered_refl.
    + by apply delivered_refl.
  - unfold resume.
    destruct (running s !! k) as [wk|]; [|by apply delivered_refl].
    destruct (rest wk) as [|a more].
    + rewrite CreatorProps.tracker_finally. by apply delivered_refl.
    + destruct a as [ev|c|c]; cbn [tracker withRunning withTracker].
      * by apply delivered_updateProgress.
      * destruct (outcome w (job wk) c).
        -- rewrite CreatorProps.tracker_finally.
           cbn [tracker withTracker]. by apply delivered_updateProgress.
        -- cbn [tracker withRunning]. rewrite CreatorProps.tracker_effect.
           by apply delivered_refl.
      * by apply delivered_refl.
  - by apply delivered_addConnection.
  - by apply delivered_onClose.
  - by apply delivered_heartbeat.
  - by apply delivered_fireTimer.
  - by apply delivered_refl.
Qed.

(** X7: a subscriber that is registered once under a video and whose
    stream is open receives, in the order in which they are sent, exactly
    the events of that video - and no event of another video - for as long
    as its stream is neither closed nor registered again nor ended by the
    clean-up timer of its video, whatever else the creator, other
    subscribers and other timers do. *)
Theorem subscriber_gets_every_event (w : World) (v res : nat)
    (ls : list Label) (s : State) :
  subscribed v res (tracker s) ->
  keptOpen w v res ls s ->
  dataOf (writtenTo res (tracker (run w ls s)))
  = dataOf (writtenTo res (tracker s))
    ++ filter (fun ev => videoId ev = v)
              (drop (length (events s)) (events (run w ls s)))
  /\ subscribed v res (tracker (run w ls s)).
Proof.
  intros Hsub Hls.
  assert (H : delivered v res (tracker s) (tracker (run w ls s))).
  { revert s Hsub Hls. induction ls as [|l ls IH]; intros s Hsub Hls.
    - by apply delivered_refl.
    - destruct Hls as [Hl Hls]. cbn [run foldl].
      pose proof (delivered_step w v res s l Hl Hsub) as Hd.
      eapply delivered_trans; [exact Hd|]. apply IH; [by destruct Hd|done]. }
  destruct H as (Hs & new & He & Hd). split; [|done].
  unfold events. rewrite He, drop_app_length. exact Hd.
Qed.

Lemma unseen_addConnection v res t :
  unseen res t ->
  subscribed v res (addConnection v res t)
  /\ dataOf (writtenTo res (addConnection v res t)) = [connectedEvent v].
Proof.
  intros (H0 & He & Hw). split.
  - split; [|split; [|done]].
    + rewrite subscribers_addConnection, decide_True by done.
      rewrite occurrences_app, H0, occurrences_cons, decide_True by done.
      done.
    + intros u Hu. rewrite subscribers_addConnection, decide_False by done.
      apply H0.
  - rewrite CreatorProps.writtenTo_addConnection. unfold writtenTo.
    by rewrite Hw.
Qed.

(** Two jobs of one scene each are submitted; the second submission
    returns its id while the first job waits for its speech. A subscriber
    then connects for the second job and stays. The first job completes,
    the second is started and waits for its speech, and the clean-up timer
    of the first job fires; then the second job is processed. The
    subscriber is sent the connection message and then the seven events of
    the second job. *)
Lemma subscriber_gets_every_event_witness :
  let s := run calm [Submit (scenesOf 1) plainConfig; Resume 0; Resume 0;
                     Submit (scenesOf 1) plainConfig; Connect 1 5] boot in
  let ls := replicate 19 (Resume 0) ++ [Timer 0]
            ++ replicate 17 (Resume 0) in
  stage <$> dataOf (writtenTo 5 (tracker (run calm ls s)))
  = queued :: successStages 1.
Proof.
  intros s ls.
  destruct (subscriber_gets_every_event calm 1 5 ls s) as [Hd _].
  - subst s. cbn [run foldl step]. cbn [tracker withTracker].
    apply unseen_addConnection. vm_compute. repeat split.
    set_solver.
  - vm_compute. repeat split; discriminate.
  - rewrite Hd. vm_compute. reflexivity.
Defined.

End TrackerProps.

(* ===================================================================== *)
(** ** More on the creator                                                *)
(* ===================================================================== *)

Module CreatorMore.
Import Creator.

(** *** [listAllVideos] *)





(** *** [deleteVideo] and [getVideo] *)



End CreatorMore.

(* ===================================================================== *)
(** ** More on the timeline                                               *)
(* ===================================================================== *)

Module TimelineMore.
Import Timeline Effects.
#[local] Open Scope Q_scope.

(** *** Scene starts *)

Lemma startFrame_next scenes fps i s :
  scenes !! i = Some s ->
  startFrame scenes fps (S i) == startFrame scenes fps i + audioFrames s fps.
Proof.
  intros Hs. unfold startFrame, audioFrames.
  rewrite <- Nat.add_1_r, (TimelineProps.sumDurations_step _ _ _ Hs). ring.
Qed.

Lemma startFrame_beyond scenes fps i :
  (length scenes <= i)%nat ->
  startFrame scenes fps i = startFrame scenes fps (length scenes).
Proof.
  intros Hi. unfold startFrame, sumDurations.
  by rewrite !firstn_all2 by lia.
Qed.

(** X11: the first scene starts at frame 0 and every further scene starts
    where the audio of the scene before it ends; so with durations and a
    frame rate that are not negative, a later scene never starts before an
    earlier one. *)
Theorem scene_starts_are_contiguous (scenes : list Scene) (fps : Q) :
  startFrame scenes fps 0 == 0
  /\ (forall i s, scenes !! i = Some s ->
        startFrame scenes fps (S i)
        == startFrame scenes fps i + audioFrames s fps)
  /\ (0 <= fps ->
      Forall (fun s => 0 <= duration (audio s)) scenes ->
      forall i k, (i <= k)%nat ->
                  startFrame scenes fps i <= startFrame scenes fps k).
Proof.
  split; [reflexivity|]. split; [apply startFrame_next|].
  intros Hfps Hdur i k Hik.
  induction Hik as [|k Hik IH]; [apply Qle_refl|].
  apply Qle_trans with (startFrame scenes fps k); [exact IH|].
  destruct (scenes !! k) as [s|] eqn:Hs.
  - rewrite (startFrame_next _ _ _ _ Hs).
    assert (0 <= audioFrames s fps).
    { unfold audioFrames. apply Qmult_le_0_compat; [|done].
      rewrite Forall_forall in Hdur. apply Hdur.
      apply list_elem_of_lookup. eauto. }
    lra.
  - apply lookup_ge_None in Hs.
    rewrite (startFrame_beyond _ _ k), (startFrame_beyond _ _ (S k)) by lia.
    apply Qle_refl.
Qed.

Lemma scene_starts_are_contiguous_witness :
  startFrame [sceneOf 4; sceneOf 6; sceneOf 2] 30 1
  <= startFrame [sceneOf 4; sceneOf 6; sceneOf 2] 30 2.
Proof.
  apply (proj2 (proj2 (scene_starts_are_contiguous
                         [sceneOf 4; sceneOf 6; sceneOf 2] 30))).
  - discriminate.
  - repeat constructor; discriminate.
  - lia.
Defined.

(** *** Interpolations *)

Lemma interpolate_extend x a b c d :
  a < b -> ~ c == d ->
  interpolate x (a, b) (c, d) extend extend
  = Some ((x - a) / (b - a) * (d - c) + c).
Proof.
  intros Hab Hcd. unfold interpolate.
  rewrite (proj2 (TimelineProps.Qltb_true a b) Hab). simpl.
  rewrite !andb_false_r.
  destruct (Qeq_bool c d) eqn:E; [|done].
  apply Qeq_bool_iff in E. done.
Qed.

(** A value that falls from [c] to 0 over the frames 0 to [T] and stays at
    0 afterwards. *)
Lemma interpolate_fall c T f :
  0 < T -> 0 <= f -> ~ c == 0 ->
  exists v, interpolate f (0, T) (c, 0) extend clamp = Some v
            /\ v == c * (1 - entryRamp T f).
Proof.
  intros HT Hf Hc. unfold interpolate, entryRamp.
  rewrite (proj2 (TimelineProps.Qltb_true 0 T) HT).
  rewrite (proj2 (TimelineProps.Qltb_false f 0) Hf). simpl.
  assert (Qeq_bool c 0 = false) as ->.
  { destruct (Qeq_bool c 0) eqn:E; [|done].
    apply Qeq_bool_iff in E. done. }
  destruct (Qltb T f) eqn:E; simpl.
  - apply TimelineProps.Qltb_true in E. eexists; split; [reflexivity|].
    rewrite TimelineProps.clamp01_above.
    + field. lra.
    + apply Qle_shift_div_l; lra.
  - apply TimelineProps.Qltb_false in E. eexists; split; [reflexivity|].
    rewrite TimelineProps.clamp01_inside.
    + field. lra.
    + by apply TimelineProps.div_nonneg.
    + by apply TimelineProps.div_le_1.
Qed.

(** *** Ken Burns *)

(** X12: with the effect switched off (or not configured) the Ken Burns
    style is empty. With it switched on, for a scene of positive length and
    a frame inside the scene, the scale grows linearly from 1 to 1.2 and
    both translations fall, together, linearly from 0% to -10%, as the
    frame goes from the scene's start to its end. *)
Theorem kenBurns_linear (config : EffectsConfig) (f D : Q) :
  (nullish (kenBurnsEffect config) false = false ->
   getKenBurnsStyle config f D = Some None)
  /\ (kenBurnsEffect config = Some true -> 0 < D -> 0 <= f -> f <= D ->
      exists tr,
        getKenBurnsStyle config f D = Some (Some tr)
        /\ scaleBy tr == 1 + (2 # 10) * (f / D)
        /\ translateXBy tr == -10 * (f / D)
        /\ translateYBy tr == translateXBy tr
        /\ 1 <= scaleBy tr /\ scaleBy tr <= 12 # 10
        /\ -10 <= translateXBy tr /\ translateXBy tr <= 0).
Proof.
  split.
  - intros Hoff. unfold getKenBurnsStyle. by rewrite Hoff.
  - intros Hon HD Hf0 HfD. unfold getKenBurnsStyle. rewrite Hon.
    cbn [nullish negb]. cbv zeta.
    rewrite !interpolate_extend by (try reflexivity; discriminate).
    cbn [mbind option_bind].
    eexists; split; [reflexivity|]. cbn [scaleBy translateXBy translateYBy].
    assert (H0 : 0 <= f / D) by (by apply TimelineProps.div_nonneg).
    assert (H1 : f / D <= 1) by (by apply TimelineProps.div_le_1).
    set (p := f / D) in *.
    split; [field|]. split; [field|]. split; [reflexivity|].
    assert (E1 : (p - 0) / (1 - 0) * ((12 # 10) - 1) + 1 == 1 + (2 # 10) * p)
      by field.
    assert (E2 : (p - 0) / (1 - 0) * (-10 - 0) + 0 == -10 * p) by field.
    rewrite E1, E2. repeat split; lra.
Qed.

Lemma kenBurns_linear_witness :
  exists tr,
    getKenBurnsStyle {| kenBurnsEffect := Some true;
                        captionAnimation := None |} 60 120 = Some (Some tr)
    /\ translateXBy tr == -5 /\ translateYBy tr == -5.
Proof.
  destruct (proj2 (kenBurns_linear {| kenBurnsEffect := Some true;
                                      captionAnimation := None |} 60 120))
    as (tr & Htr & _ & Hx & Hy & _).
  - reflexivity.
  - reflexivity.
  - discriminate.
  - discriminate.
  - exists tr. split; [exact Htr|]. split.
    + rewrite Hx. reflexivity.
    + rewrite Hy, Hx. reflexivity.
Defined.

(** *** Caption animations *)

(** X13: from the page's first frame on, [fadeIn] gives an opacity that
    rises linearly from 0 to 1 over 15 frames and [slideUp] an offset that
    falls linearly from 50 px to 0 px over the same 15 frames; from frame
    15 on the caption is fully opaque and at rest. With no animation
    configured the style is empty. None of them throws. *)
Theorem caption_animation_settles (spring : Q -> Q -> Q)
    (config : EffectsConfig) (fps pageFrame : Q) :
  (nullish (captionAnimation config) noAnimation = noAnimation ->
   getCaptionAnimationStyle spring config fps pageFrame = Some Plain)
  /\ (captionAnimation config = Some fadeIn -> 0 <= pageFrame ->
      exists o,
        getCaptionAnimationStyle spring config fps pageFrame
        = Some (Opacity o)
        /\ o == entryRamp 15 pageFrame /\ 0 <= o /\ o <= 1
        /\ (15 <= pageFrame -> o == 1))
  /\ (captionAnimation config = Some slideUp -> 0 <= pageFrame ->
      exists y,
        getCaptionAnimationStyle spring config fps pageFrame
        = Some (TranslateY y)
        /\ y == 50 * (1 - entryRamp 15 pageFrame) /\ 0 <= y /\ y <= 50
        /\ (15 <= pageFrame -> y == 0)).
Proof.
  assert (H15 : 0 < 15) by reflexivity.
  pose proof (TimelineProps.clamp01_range (pageFrame / 15)) as [Hr0 Hr1].
  fold (entryRamp 15 pageFrame) in Hr0, Hr1.
  assert (Hfull : 15 <= pageFrame -> entryRamp 15 pageFrame == 1).
  { intros H. unfold entryRamp. apply TimelineProps.clamp01_above.
    apply Qle_shift_div_l; lra. }
  split; [|split].
  - intros Hn. unfold getCaptionAnimationStyle. by rewrite Hn.
  - intros Hfade Hpf. unfold getCaptionAnimationStyle. rewrite Hfade.
    cbn [nullish]. cbv zeta.
    destruct (TimelineProps.fadeIn_is_entryRamp 15 pageFrame H15 Hpf)
      as (o & Eo & Ho).
    rewrite Eo. cbn [mbind option_bind]. exists o.
    split; [done|]. split; [done|]. rewrite Ho.
    split; [done|]. split; [done|]. exact Hfull.
  - intros Hslide Hpf. unfold getCaptionAnimationStyle. rewrite Hslide.
    cbn [nullish]. cbv zeta.
    destruct (interpolate_fall 50 15 pageFrame H15 Hpf) as (y & Ey & Hy);
      [discriminate|].
    rewrite Ey. cbn [mbind option_bind]. exists y.
    split; [done|]. split; [done|]. rewrite Hy.
    split; [lra|]. split; [lra|]. intros H. rewrite (Hfull H). ring.
Qed.

Lemma caption_animation_settles_witness :
  exists y,
    getCaptionAnimationStyle (fun _ _ => 1)
      {| kenBurnsEffect := None; captionAnimation := Some slideUp |} 30 20
    = Some (TranslateY y) /\ y == 0.
Proof.
  destruct (proj2 (proj2 (caption_animation_settles (fun _ _ => 1)
              {| kenBurnsEffect := None; captionAnimation := Some slideUp |}
              30 20)))
    as (y & Ey & _ & _ & _ & H0).
  - reflexivity.
  - discriminate.
  - exists y. split; [exact Ey|]. apply H0. discriminate.
Defined.

(** *** The slide *)

(** X14: for the [slide] transition, with a positive transition length and
    a frame inside the scene, the opacity is that of [fade], and the scene
    is shifted to the right by 100% at its first frame, by linearly less
    until the transition length has passed, and not at all afterwards. *)
Theorem slide_offset (config : Config) (fps f D : Q) :
  transition config = Some slide ->
  0 < transitionDurationFrames config fps ->
  0 <= f -> f <= D ->
  exists st x,
    getTransitionStyle config fps f D = Some st
    /\ opacity st == Qmin (entryRamp (transitionDurationFrames config fps) f)
                          (exitRamp (transitionDurationFrames config fps) D f)
    /\ translateX st = Some x
    /\ x == 100 * (1 - entryRamp (transitionDurationFrames config fps) f).
Proof.
  intros Hslide HT Hf0 HfD. unfold getTransitionStyle.
  rewrite Hslide. cbv zeta. cbn [nullish].
  fold (transitionDurationFrames config fps).
  set (T := transitionDurationFrames config fps) in *.
  destruct (TimelineProps.fadeIn_is_entryRamp T f HT Hf0) as (a & Ea & Ha).
  destruct (TimelineProps.fadeOut_is_exitRamp T D f HT HfD) as (b & Eb & Hb).
  destruct (interpolate_fall 100 T f HT Hf0) as (x & Ex & Hx);
    [discriminate|].
  rewrite Ea, Eb. cbn [mbind option_bind]. rewrite Ex.
  cbn [mbind option_bind].
  eexists _, _. split; [reflexivity|]. cbn [opacity translateX].
  split; [by rewrite Ha, Hb|]. split; [reflexivity|].
  destruct (Qltb f T) eqn:E; [exact Hx|].
  apply TimelineProps.Qltb_false in E. unfold entryRamp.
  rewrite TimelineProps.clamp01_above; [ring|].
  apply Qle_shift_div_l; lra.
Qed.

Lemma slide_offset_witness :
  exists st x,
    getTransitionStyle
      {| paddingBack := None; transition := Some slide;
         transitionDuration := None |} 30 0 100 = Some st
    /\ translateX st = Some x /\ x == 100.
Proof.
  destruct (slide_offset
              {| paddingBack := None; transition := Some slide;
                 transitionDuration := None |} 30 0 100)
    as (st & x & Est & _ & Ex & Hx).
  - reflexivity.
  - reflexivity.
  - discriminate.
  - discriminate.
  - exists st, x. split; [exact Est|]. split; [exact Ex|].
    rewrite Hx. reflexivity.
Defined.

(** *** The length of the video *)

Lemma foldl_sum_acc (l : list Q) (a : Q) :
  foldl (fun total d => total + d) a l
  == a + foldl (fun total d => total + d) 0 l.
Proof.
  revert a. induction l as [|x l IH]; intros a; simpl.
  - ring.
  - rewrite (IH (a + x)), (IH (0 + x)). ring.
Qed.

Lemma foldl_sum_snoc (l : list Q) (x : Q) :
  foldl (fun total d => total + d) 0 (l ++ [x])
  == foldl (fun total d => total + d) 0 l + x.
Proof. rewrite foldl_app. simpl. reflexivity. Qed.

(** The durations recorded in the scenes: the speech lengths, the last one
    extended by the padding. *)
Lemma recorded_durations config (init : list Q) (last : Q) :
  imap (fun index d =>
          Creator.recordedDuration index (length (init ++ [last])) config d)
       (init ++ [last])
  = init ++ [Creator.recordedDuration (length init) (length init + 1)
                                      config last].
Proof.
  rewrite imap_app. f_equal.
  - rewrite <- (list_fmap_id init) at 2. rewrite <- imap_const.
    apply imap_ext. intros i x Hx. apply lookup_lt_Some in Hx.
    unfold Creator.recordedDuration. rewrite length_app. simpl.
    rewrite bool_decide_eq_false_2 by lia. done.
  - simpl. rewrite length_app, Nat.add_0_r. done.
Qed.

Lemma sum_of_scenes (f : nat -> Q -> Q) (l : list Q) (a : Q) :
  fold_left (fun acc curr => acc + duration (audio curr))
            (imap (fun index d => sceneOf (f index d)) l) a
  = foldl (fun total d => total + d) a (imap f l).
Proof.
  revert f a. induction l as [|x l IH]; intros f a; [done|].
  cbn [imap fold_left foldl]. rewrite <- IH. done.
Qed.

(** X16: for a job of at least one scene, the length [createShort] asks
    the renderer for is the speech of all scenes plus the padding counted
    twice (once, in the last scene's audio duration; once more, on the
    total), or the speech alone when no padding is configured; and it is
    the very length the composition gives to the last scene's sequence. *)
Theorem video_length (config : Creator.RenderConfig)
    (audioLengths : list Q) (fps : Q) :
  audioLengths <> [] ->
  Creator.totalDuration config audioLengths
  == foldl (fun total d => total + d) 0 audioLengths
     + (if truthy (Creator.paddingBack config)
        then 2 * (nullish (Creator.paddingBack config) 0 / 1000)
        else 0)
  /\ durationInFrames (Creator.recordedScenes config audioLengths)
                      (paddingOnly (Creator.paddingBack config)) fps
                      (length audioLengths - 1)
     == (Creator.durationMs config audioLengths / 1000) * fps.
Proof.
  intros Hne.
  destruct (exists_last Hne) as (init & last & ->).
  assert (Hsum :
    foldl (fun total d => total + d) 0
      (imap (fun index d =>
               Creator.recordedDuration index (length (init ++ [last]))
                                        config d) (init ++ [last]))
    == foldl (fun total d => total + d) 0 (init ++ [last])
       + (if truthy (Creator.paddingBack config)
          then nullish (Creator.paddingBack config) 0 / 1000 else 0)).
  { rewrite recorded_durations, !foldl_sum_snoc.
    unfold Creator.recordedDuration.
    rewrite bool_decide_eq_true_2 by lia. cbn [andb].
    destruct (truthy (Creator.paddingBack config)); ring. }
  split.
  - unfold Creator.totalDuration. cbv zeta.
    destruct (truthy (Creator.paddingBack config)); rewrite Hsum; ring.
  - unfold durationInFrames, Creator.durationMs, Creator.totalDuration.
    cbv zeta. unfold Creator.recordedScenes.
    rewrite length_imap, length_app. cbn [length].
    replace (length init + 1 - 1 + 1)%nat with (length init + 1)%nat by lia.
    unfold sumDurations.
    rewrite firstn_all2 by (rewrite length_imap, length_app; simpl; lia).
    rewrite sum_of_scenes.
    replace (length init + 1)%nat with (length (init ++ [last]))
      by (rewrite length_app; simpl; lia).
    cbn [paddingOnly Timeline.paddingBack].
    assert ((Z.of_nat (length (init ++ [last]) - 1)
             =? Z.of_nat (length (init ++ [last])) - 1)%Z = true) as ->.
    { apply Z.eqb_eq. rewrite length_app. simpl. lia. }
    rewrite andb_true_r.
    destruct (truthy (Creator.paddingBack config)); field.
Qed.

Lemma video_length_witness :
  Creator.totalDuration
    {| Creator.paddingBack := Some 1500; Creator.videoSource := None;
       Creator.plexMovieId := None |} [4; 6]
  == 13.
Proof.
  rewrite (proj1 (video_length
                    {| Creator.paddingBack := Some 1500;
                       Creator.videoSource := None;
                       Creator.plexMovieId := None |} [4; 6] 30
                    ltac:(discriminate))).
  reflexivity.
Defined.

End TimelineMore.

(* ===================================================================== *)
(** ** Properties of the settings                                         *)
(* ===================================================================== *)

Module SettingsProps.
Import Settings.

Lemma over_own {A} (f : Field A) : over f (dropUndefined f) = f.
Proof. by destruct f. Qed.

Lemma over_mask (f : Field string) :
  over f (dropUndefined (mask f)) = if truthy f then Defined "***" else f.
Proof. unfold mask. by destruct (truthy f). Qed.

Lemma assign_own {A} (f : Field A) (c : option A) :
  assign (dropUndefined f) c = assign f c.
Proof. by destruct f. Qed.

Lemma truthy_dropUndefined (f : Field string) :
  truthy (dropUndefined f) = truthy f.
Proof. by destruct f. Qed.

Lemma dropUndefined_mask (f : Field string) :
  dropUndefined (mask (dropUndefined f)) = dropUndefined (mask f).
Proof. unfold mask. by rewrite truthy_dropUndefined. Qed.

Lemma dropUndefined_idemp {A} (f : Field A) :
  dropUndefined (dropUndefined f) = dropUndefined f.
Proof. by destruct f. Qed.

Lemma truthy_mask (f : Field string) : truthy (mask f) = truthy f.
Proof. unfold mask. by destruct (truthy f). Qed.

Lemma saveSettings_settings w (m : Manager) :
  settings (saveSettings w m) = settings m.
Proof. by destruct w. Qed.

Lemma saveSettings_config w (m : Manager) :
  config (saveSettings w m) = config m.
Proof. by destruct w. Qed.

Lemma updateSettings_settings w new (m : Manager) :
  settings (updateSettings w new m).1 = spread (settings m) new.
Proof. unfold updateSettings. cbn. apply saveSettings_settings. Qed.

Lemma updateSettings_config w new (m : Manager) :
  config (updateSettings w new m).1 = applyToConfig new (config m).
Proof. unfold updateSettings. cbn. by rewrite saveSettings_config. Qed.

Lemma put_manager w body (srv : Server) :
  settingsManager (putSettingsRoute w body srv).1
  = (updateSettings w body (settingsManager srv)).1.
Proof.
  unfold putSettingsRoute.
  destruct (updateSettings w body (settingsManager srv)) as [m returned].
  destruct (ttsService srv) as [v|]; [|done].
  destruct (if truthy (veniceApiKey body) then _ else _); done.
Qed.

Lemma put_service_key w body (srv : Server) (v : VeniceAI) :
  ttsService srv = Some v ->
  truthy (veniceApiKey body) = true ->
  apiKey <$> ttsService (putSettingsRoute w body srv).1
  = Some (valueOf (veniceApiKey body)).
Proof.
  intros Hv Hkey. unfold putSettingsRoute.
  destruct (updateSettings w body (settingsManager srv)) as [m returned].
  rewrite Hv, Hkey. unfold setApiKey.
  destruct (veniceApiKey body) as [| |key]; try done.
  cbn [truthy valueOf] in *.
  destruct (String.eqb key EmptyString); [done|].
  by destruct (truthy (veniceChatModel body)).
Qed.

(** X17: saving the settings page as it was fetched, without editing it,
    replaces every API key that was set by the mask: the stored Venice key
    and the one in the config become the three asterisks, and so does the
    key of the running Venice speech service; likewise the Pexels key. The
    other four settings, and a key that was not set, stay as they were. *)
Theorem save_as_fetched_stores_the_mask (writable : bool) (srv : Server) :
  let saved := (handleSave writable (fetchSettings srv) srv).1 in
  let old := settings (settingsManager srv) in
  let new := settings (settingsManager saved) in
  (truthy (veniceApiKey old) = true ->
   veniceApiKey new = Defined "***"
   /\ configVeniceApiKey (config (settingsManager saved)) = Some "***"
   /\ (is_Some (ttsService srv) ->
       apiKey <$> ttsService saved = Some "***"))
  /\ (truthy (pexelsApiKey old) = true ->
      pexelsApiKey new = Defined "***"
      /\ configPexelsApiKey (config (settingsManager saved)) = Some "***")
  /\ (truthy (veniceApiKey old) = false ->
      veniceApiKey new = veniceApiKey old)
  /\ (truthy (pexelsApiKey old) = false ->
      pexelsApiKey new = pexelsApiKey old)
  /\ veniceChatModel new = veniceChatModel old
  /\ ttsProvider new = ttsProvider old
  /\ transcriptionProvider new = transcriptionProvider old
  /\ ttsSpeed new = ttsSpeed old.
Proof.
  cbv zeta. unfold handleSave.
  rewrite put_manager, updateSettings_settings, updateSettings_config.
  set (old := settings (settingsManager srv)).
  assert (Hpage : fetchSettings srv
                  = stringify (getSettings false (settingsManager srv)))
    by done.
  assert (Hvk : veniceApiKey (fetchSettings srv)
                = dropUndefined (mask (veniceApiKey old))) by done.
  assert (Hpk : pexelsApiKey (fetchSettings srv)
                = dropUndefined (mask (pexelsApiKey old))) by done.
  cbn [spread applyToConfig veniceApiKey veniceChatModel ttsProvider
       transcriptionProvider ttsSpeed pexelsApiKey configVeniceApiKey
       configPexelsApiKey].
  rewrite Hvk, Hpk, !over_mask.
  assert (Hrest : veniceChatModel (fetchSettings srv)
                  = dropUndefined (veniceChatModel old)
                  /\ ttsProvider (fetchSettings srv)
                     = dropUndefined (ttsProvider old)
                  /\ transcriptionProvider (fetchSettings srv)
                     = dropUndefined (transcriptionProvider old)
                  /\ ttsSpeed (fetchSettings srv)
                     = dropUndefined (ttsSpeed old)) by done.
  destruct Hrest as (-> & -> & -> & ->). rewrite !over_own.
  split; [|split; [|split; [|split; [|done]]]].
  - intros H. split; [by rewrite H|]. split.
    + unfold mask. by rewrite H.
    + intros [v Hv].
      rewrite (put_service_key _ _ _ v Hv);
        rewrite Hvk; unfold mask; by rewrite ?truthy_dropUndefined, H.
  - intros H. split; [by rewrite H|]. unfold mask. by rewrite H.
  - intros H. by rewrite H.
  - intros H. by rewrite H.
Qed.

Lemma save_as_fetched_stores_the_mask_witness :
  let srv :=
    {| settingsManager :=
         {| settings :=
              {| veniceApiKey := Defined "vk-123"; veniceChatModel := Absent;
                 ttsProvider := Defined veniceTts;
                 transcriptionProvider := Absent; ttsSpeed := Absent;
                 pexelsApiKey := Absent |};
            config :=
              {| configVeniceApiKey := Some "vk-123";
                 configVeniceChatModel := None;
                 configTtsProvider := Some veniceTts;
                 configTranscriptionProvider := None;
                 configPexelsApiKey := None |};
            file := Missing |};
       ttsService := Some {| apiKey := "vk-123";
                             defaultChatModel := "llama-3.3-70b" |} |} in
  apiKey <$> ttsService (handleSave true (fetchSettings srv) srv).1
  = Some "***".
Proof.
  intros srv.
  apply (proj1 (save_as_fetched_stores_the_mask true srv)).
  - reflexivity.
  - by eexists.
Defined.

(** *** The config and the settings *)

Lemma follows_assign {A} `{EqDecision A} (new old : Field A)
    (c : option A) :
  follows old c = true -> follows (over old new) (assign new c) = true.
Proof.
  destruct new as [| |v]; cbn; try done.
  intros _. by apply bool_decide_eq_true_2.
Qed.

Lemma follows_ofOption {A} `{EqDecision A} (c : option A) :
  follows (ofOption c) c = true.
Proof. destruct c; cbn; [by apply bool_decide_eq_true_2|done]. Qed.

Lemma follows_own {A} `{EqDecision A} (f : Field A) (c : option A) :
  follows f (assign f c) = true.
Proof. destruct f; cbn; try done. by apply bool_decide_eq_true_2. Qed.

Lemma configFollows_saveSettings w (m : Manager) :
  configFollows (saveSettings w m) = configFollows m.
Proof. by destruct w. Qed.

Lemma construct_follows w c fl : configFollows (construct w c fl) = true.
Proof.
  unfold construct, loadSettings. cbn [file config].
  destruct fl as [| |content].
  - rewrite configFollows_saveSettings. unfold configFollows.
    cbn [settings config veniceApiKey veniceChatModel ttsProvider
         transcriptionProvider pexelsApiKey].
    by rewrite !follows_ofOption.
  - done.
  - unfold configFollows, applySettingsToConfig, applyToConfig.
    cbn [settings config configVeniceApiKey configVeniceChatModel
         configTtsProvider configTranscriptionProvider configPexelsApiKey].
    by rewrite !follows_own.
Qed.

Lemma configFollows_split (m : Manager) :
  configFollows m = true
  <-> follows (veniceApiKey (settings m)) (configVeniceApiKey (config m))
      = true
      /\ follows (veniceChatModel (settings m))
                 (configVeniceChatModel (config m)) = true
      /\ follows (ttsProvider (settings m)) (configTtsProvider (config m))
         = true
      /\ follows (transcriptionProvider (settings m))
                 (configTranscriptionProvider (config m)) = true
      /\ follows (pexelsApiKey (settings m)) (configPexelsApiKey (config m))
         = true.
Proof. unfold configFollows. rewrite !andb_true_iff. tauto. Qed.

Lemma applyOp_follows (m : Manager) (op : Op) :
  isReset op = false ->
  configFollows m = true -> configFollows (applyOp m op) = true.
Proof.
  intros Hop. rewrite !configFollows_split.
  intros (H1 & H2 & H3 & H4 & H5).
  destruct op as [w new|w a|w]; [| |done]; cbn [applyOp].
  - rewrite updateSettings_settings, updateSettings_config.
    cbn [spread applyToConfig veniceApiKey veniceChatModel ttsProvider
         transcriptionProvider pexelsApiKey configVeniceApiKey
         configVeniceChatModel configTtsProvider
         configTranscriptionProvider configPexelsApiKey].
    repeat split; by apply follows_assign.
  - unfold setSetting. cbn [settings config].
    rewrite saveSettings_settings, saveSettings_config. cbn [settings config].
    destruct a as [[v|]|[v|]|v|v|v|[v|]];
      cbn [store configure veniceApiKey veniceChatModel ttsProvider
           transcriptionProvider pexelsApiKey configVeniceApiKey
           configVeniceChatModel configTtsProvider
           configTranscriptionProvider configPexelsApiKey];
      repeat split; try done; apply follows_ofOption.
Qed.

(** X18: the config follows the settings. From the construction of the
    manager on, whatever the settings file held and whether or not the
    disk can be written, after any updates and assignments every setting
    that has a value has that value in the config too. A reset does not
    touch the config: after one, the config follows the settings exactly
    when it already held the three defaults. *)
Theorem config_follows_settings (writable : bool) (initial : Config)
    (onDisk : File) (ops : list Op) :
  (Forall (fun op => isReset op = false) ops ->
   configFollows (foldl applyOp (construct writable initial onDisk) ops)
   = true)
  /\ (forall w (m : Manager),
        config (resetSettings w m).1 = config m
        /\ (configFollows (resetSettings w m).1 = true
            <-> configVeniceChatModel (config m) = Some "llama-3.3-70b"
                /\ configTtsProvider (config m) = Some kokoro
                /\ configTranscriptionProvider (config m) = Some whisper)).
Proof.
  split.
  - intros Hops.
    assert (Hgen : forall m, configFollows m = true ->
                             configFollows (foldl applyOp m ops) = true).
    { induction Hops as [|op ops Hop _ IH]; intros m Hm; [done|].
      cbn [foldl]. apply IH. by apply applyOp_follows. }
    apply Hgen, construct_follows.
  - intros w m. unfold resetSettings. cbn [fst].
    rewrite configFollows_saveSettings, saveSettings_config.
    split; [done|].
    rewrite configFollows_split.
    cbn [settings config veniceApiKey veniceChatModel ttsProvider
         transcriptionProvider pexelsApiKey follows].
    rewrite !bool_decide_eq_true. tauto.
Qed.

Lemma config_follows_settings_witness :
  configFollows
    (foldl applyOp
       (construct true
          {| configVeniceApiKey := None; configVeniceChatModel := None;
             configTtsProvider := Some kokoro;
             configTranscriptionProvider := Some whisper;
             configPexelsApiKey := Some "px" |} Missing)
       [Assign false (SetTtsProvider (Some veniceTts));
        Update true
          {| veniceApiKey := Defined "vk"; veniceChatModel := Undefined;
             ttsProvider := Absent; transcriptionProvider := Absent;
             ttsSpeed := Defined (3 # 2)%Q; pexelsApiKey := Absent |}])
  = true.
Proof.
  apply (proj1 (config_follows_settings true _ Missing _)).
  repeat constructor.
Defined.

(** *** Restart *)

Lemma getSettings_stringify b (m m' : Manager) :
  settings m' = stringify (settings m) ->
  json (getSettings b m') = json (getSettings b m).
Proof.
  intros Hs. unfold json, getSettings. destruct b.
  - rewrite Hs. unfold stringify. cbn. by rewrite !dropUndefined_idemp.
  - rewrite Hs. unfold stringify. cbn.
    by rewrite !dropUndefined_idemp, !dropUndefined_mask.
Qed.

Lemma applyOp_file (m : Manager) (op : Op) :
  writes op = true ->
  file (applyOp m op) = Json (stringify (settings (applyOp m op))).
Proof.
  destruct op as [w new|w a|w]; cbn [writes]; intros ->; done.
Qed.

(** X19: what an operation has written to the settings file is what a
    restart reads back: a manager constructed afterwards from the file, on
    whatever config, answers [GET /settings] (and the unmasked read) with
    the same JSON as the manager that wrote it. *)
Theorem restart_reads_back (m : Manager) (op : Op) (includeSensitive : bool)
    (writable : bool) (fresh : Config) :
  writes op = true ->
  json (getSettings includeSensitive
          (construct writable fresh (file (applyOp m op))))
  = json (getSettings includeSensitive (applyOp m op)).
Proof.
  intros Hw. rewrite (applyOp_file _ _ Hw).
  apply getSettings_stringify. done.
Qed.

Lemma restart_reads_back_witness :
  let m := construct true
             {| configVeniceApiKey := Some "vk";
                configVeniceChatModel := None;
                configTtsProvider := Some kokoro;
                configTranscriptionProvider := Some whisper;
                configPexelsApiKey := None |} Missing in
  let op := Assign true (SetTtsSpeed (Some (3 # 2)%Q)) in
  json (getSettings false
          (construct false
             {| configVeniceApiKey := None; configVeniceChatModel := None;
                configTtsProvider := None;
                configTranscriptionProvider := None;
                configPexelsApiKey := None |} (file (applyOp m op))))
  = json (getSettings false (applyOp m op)).
Proof.
  intros m op. apply (restart_reads_back m op false false _). reflexivity.
Defined.

End SettingsProps.

(* ===================================================================== *)
(** ** Properties of the captions made from a transcription               *)
(* ===================================================================== *)

Module WhisperProps.
Import Timeline Whisper.
#[local] Open Scope Q_scope.

(** *** Splitting *)

Lemma split_nonempty (s : string) : split s <> [].
Proof.
  induction s as [|c rest IH]; [done|]. cbn [split].
  destruct (Ascii.eqb c " "); [done|]. by destruct (split rest).
Qed.

Lemma concat_cons (sep x : string) (l : list string) :
  l <> [] ->
  String.concat sep (x :: l) = x +:+ sep +:+ String.concat sep l.
Proof. by destruct l. Qed.

Lemma concat_split (s : string) : String.concat " " (split s) = s.
Proof.
  induction s as [|c rest IH]; [done|]. cbn [split].
  destruct (Ascii.eqb c " ") eqn:Hc.
  - apply Ascii.eqb_eq in Hc as ->.
    rewrite concat_cons by apply split_nonempty. by rewrite IH.
  - pose proof (split_nonempty rest) as Hne.
    destruct (split rest) as [|w ws]; [done|].
    destruct ws as [|w' ws].
    + cbn in *. by rewrite IH.
    + rewrite concat_cons by done. rewrite concat_cons in IH by done.
      rewrite <- IH. reflexivity.
Qed.

Lemma fmap_imap_text (f : nat -> string -> Caption) (l : list string) :
  (forall i w, text (f i w) = w) -> text <$> imap f l = l.
Proof.
  revert f. induction l as [|w l IH]; intros f Hf; [done|].
  cbn [imap fmap list_fmap]. rewrite Hf. f_equal.
  apply IH. intros i w'. apply Hf.
Qed.

Lemma number_S (i : nat) : number (S i) == number i + 1.
Proof.
  unfold number. rewrite Nat2Z.inj_succ. unfold Z.succ.
  by rewrite inject_Z_plus.
Qed.

Lemma rounded_comp (x y : Q) : x == y -> rounded x = rounded y.
Proof. intros H. unfold rounded, Math_round. by rewrite H. Qed.

Lemma rounded_le (x y : Q) : x <= y -> rounded x <= rounded y.
Proof.
  intros H. unfold rounded, Math_round. rewrite <- Zle_Qle.
  apply Qfloor_resp_le. lra.
Qed.

(** X20: when the service sends segments and no words, a segment is cut at
    its single spaces after trimming: there is at least one caption, the
    caption texts joined by spaces are the trimmed text, every caption ends
    at the millisecond at which the next one starts, the first starts at
    the segment's start, and, for a segment that does not end before it
    starts, no caption ends before it starts. *)
Theorem segment_is_cut_at_spaces (segment : VeniceSegment) :
  let captions := segmentCaptions segment in
  captions <> []
  /\ String.concat " " (text <$> captions) = trim (segmentText segment)
  /\ adjacent (fun a b => endMs a = startMs b) captions
  /\ (forall a, captions !! 0%nat = Some a ->
                startMs a = rounded (segmentStart segment * 1000))
  /\ (segmentStart segment <= segmentEnd segment ->
      Forall (fun c => startMs c <= endMs c) captions).
Proof.
  cbv zeta. unfold segmentCaptions. cbv zeta.
  set (words := split (trim (segmentText segment))).
  set (wd := (segmentEnd segment - segmentStart segment)
             / number (length words)).
  assert (Hne : words <> []) by apply split_nonempty.
  split; [|split; [|split; [|split]]].
  - intros H. apply (f_equal length) in H. rewrite length_imap in H.
    by destruct words.
  - rewrite fmap_imap_text by done. apply concat_split.
  - intros i a b. rewrite !list_lookup_imap.
    destruct (words !! i) as [wa|]; [|done].
    destruct (words !! S i) as [wb|]; [|done].
    cbn. intros [= <-] [= <-]. cbn [startMs endMs].
    apply rounded_comp. rewrite number_S. reflexivity.
  - intros a. rewrite list_lookup_imap.
    destruct (words !! 0%nat) as [w|]; [|done].
    cbn. intros [= <-]. cbn [startMs].
    apply rounded_comp. unfold number. cbn [Z.of_nat].
    change (inject_Z 0) with 0. ring.
  - intros Hse. apply Forall_forall. intros c Hc.
    apply list_elem_of_lookup in Hc as [i Hi].
    rewrite list_lookup_imap in Hi.
    destruct (words !! i) as [w|]; [|done].
    cbn in Hi. injection Hi as <-. cbn [startMs endMs].
    apply rounded_le.
    assert (Hn : 0 < number (length words)).
    { unfold number. change 0 with (inject_Z 0). rewrite <- Zlt_Qlt.
      destruct words; [done|]. cbn [length]. lia. }
    assert (Hwd : 0 <= wd).
    { unfold wd. apply Qle_shift_div_l; [done|]. lra. }
    nra.
Qed.

Lemma segment_is_cut_at_spaces_witness :
  Forall (fun c => startMs c <= endMs c)
         (segmentCaptions {| segmentText := " hello big world ";
                             segmentStart := 1; segmentEnd := 4 |}).
Proof.
  apply (proj2 (proj2 (proj2 (proj2
           (segment_is_cut_at_spaces
              {| segmentText := " hello big world ";
                 segmentStart := 1; segmentEnd := 4 |}))))).
  discriminate.
Defined.

(** *** The captions of whisper.cpp *)

Lemma adjacent_snoc {A} (R : A -> A -> Prop) (init : list A) (x : A) :
  adjacent R (init ++ [x])
  <-> adjacent R init /\ (forall z, last init = Some z -> R z x).
Proof.
  unfold adjacent. split.
  - intros H. split.
    + intros i a b Ha Hb. apply (H i a b).
      * rewrite lookup_app_l; [done|]. by eapply lookup_lt_Some.
      * rewrite lookup_app_l; [done|]. by eapply lookup_lt_Some.
    + intros z Hz. rewrite last_lookup in Hz.
      pose proof (lookup_lt_Some _ _ _ Hz) as Hlt.
      apply (H (pred (length init)) z x).
      * by rewrite lookup_app_l.
      * apply list_lookup_middle. lia.
  - intros [H1 H2] i a b Ha Hb.
    pose proof (lookup_lt_Some _ _ _ Hb) as Hlt.
    rewrite length_app in Hlt. cbn in Hlt.
    destruct (decide (S i < length init)%nat) as [Hin|Hout].
    + rewrite lookup_app_l in Ha by lia. rewrite lookup_app_l in Hb by lia.
      by apply (H1 i a b).
    + assert (Hi : S i = length init) by lia.
      rewrite lookup_app_l in Ha by lia.
      rewrite (list_lookup_middle init [] x (S i) Hi) in Hb.
      injection Hb as <-. apply H2. rewrite last_lookup.
      by replace (pred (length init)) with i by lia.
Qed.

Lemma adjacent_nil {A} (R : A -> A -> Prop) : adjacent R [].
Proof. intros i a b H. done. Qed.

Lemma snoc_or_nil {A} (l : list A) :
  l = [] \/ exists init x, l = init ++ [x].
Proof.
  destruct l as [|y l] using rev_ind; [by left|]. right. eauto.
Qed.

(** What one token does to the captions: nothing, a new caption at the
    end, or a change of the last caption. *)
Lemma addToken_cases (record : TranscriptionRecord) (captions : list Caption)
    (token : Token) :
  addToken record captions token = captions
  \/ (addToken record captions token
      = captions ++ [ {| text := tokenText token;
                         startMs := offsetsFrom record;
                         endMs := offsetsTo record |} ]
      /\ forall z, last captions = Some z ->
                   spaced z {| text := tokenText token;
                               startMs := offsetsFrom record;
                               endMs := offsetsTo record |} = true)
  \/ (exists init z,
        captions = init ++ [z]
        /\ addToken record captions token
           = init ++ [ {| text := text z +:+ recordText record;
                          startMs := startMs z;
                          endMs := offsetsTo record |} ]).
Proof.
  unfold addToken.
  destruct (startsWith (tokenText token) "[_TT"); [by left|].
  destruct (snoc_or_nil captions) as [->|(init & z & ->)].
  - right; left. split; [done|]. intros z Hz. done.
  - rewrite last_snoc.
    destruct (startsWith (tokenText token) " ") eqn:Hs; cbn [negb andb].
    + right; left. split; [done|]. intros z'. rewrite ?last_snoc.
      intros [= <-]. unfold spaced. cbn [text]. rewrite Hs.
      apply orb_true_r.
    + destruct (endsWith (text z) " ") eqn:He; cbn [negb].
      * right; left. split; [done|]. intros z'. rewrite ?last_snoc.
        intros [= <-]. unfold spaced. by rewrite He.
      * right; right. exists init, z. split; [done|].
        rewrite length_app. cbn [length].
        replace (length init + 1 - 1)%nat with (length init + 0)%nat by lia.
        rewrite alter_app_r. done.
Qed.

Lemma prefix_app (p s t : string) :
  String.prefix p s = true -> String.prefix p (s +:+ t) = true.
Proof.
  revert s. induction p as [|c p IH]; intros s.
  - intros _. by destruct (s +:+ t).
  - destruct s as [|d s]; [done|].
    change (String d s +:+ t) with (String d (s +:+ t)).
    cbn [String.prefix]. destruct (ascii_dec c d); [apply IH|done].
Qed.

Lemma spaced_app (a b : Caption) (more : string) (from to : Q) :
  spaced a b = true ->
  spaced a {| text := text b +:+ more; startMs := from; endMs := to |}
  = true.
Proof.
  unfold spaced. rewrite !orb_true_iff. intros [H|H]; [by left|right].
  cbn [text]. by apply prefix_app.
Qed.

Lemma addToken_spaced record captions token :
  adjacent (fun a b => spaced a b = true) captions ->
  adjacent (fun a b => spaced a b = true) (addToken record captions token).
Proof.
  intros H.
  destruct (addToken_cases record captions token)
    as [->|[[-> Hnew]|(init & z & -> & ->)]]; [done| |].
  - by apply adjacent_snoc.
  - apply adjacent_snoc in H as [H1 H2]. apply adjacent_snoc.
    split; [done|]. intros y Hy. by apply spaced_app, H2.
Qed.

Lemma foldl_invariant {A B} (P : A -> Prop) (f : A -> B -> A) (l : list B)
    (a : A) :
  (forall a b, P a -> P (f a b)) -> P a -> P (foldl f a l).
Proof.
  intros Hf. revert a. induction l as [|b l IH]; intros a Ha; [done|].
  cbn [foldl]. by apply IH, Hf.
Qed.

(** X21: whatever whisper.cpp returns, two captions that follow each
    other are separated by a space: the earlier one ends with a space or
    the later one starts with one. *)
Theorem captions_are_separated_by_spaces
    (transcription : list TranscriptionRecord) :
  adjacent (fun a b => spaced a b = true) (localCaptions transcription).
Proof.
  unfold localCaptions. apply foldl_invariant; [|apply adjacent_nil].
  intros captions record H. unfold addRecord.
  destruct (String.eqb (recordText record) EmptyString); [done|].
  apply foldl_invariant; [|done].
  intros. by apply addToken_spaced.
Qed.

(** *** Times *)

(** *** Times *)

Lemma addToken_timed (record : TranscriptionRecord)
    (captions : list Caption) (token : Token) :
  offsetsFrom record <= offsetsTo record ->
  timed (offsetsFrom record) (offsetsTo record) captions ->
  timed (offsetsFrom record) (offsetsTo record)
        (addToken record captions token).
Proof.
  intros Hr (Hok & Hadj & Hlast).
  destruct (addToken_cases record captions token)
    as [->|[[-> _]|(init & z & -> & ->)]]; [done| |].
  - split; [|split].
    + apply Forall_app. split; [done|]. by apply Forall_singleton.
    + apply adjacent_snoc. split; [done|]. intros z Hz. by apply Hlast.
    + intros z. rewrite last_snoc. intros [= <-]. cbn [startMs endMs].
      split; apply Qle_refl.
  - apply Forall_app in Hok as [Hinit Hz].
    apply Forall_singleton in Hz.
    apply adjacent_snoc in Hadj as [Hadj Hprev].
    destruct (Hlast z (last_snoc _ _)) as [Hz1 Hz2].
    split; [|split].
    + apply Forall_app. split; [done|]. apply Forall_singleton.
      cbn [startMs endMs]. lra.
    + apply adjacent_snoc. split; [done|]. intros y Hy.
      destruct (Hprev y Hy) as [Hy1 Hy2]. cbn [startMs endMs].
      split; lra.
    + intros z'. rewrite last_snoc. intros [= <-]. cbn [startMs endMs].
      split; [done|apply Qle_refl].
Qed.

Lemma addRecord_timed (record : TranscriptionRecord)
    (captions : list Caption) :
  offsetsFrom record <= offsetsTo record ->
  timed (offsetsFrom record) (offsetsTo record) captions ->
  timed (offsetsFrom record) (offsetsTo record) (addRecord captions record).
Proof.
  intros Hr H. unfold addRecord.
  destruct (String.eqb (recordText record) EmptyString); [done|].
  apply foldl_invariant; [|done]. intros. by apply addToken_timed.
Qed.

Lemma foldl_addRecord_timed (records : list TranscriptionRecord)
    (captions : list Caption) :
  ordered records ->
  Forall (fun c => startMs c <= endMs c) captions ->
  adjacent (fun a b => startMs a <= startMs b /\ endMs a <= endMs b)
           captions ->
  (forall z, last captions = Some z ->
             Forall (fun r => startMs z <= offsetsFrom r
                              /\ endMs z <= offsetsTo r) records) ->
  Forall (fun c => startMs c <= endMs c) (foldl addRecord captions records)
  /\ adjacent (fun a b => startMs a <= startMs b /\ endMs a <= endMs b)
              (foldl addRecord captions records).
Proof.
  revert captions.
  induction records as [|r rest IH]; intros captions Hord Hok Hadj Hlast;
    [done|].
  destruct Hord as (Hr & Hrest & Hord). cbn [foldl].
  assert (Htimed : timed (offsetsFrom r) (offsetsTo r) captions).
  { split; [done|]. split; [done|]. intros z Hz.
    specialize (Hlast z Hz). by apply Forall_cons in Hlast as [? _]. }
  apply (addRecord_timed _ _ Hr) in Htimed as (Hok' & Hadj' & Hlast').
  apply IH; try done.
  intros z Hz. destruct (Hlast' z Hz) as [Hz1 Hz2].
  eapply Forall_impl; [exact Hrest|].
  intros r' [H1 H2]. cbn beta in *. split; lra.
Qed.

(** X22: when the records whisper.cpp returns are in time (none ends
    before it starts, and none starts or ends before an earlier one does),
    so are the captions: no caption ends before it starts, and from one
    caption to the next neither the start nor the end goes back. *)
Theorem captions_are_in_time (transcription : list TranscriptionRecord) :
  ordered transcription ->
  Forall (fun c => startMs c <= endMs c) (localCaptions transcription)
  /\ adjacent (fun a b => startMs a <= startMs b /\ endMs a <= endMs b)
              (localCaptions transcription).
Proof.
  intros Hord. unfold localCaptions.
  apply foldl_addRecord_timed; done.
Qed.

Lemma captions_are_in_time_witness :
  Forall (fun c => startMs c <= endMs c)
    (localCaptions
       [ {| recordText := " Hel"; tokens := [ {| tokenText := " Hel" |} ];
            offsetsFrom := 0; offsetsTo := 200 |};
         {| recordText := "lo"; tokens := [ {| tokenText := "lo" |};
                                            {| tokenText := "[_TT_20]" |} ];
            offsetsFrom := 200; offsetsTo := 400 |};
         {| recordText := " world";
            tokens := [ {| tokenText := " world" |} ];
            offsetsFrom := 400; offsetsTo := 900 |} ]).
Proof.
  refine (proj1 (captions_are_in_time _ _)).
  cbn [ordered offsetsFrom offsetsTo].
  repeat split; repeat constructor; discriminate.
Defined.

End WhisperProps.
